(** * SNI: a shallow embedding of the device drivers

  The development follows the Go sources of the service:

  - [devices/snes/mapping/translate.go]      (module [Mapping]),
  - [udpclient/udpclient.go]                 (module [UDP]),
  - [devices/snes/drivers/fxpakpro/*.go]     (module [FxPakPro]),
  - [devices/snes/drivers/emunwa/client.go]  (module [EmuNWA]).

  Integers of the source are [Z] with their wrap-around written out,
  byte buffers are [list Z], Go maps are stdpp [gmap]s, and every call
  that reaches a socket or a serial port takes its outcome from an
  explicit environment and leaves an event in an explicit trace. *)

From Stdlib Require Import ZArith Lia List String Ascii Bool HexadecimalString.
From stdpp Require Import gmap strings list fin_maps.
Import ListNotations.

Open Scope string_scope.
Open Scope list_scope.
Open Scope Z_scope.

(** ** Go basics shared by the packages *)

Module Go.

(** [uint32] arithmetic wraps modulo 2^32, [int] is 64 bits wide. *)
Definition u32 (x : Z) : Z := x mod 2 ^ 32.

Definition int64 (x : Z) : Z := (x + 2 ^ 63) mod 2 ^ 64 - 2 ^ 63.

(** The error values that travel through the drivers.  [DeviceFatal] and
    [DeviceNonFatal] are the two wrappers of package [devices]; [Status]
    is a gRPC status error; [NetErr] stands for an error handed back by
    the operating system or the standard library. *)
Inductive code := InvalidArgument | OtherCode.

Inductive neterr := ErrClosed | ErrTimeout | ErrEOF | ErrOther (n : Z).

Inductive error :=
| NetErr (e : neterr)
| Errorf (msg : string)
| Status (c : code) (msg : string)
| DeviceFatal (cause : error)
| DeviceNonFatal (cause : error).

(** [copy(dst, src)]: the first [min(len dst, len src)] bytes of [dst]
    are overwritten, the rest of [dst] is kept. *)
Definition copy (dst src : list Z) : list Z :=
  firstn (length dst) src ++ skipn (length src) dst.

(** [s[lo:hi]] for [lo <= hi <= len s]. *)
Definition slice (s : list Z) (lo hi : nat) : list Z :=
  firstn (hi - lo) (skipn lo s).

(** [make([]byte, n)]; a negative length panics. *)
Definition make (n : Z) : option (list Z) :=
  if n <? 0 then None else Some (repeat 0 (Z.to_nat n)).

(** Conversions between byte slices and strings. *)
Definition byte_of_ascii (a : ascii) : Z := Z.of_N (N_of_ascii a).
Definition ascii_of_byte (b : Z) : ascii := ascii_of_N (Z.to_N b).

Fixpoint bytes_of_string (s : string) : list Z :=
  match s with
  | EmptyString => []
  | String a s' => byte_of_ascii a :: bytes_of_string s'
  end.

Fixpoint string_of_bytes (l : list Z) : string :=
  match l with
  | [] => EmptyString
  | b :: l' => String (ascii_of_byte b) (string_of_bytes l')
  end.

(** [binary.BigEndian.Uint32]. *)
Definition be_uint32 (b0 b1 b2 b3 : Z) : Z :=
  Z.lor (Z.lor (Z.lor (Z.shiftl b0 24) (Z.shiftl b1 16)) (Z.shiftl b2 8)) b3.

(** [strings.SplitN(s, ":", 2)] in two parts: the text before the first
    colon, and the text after it when there is one. *)
Fixpoint SplitN2 (s : string) : string * option string :=
  match s with
  | EmptyString => (EmptyString, None)
  | String a s' =>
      if Ascii.eqb a ":"%char then (EmptyString, Some s')
      else let '(k, v) := SplitN2 s' in (String a k, v)
  end.

(** [strings.ToUpper] and [strings.ToLower] on the ASCII letters. *)
Definition upper_ascii (a : ascii) : ascii :=
  let n := N_of_ascii a in
  if ((97 <=? n) && (n <=? 122))%N then ascii_of_N (n - 32) else a.

Definition lower_ascii (a : ascii) : ascii :=
  let n := N_of_ascii a in
  if ((65 <=? n) && (n <=? 90))%N then ascii_of_N (n + 32) else a.

Fixpoint map_string (f : ascii -> ascii) (s : string) : string :=
  match s with
  | EmptyString => EmptyString
  | String a s' => String (f a) (map_string f s')
  end.

Definition ToUpper : string -> string := map_string upper_ascii.
Definition ToLower : string -> string := map_string lower_ascii.

(** [strings.TrimSpace] for the ASCII white space. *)
Definition isSpace (a : ascii) : bool :=
  let n := N_of_ascii a in
  ((9 <=? n) && (n <=? 13) || (n =? 32))%N.

Fixpoint trimLeft (s : string) : string :=
  match s with
  | EmptyString => EmptyString
  | String a s' => if isSpace a then trimLeft s' else s
  end.

Fixpoint trimRight (s : string) : string :=
  match s with
  | EmptyString => EmptyString
  | String a s' =>
      match trimRight s' with
      | EmptyString => if isSpace a then EmptyString else String a EmptyString
      | t => String a t
      end
  end.

Definition TrimSpace (s : string) : string := trimRight (trimLeft s).

(** [strconv.ParseUint(s, 10, 64)]. *)
Definition digit (a : ascii) : option Z :=
  let n := N_of_ascii a in
  if ((48 <=? n) && (n <=? 57))%N then Some (Z.of_N n - 48) else None.

Fixpoint parseDigits (s : string) (acc : Z) : option Z :=
  match s with
  | EmptyString => Some acc
  | String a s' =>
      match digit a with
      | None => None
      | Some d => if 2 ^ 64 <=? 10 * acc + d then None else parseDigits s' (10 * acc + d)
      end
  end.

Definition ParseUint (s : string) : option Z :=
  match s with
  | EmptyString => None
  | _ => parseDigits s 0
  end.

(** The verb [%x] of package [fmt] on an integer. *)
Definition hex (n : Z) : string :=
  HexadecimalString.NilZero.string_of_int (Z.to_hex_int n).

Definition LF : Z := 10.
Definition CR : Z := 13.

(** [bufio.ScanLines] over a finite stream: the pieces between newlines,
    with a last unterminated piece when it is not empty. *)
Fixpoint ScanLines (s : list Z) : list (list Z) :=
  match s with
  | [] => []
  | b :: s' =>
      if b =? LF then [] :: ScanLines s'
      else match ScanLines s' with
           | [] => [[b]]
           | l :: ls => (b :: l) :: ls
           end
  end.

(** [dropCR]: one trailing carriage return is removed from a line. *)
Fixpoint dropCR (l : list Z) : list Z :=
  match l with
  | [] => []
  | [b] => if b =? CR then [] else [b]
  | b :: l' => b :: dropCR l'
  end.

(** [bufio.MaxScanTokenSize]: [Scan] gives up on a line that does not
    fit, newline included, in the scanner's buffer. *)
Definition MaxScanTokenSize : Z := 64 * 1024.

Fixpoint fits (ls : list (list Z)) : list (list Z) :=
  match ls with
  | [] => []
  | l :: ls' =>
      if Z.of_nat (length l) <? MaxScanTokenSize then l :: fits ls' else []
  end.

(** The successive values of [s.Text()] of a [bufio.Scanner] over [s]. *)
Definition Scan (s : list Z) : list string :=
  map (fun l => string_of_bytes (dropCR l)) (fits (ScanLines s)).

(** [binary.BigEndian.PutUint32], and [binary.Write] of a [uint32] in
    big-endian order: the four bytes of [n]. *)
Definition putUint32 (n : Z) : list Z :=
  [Z.shiftr n 24 mod 256; Z.shiftr n 16 mod 256; Z.shiftr n 8 mod 256; n mod 256].

End Go.

(** ** Package [mapping]: [translate.go] *)

Module Mapping.

(** The enumerations of [sni.proto]. *)
Inductive AddressSpace := AddressSpace_FxPakPro | AddressSpace_SnesABus | AddressSpace_Raw.

Inductive MemoryMapping :=
| MemoryMapping_Unknown
| MemoryMapping_HiROM
| MemoryMapping_LoROM
| MemoryMapping_ExHiROM
| MemoryMapping_SA1.

(** [devices.AddressTuple]. *)
Record AddressTuple := {
  Address : Z;
  Space : AddressSpace;
  Mapping : MemoryMapping
}.

(** The translation either succeeds, fails with this package's
    [ErrUnknownMapping], or fails with an error of the mapping library. *)
Inductive terror := ErrUnknownMapping | ErrLibrary (e : Go.error).

(** The eight functions of [github.com/alttpo/snes/mapping/...], which are
    not part of this repository: each takes an address and returns an
    address and an error of its own. *)
Record Library := {
  lorom_BusAddressToPak : Z -> Z * option Go.error;
  lorom_PakAddressToBus : Z -> Z * option Go.error;
  hirom_BusAddressToPak : Z -> Z * option Go.error;
  hirom_PakAddressToBus : Z -> Z * option Go.error;
  exhirom_BusAddressToPak : Z -> Z * option Go.error;
  exhirom_PakAddressToBus : Z -> Z * option Go.error;
  sa1rom_BusAddressToPak : Z -> Z * option Go.error;
  sa1rom_PakAddressToBus : Z -> Z * option Go.error
}.

Definition lib_result (r : Z * option Go.error) : Z * option terror :=
  (fst r, option_map ErrLibrary (snd r)).

Definition TranslateAddress (L : Library) (sourceAddress : AddressTuple)
    (deviceSpace : AddressSpace) : Z * option terror :=
  let address := Address sourceAddress in
  match Space sourceAddress with
  | AddressSpace_Raw => (address, None)
  | AddressSpace_FxPakPro =>
      match deviceSpace with
      | AddressSpace_Raw => (address, None)
      | AddressSpace_FxPakPro => (address, None)
      | AddressSpace_SnesABus =>
          match Mapping sourceAddress with
          | MemoryMapping_LoROM => lib_result (lorom_PakAddressToBus L address)
          | MemoryMapping_HiROM => lib_result (hirom_PakAddressToBus L address)
          | MemoryMapping_ExHiROM => lib_result (exhirom_PakAddressToBus L address)
          | MemoryMapping_SA1 => lib_result (sa1rom_PakAddressToBus L address)
          | MemoryMapping_Unknown => (0, Some ErrUnknownMapping)
          end
      end
  | AddressSpace_SnesABus =>
      match deviceSpace with
      | AddressSpace_Raw => (address, None)
      | AddressSpace_SnesABus => (address, None)
      | AddressSpace_FxPakPro =>
          match Mapping sourceAddress with
          | MemoryMapping_LoROM => lib_result (lorom_BusAddressToPak L address)
          | MemoryMapping_HiROM => lib_result (hirom_BusAddressToPak L address)
          | MemoryMapping_ExHiROM => lib_result (exhirom_BusAddressToPak L address)
          | MemoryMapping_SA1 => lib_result (sa1rom_BusAddressToPak L address)
          | MemoryMapping_Unknown => (0, Some ErrUnknownMapping)
          end
      end
  end.

(** *** The vocabulary of the properties *)

(** The translation needs the mapping exactly between the A-bus and the
    pak address space. *)
Definition needsMapping (src dst : AddressSpace) : Prop :=
  (src = AddressSpace_SnesABus /\ dst = AddressSpace_FxPakPro) \/
  (src = AddressSpace_FxPakPro /\ dst = AddressSpace_SnesABus).

(** [g] undoes [f] wherever [f] succeeds. *)
Definition undoes (f g : Z -> Z * option Go.error) : Prop :=
  forall a p, f a = (p, None) -> g p = (a, None).

(** A library whose four mappings translate a pak address back to the
    bus address it came from. *)
Definition roundTrips (L : Library) : Prop :=
  undoes (lorom_BusAddressToPak L) (lorom_PakAddressToBus L) /\
  undoes (hirom_BusAddressToPak L) (hirom_PakAddressToBus L) /\
  undoes (exhirom_BusAddressToPak L) (exhirom_PakAddressToBus L) /\
  undoes (sa1rom_BusAddressToPak L) (sa1rom_PakAddressToBus L).

(** A library in which every mapping moves an address by its own offset. *)
Definition shift_library : Library :=
  {| lorom_BusAddressToPak := fun a => (a + 1, None);
     lorom_PakAddressToBus := fun a => (a - 1, None);
     hirom_BusAddressToPak := fun a => (a + 2, None);
     hirom_PakAddressToBus := fun a => (a - 2, None);
     exhirom_BusAddressToPak := fun a => (a + 3, None);
     exhirom_PakAddressToBus := fun a => (a - 3, None);
     sa1rom_BusAddressToPak := fun a => (a + 4, None);
     sa1rom_PakAddressToBus := fun a => (a - 4, None) |}.

End Mapping.

(** ** Package [udpclient]: [udpclient.go] *)

Module UDP.

Import Go.

(** The client.  [c] is the [*net.UDPConn] ([None] for nil) and [addr] the
    server address, both as opaque handles; the mutex [seqLock] orders
    concurrent callers and has no part in a sequential run. *)
Record UDPClient := {
  name : string;
  c : option Z;
  addr : option Z;
  muteLog : bool;
  isConnected : bool;
  isClosed : bool
}.

(** What the socket answers during one call: the error of
    [SetWriteDeadline], of [Write], of [SetReadDeadline], the datagram or
    error of [ReadFromUDP], and the error of [Close]. *)
Record socket := {
  on_SetWriteDeadline : option neterr;
  on_Write : option neterr;
  on_SetReadDeadline : option neterr;
  on_ReadFromUDP : neterr + list Z;
  on_Close : option neterr
}.

(** The socket calls a method performs, in order. *)
Inductive syscall :=
| SetWriteDeadline
| Write (m : list Z)
| SetReadDeadline
| ReadFromUDP
| CloseSocket
| DialUDP (a : Z).

(** A method returns a client, a value and the calls it made, or panics:
    calling a method of a nil [*net.UDPConn] dereferences it. *)
Inductive outcome (A : Type) :=
| Ret (cl : UDPClient) (a : A) (tr : list syscall)
| Panic.
Arguments Ret {A} cl a tr.
Arguments Panic {A}.

Definition NewUDPClient (nm : string) : UDPClient :=
  {| name := nm; c := None; addr := None; muteLog := false;
     isConnected := false; isClosed := false |}.

Definition MakeUDPClient (nm : string) (cl : UDPClient) : UDPClient :=
  {| name := nm; c := c cl; addr := addr cl; muteLog := muteLog cl;
     isConnected := isConnected cl; isClosed := isClosed cl |}.

Definition IsClosed (cl : UDPClient) : bool := isClosed cl.

Definition IsConnected (cl : UDPClient) : bool := isConnected cl.

Definition MuteLog (cl : UDPClient) (muted : bool) : UDPClient :=
  {| name := name cl; c := c cl; addr := addr cl; muteLog := muted;
     isConnected := isConnected cl; isClosed := isClosed cl |}.

Definition isTimeoutError (e : neterr) : bool :=
  match e with ErrTimeout => true | _ => false end.

(** [errors.Is(err, net.ErrClosed)]. *)
Definition isErrClosed (e : neterr) : bool :=
  match e with ErrClosed => true | _ => false end.

Definition Close (cl : UDPClient) (s : socket) : UDPClient * option neterr * list syscall :=
  if negb (isConnected cl) then (cl, None, [])
  else
    let '(err, tr) :=
      match c cl with
      | Some _ => (on_Close s, [CloseSocket])
      | None => (None, [])
      end in
    ({| name := name cl; c := None; addr := addr cl; muteLog := muteLog cl;
        isConnected := false; isClosed := true |}, err, tr).

(** The tail shared by the read and write methods: the client is closed
    when the failure is a timeout, and when it is [net.ErrClosed]. *)
Definition closeOnFailure (cl : UDPClient) (s : socket) (e : neterr) : UDPClient * list syscall :=
  let '(cl1, tr1) :=
    if isTimeoutError e then let '(x, _, t) := Close cl s in (x, t) else (cl, []) in
  let '(cl2, tr2) :=
    if isErrClosed e then let '(x, _, t) := Close cl1 s in (x, t) else (cl1, []) in
  (cl2, tr1 ++ tr2).

Definition WriteWithDeadline (cl : UDPClient) (m : list Z) (s : socket) : outcome (option neterr) :=
  if isClosed cl then Ret cl (Some ErrClosed) []
  else
    match c cl with
    | None => Panic
    | Some _ =>
        match on_SetWriteDeadline s with
        | Some e => Ret cl (Some e) [SetWriteDeadline]
        | None =>
            match on_Write s with
            | Some e =>
                let '(cl', tr) := closeOnFailure cl s e in
                Ret cl' (Some e) ([SetWriteDeadline; Write m] ++ tr)
            | None => Ret cl None [SetWriteDeadline; Write m]
            end
        end
    end.

Definition ReadWithDeadline (cl : UDPClient) (s : socket)
    : outcome (option (list Z) * option neterr) :=
  if isClosed cl then Ret cl (None, Some ErrClosed) []
  else
    match c cl with
    | None => Panic
    | Some _ =>
        match on_SetReadDeadline s with
        | Some e => Ret cl (None, Some e) [SetReadDeadline]
        | None =>
            match on_ReadFromUDP s with
            | inl e =>
                let '(cl', tr) := closeOnFailure cl s e in
                Ret cl' (None, Some e) ([SetReadDeadline; ReadFromUDP] ++ tr)
            | inr d =>
                Ret cl (Some (firstn (Z.to_nat 65536) d), None)
                    [SetReadDeadline; ReadFromUDP]
            end
        end
    end.

(** [ReadWithDeadlineInto] reads into the caller's buffer [b] and returns
    the number of bytes with the buffer. *)
Definition ReadWithDeadlineInto (cl : UDPClient) (b : list Z) (s : socket)
    : outcome (Z * list Z * option neterr) :=
  if isClosed cl then Ret cl (0, b, Some ErrClosed) []
  else
    match c cl with
    | None => Panic
    | Some _ =>
        match on_SetReadDeadline s with
        | Some e => Ret cl (0, b, Some e) [SetReadDeadline]
        | None =>
            match on_ReadFromUDP s with
            | inl e =>
                let '(cl', tr) := closeOnFailure cl s e in
                Ret cl' (0, b, Some e) ([SetReadDeadline; ReadFromUDP] ++ tr)
            | inr d =>
                Ret cl (Z.of_nat (Nat.min (length b) (length d)), copy b d, None)
                    [SetReadDeadline; ReadFromUDP]
            end
        end
    end.

Definition WriteThenRead (cl : UDPClient) (m : list Z) (sw sr : socket)
    : outcome (option (list Z) * option neterr) :=
  if isClosed cl then Ret cl (None, Some ErrClosed) []
  else
    match WriteWithDeadline cl m sw with
    | Panic => Panic
    | Ret cl1 (Some e) tr1 => Ret cl1 (None, Some e) tr1
    | Ret cl1 None tr1 =>
        match ReadWithDeadline cl1 sr with
        | Panic => Panic
        | Ret cl2 r tr2 => Ret cl2 r (tr1 ++ tr2)
        end
    end.

(** [Connect]: [dial] is what [net.DialUDP] returns, a socket or an error. *)
Definition Connect (cl : UDPClient) (a : Z) (dial : neterr + Z)
    : UDPClient * option error * list syscall :=
  if isConnected cl then (cl, Some (Errorf "already connected"), [])
  else
    match dial with
    | inl e =>
        ({| name := name cl; c := None; addr := Some a; muteLog := muteLog cl;
            isConnected := isConnected cl; isClosed := isClosed cl |},
         Some (NetErr e), [DialUDP a])
    | inr h =>
        ({| name := name cl; c := Some h; addr := Some a; muteLog := muteLog cl;
            isConnected := true; isClosed := isClosed cl |},
         None, [DialUDP a])
    end.

Definition Disconnect (cl : UDPClient) (s : socket) : UDPClient * list syscall :=
  if negb (isConnected cl) then (cl, [])
  else let '(cl', _, tr) := Close cl s in (cl', tr).

(** One call of an exported method that can change the client, with the
    client it leaves behind.  A call that panics leaves it as it was. *)
Definition after {A} (cl : UDPClient) (o : outcome A) : UDPClient :=
  match o with Ret cl' _ _ => cl' | Panic => cl end.

Inductive step : UDPClient -> UDPClient -> Prop :=
| step_MakeUDPClient cl nm : step cl (MakeUDPClient nm cl)
| step_MuteLog cl b : step cl (MuteLog cl b)
| step_Connect cl a dial : step cl (Connect cl a dial).1.1
| step_Disconnect cl s : step cl (Disconnect cl s).1
| step_Close cl s : step cl (Close cl s).1.1
| step_WriteWithDeadline cl m s : step cl (after cl (WriteWithDeadline cl m s))
| step_ReadWithDeadline cl s : step cl (after cl (ReadWithDeadline cl s))
| step_ReadWithDeadlineInto cl b s : step cl (after cl (ReadWithDeadlineInto cl b s))
| step_WriteThenRead cl m sw sr : step cl (after cl (WriteThenRead cl m sw sr)).

(** The clients a program can hold: a new one, and what calls make of it. *)
Inductive reachable : UDPClient -> Prop :=
| reach_new nm : reachable (NewUDPClient nm)
| reach_step cl cl' : reachable cl -> step cl cl' -> reachable cl'.

(** Any number of later calls. *)
Inductive later : UDPClient -> UDPClient -> Prop :=
| later_now cl : later cl cl
| later_step cl cl' cl'' : later cl cl' -> step cl' cl'' -> later cl cl''.

(** *** The vocabulary of the properties *)

(** A client that holds a socket is connected. *)
Definition linked (cl : UDPClient) : Prop :=
  c cl <> None -> isConnected cl = true.

(** A property that every call keeps. *)
Definition kept (P : UDPClient -> Prop) : Prop :=
  forall cl cl', step cl cl' -> P cl -> P cl'.

(** A closed client answers [net.ErrClosed] and calls nothing. *)
Definition failsFast (cl : UDPClient) : Prop :=
  forall m s s',
    WriteWithDeadline cl m s = Ret cl (Some ErrClosed) [] /\
    ReadWithDeadline cl s = Ret cl (None, Some ErrClosed) [] /\
    WriteThenRead cl m s s' = Ret cl (None, Some ErrClosed) [].

(** The failures that close the client: a timeout and [net.ErrClosed]. *)
Definition closing (e : neterr) : Prop := isTimeoutError e || isErrClosed e = true.

(** A client that was connected and is still open. *)
Definition sample_client : UDPClient := (Connect (NewUDPClient "udp") 1 (inr 7)).1.1.

(** A socket on which the write and the read time out. *)
Definition sample_socket : socket :=
  {| on_SetWriteDeadline := None; on_Write := Some ErrTimeout;
     on_SetReadDeadline := None; on_ReadFromUDP := inl ErrTimeout;
     on_Close := None |}.

(** A socket on which the write succeeds and the read times out. *)
Definition quiet_socket : socket :=
  {| on_SetWriteDeadline := None; on_Write := None;
     on_SetReadDeadline := None; on_ReadFromUDP := inl ErrTimeout;
     on_Close := None |}.

(** A socket on which the write and the read fail with another error. *)
Definition refusing_socket : socket :=
  {| on_SetWriteDeadline := None; on_Write := Some (ErrOther 111);
     on_SetReadDeadline := None; on_ReadFromUDP := inl (ErrOther 111);
     on_Close := None |}.

(** The sample client after [Close]. *)
Definition closed_client : UDPClient := (Close sample_client sample_socket).1.1.

End UDP.

(** ** Package [fxpakpro]: [domains.go] and [ls.go] *)

Module FxPakPro.

Import Go.

(** [sni.MemoryDomainTypeSNES]. *)
Inductive MemoryDomainTypeSNES :=
| SNESCoreSpecificMemory
| SNESCartROM
| SNESCartRAM
| SNESWorkRAM
| SNESAPURAM
| SNESVideoRAM
| SNESCGRAM
| SNESObjectAttributeMemory.

Definition snes_index (t : MemoryDomainTypeSNES) : nat :=
  match t with
  | SNESCoreSpecificMemory => 0
  | SNESCartROM => 1
  | SNESCartRAM => 2
  | SNESWorkRAM => 3
  | SNESAPURAM => 4
  | SNESVideoRAM => 5
  | SNESCGRAM => 6
  | SNESObjectAttributeMemory => 7
  end%nat.

Definition snes_of_index (n : nat) : MemoryDomainTypeSNES :=
  match n with
  | 0 => SNESCoreSpecificMemory
  | 1 => SNESCartROM
  | 2 => SNESCartRAM
  | 3 => SNESWorkRAM
  | 4 => SNESAPURAM
  | 5 => SNESVideoRAM
  | 6 => SNESCGRAM
  | _ => SNESObjectAttributeMemory
  end%nat.

#[global] Instance MemoryDomainTypeSNES_eq_dec : EqDecision MemoryDomainTypeSNES.
Proof. solve_decision. Defined.

#[global] Instance MemoryDomainTypeSNES_countable : Countable MemoryDomainTypeSNES.
Proof.
  apply (inj_countable' snes_index snes_of_index).
  intros []; reflexivity.
Defined.

(** [sni.MemoryDomainRef]: an optional name and the [Type] one-of, which
    is [Some t] when it holds a [*sni.MemoryDomainRef_Snes]. *)
Record MemoryDomainRef := {
  Name : option string;
  Type_ : option MemoryDomainTypeSNES
}.

Record domainDesc := {
  domainRef : MemoryDomainRef;
  notes : string;
  start : Z;
  size : Z;
  writeable : bool
}.

Definition ref (nm : string) (t : MemoryDomainTypeSNES) : MemoryDomainRef :=
  {| Name := Some nm; Type_ := Some t |}.

Definition domainDescs : list domainDesc := [
  {| domainRef := ref "CARTROM" SNESCartROM;
     notes := "Cartridge ROM";
     start := 0; size := 0xE00000; writeable := true |};
  {| domainRef := ref "CARTRAM" SNESCartRAM;
     notes := "Cartridge battery-backed RAM aka SRAM";
     start := 0xE00000; size := 0x100000; writeable := true |};
  {| domainRef := ref "WRAM" SNESWorkRAM;
     notes := "Console Work RAM";
     start := 0xF50000; size := 0x020000; writeable := false |};
  {| domainRef := ref "APURAM" SNESAPURAM;
     notes := "Console APU RAM";
     start := 0xF80000; size := 0x010000; writeable := false |};
  {| domainRef := ref "VRAM" SNESVideoRAM;
     notes := "Console Video RAM";
     start := 0xF70000; size := 0x010000; writeable := false |};
  {| domainRef := ref "CGRAM" SNESCGRAM;
     notes := "Console Video Palette RAM";
     start := 0xF90000; size := 0x0200; writeable := false |};
  {| domainRef := ref "OAM" SNESObjectAttributeMemory;
     notes := "Console Object Attribute Memory";
     start := 0xF90200; size := 0x0420 - 0x0200; writeable := false |};
  {| domainRef := ref "FXPAKPRO_SNES" SNESCoreSpecificMemory;
     notes := "Entire FX Pak Pro address space for SNES space";
     start := 0; size := 0x1000000; writeable := true |};
  {| domainRef := ref "FXPAKPRO_CMD" SNESCoreSpecificMemory;
     notes := "Entire FX Pak Pro address space for CMD space";
     start := 0x1000000; size := 0x1000000; writeable := true |}
].

(** [sni.MemoryDomain] as this driver fills it. *)
Record MemoryDomain := {
  Core : string;
  Domain : MemoryDomainRef;
  Notes : string;
  Size : Z;
  Readable : bool;
  Writeable : bool
}.

Definition driverName : string := "fxpakpro".

(** The three package variables that [init] builds from [domainDescs]. *)
Record tables := {
  domains : list MemoryDomain;
  domainDescByType : gmap MemoryDomainTypeSNES domainDesc;
  domainDescByName : gmap string domainDesc
}.

Definition init_step (t : tables) (d : domainDesc) : tables :=
  {| domains := domains t ++ [
       {| Core := driverName; Domain := domainRef d; Notes := notes d;
          Size := size d; Readable := true; Writeable := writeable d |} ];
     domainDescByType :=
       match Type_ (domainRef d) with
       | Some ty => <[ty := d]> (domainDescByType t)
       | None => domainDescByType t
       end;
     domainDescByName :=
       match Name (domainRef d) with
       | Some nm => <[nm := d]> (domainDescByName t)
       | None => domainDescByName t
       end |}.

Definition init : tables :=
  fold_left init_step domainDescs
    {| domains := []; domainDescByType := ∅; domainDescByName := ∅ |}.

(** The device: none of its fields is read by the domain operations. *)
Record Device := { port : Z; closed : bool }.

Record MemoryDomainsResponse := {
  Uri : string;
  Domains : list MemoryDomain
}.

Definition MemoryDomains (d : Device) (requestUri : string)
    : MemoryDomainsResponse * option error :=
  ({| Uri := requestUri; Domains := domains init |}, None).

(** *** [MultiDomainRead] and [MultiDomainWrite] *)

(** The request messages of [sni.proto]; addresses and sizes are
    [uint32], [rq_Domain] is a pointer and may be nil. *)
Record MemoryDomainAddressSize := { rd_Address : Z; rd_Size : Z }.

Record MemoryDomainAddressData := { wr_Address : Z; wr_Data : list Z }.

Record GroupedDomainReadRequests := {
  rq_Domain : option MemoryDomainRef;
  rq_Reads : list MemoryDomainAddressSize
}.

Record GroupedDomainWriteRequests := {
  wq_Domain : option MemoryDomainRef;
  wq_Writes : list MemoryDomainAddressData
}.

(** [devices.MemoryReadRequest], [devices.MemoryWriteRequest] and the
    part of their responses that is used here. *)
Record MemoryReadRequest := {
  mr_RequestAddress : Mapping.AddressTuple;
  mr_Size : Z
}.

Record MemoryWriteRequest := {
  mw_RequestAddress : Mapping.AddressTuple;
  mw_Data : list Z
}.

(** The responses: [ad_Data] is [None] while it is nil. *)
Record AddressData := { ad_Address : Z; ad_Data : option (list Z) }.

Record AddressSize := { as_Address : Z; as_Size : Z }.

Record GroupedDomainReadResponses := {
  rr_Domain : MemoryDomainRef;
  rr_Reads : list AddressData
}.

Record GroupedDomainWriteResponses := {
  wr_Domain : MemoryDomainRef;
  wr_Writes : list AddressSize
}.

(** The memory operations of the device, [d.MultiReadMemory] and
    [d.MultiWriteMemory], which talk to the serial port: the read returns
    the data of each request or an error, the write an error or nothing. *)
Record DeviceIO := {
  MultiReadMemory : list MemoryReadRequest -> error + list (list Z);
  MultiWriteMemory : list MemoryWriteRequest -> option error
}.

(** A call on the device. *)
Inductive devcall :=
| CallRead (reqs : list MemoryReadRequest)
| CallWrite (reqs : list MemoryWriteRequest).

(** What a domain operation returns: a response, or an error, each with
    the device calls that were made; or a panic. *)
Inductive result (A : Type) :=
| Done (rsp : A) (io : list devcall)
| Failed (e : error) (io : list devcall)
| Panicked.
Arguments Done {A} rsp io.
Arguments Failed {A} e io.
Arguments Panicked {A}.

(** The look-up of the domain descriptor at the head of both loops. *)
Definition lookupDomain (t : tables) (dom : MemoryDomainRef) : error + domainDesc :=
  match Type_ dom with
  | None => inl (Status InvalidArgument "Domain.Type must be of SNES type")
  | Some SNESCoreSpecificMemory =>
      match Name dom with
      | None =>
          inl (Status InvalidArgument
                 "domain name must be non-nil when using SNESCoreSpecificMemory type")
      | Some nm =>
          match domainDescByName t !! ToUpper nm with
          | None => inl (Status InvalidArgument "invalid domain name")
          | Some dm => inr dm
          end
      end
  | Some ty =>
      match domainDescByType t !! ty with
      | None => inl (Status InvalidArgument "invalid domain type")
      | Some dm => inr dm
      end
  end.

Definition pakAddress (dm : domainDesc) (a : Z) : Mapping.AddressTuple :=
  {| Mapping.Address := u32 (start dm + a);
     Mapping.Space := Mapping.AddressSpace_FxPakPro;
     Mapping.Mapping := Mapping.MemoryMapping_Unknown |}.

(** The inner loop over the reads of one group. *)
Fixpoint checkReads (dm : domainDesc) (reads : list MemoryDomainAddressSize)
    : error + list MemoryReadRequest :=
  match reads with
  | [] => inr []
  | read :: rest =>
      if rd_Address read >=? size dm then
        inl (Status InvalidArgument "request start address exceeds domain size")
      else if u32 (rd_Address read + rd_Size read) >? size dm then
        inl (Status InvalidArgument "request end address exceeds domain size")
      else
        match checkReads dm rest with
        | inl e => inl e
        | inr mreqs =>
            inr ({| mr_RequestAddress := pakAddress dm (rd_Address read);
                    mr_Size := rd_Size read |} :: mreqs)
        end
  end.

(** The outer loop: the device requests of all groups in order, with the
    domain of each group. *)
Fixpoint collectReads (t : tables) (reqs : list GroupedDomainReadRequests)
    : result (list (MemoryDomainRef * list MemoryDomainAddressSize) * list MemoryReadRequest) :=
  match reqs with
  | [] => Done ([], []) []
  | domainReqs :: rest =>
      match rq_Domain domainReqs with
      | None => Panicked
      | Some dom =>
          match lookupDomain t dom with
          | inl e => Failed e []
          | inr dm =>
              match checkReads dm (rq_Reads domainReqs) with
              | inl e => Failed e []
              | inr mreqs =>
                  match collectReads t rest with
                  | Done (groups, more) _ =>
                      Done ((domainRef dm, rq_Reads domainReqs) :: groups, mreqs ++ more) []
                  | other => other
                  end
              end
          end
      end
  end.

(** The last loop hands the data of the [k]-th device response to the
    [k]-th address entry, counted across the groups. *)
Fixpoint fillReads (groups : list (MemoryDomainRef * list MemoryDomainAddressSize))
    (datas : list (list Z)) : list GroupedDomainReadResponses :=
  match groups with
  | [] => []
  | (dom, reads) :: rest =>
      {| rr_Domain := dom;
         rr_Reads :=
           map (fun p => {| ad_Address := rd_Address (fst p); ad_Data := snd p |})
               (zip reads (map Some (firstn (length reads) datas)
                           ++ repeat None (length reads - length datas))) |}
      :: fillReads rest (skipn (length reads) datas)
  end.

Definition MultiDomainRead (t : tables) (io : DeviceIO)
    (requests : list GroupedDomainReadRequests)
    : result (list GroupedDomainReadResponses) :=
  match collectReads t requests with
  | Panicked => Panicked
  | Failed e tr => Failed e tr
  | Done (groups, mreqs) _ =>
      match MultiReadMemory io mreqs with
      | inl e => Failed e [CallRead mreqs]
      | inr mrsp =>
          if (length mreqs <? length mrsp)%nat then Panicked
          else Done (fillReads groups mrsp) [CallRead mreqs]
      end
  end.

Fixpoint checkWrites (dm : domainDesc) (writes : list MemoryDomainAddressData)
    : error + list MemoryWriteRequest :=
  match writes with
  | [] => inr []
  | write :: rest =>
      if wr_Address write >=? size dm then
        inl (Status InvalidArgument "request start address exceeds domain size")
      else
        let sz := u32 (Z.of_nat (length (wr_Data write))) in
        if u32 (wr_Address write + sz) >? size dm then
          inl (Status InvalidArgument "request end address exceeds domain size")
        else
          match checkWrites dm rest with
          | inl e => inl e
          | inr mreqs =>
              inr ({| mw_RequestAddress := pakAddress dm (wr_Address write);
                      mw_Data := wr_Data write |} :: mreqs)
          end
  end.

Fixpoint collectWrites (t : tables) (reqs : list GroupedDomainWriteRequests)
    : result (list GroupedDomainWriteResponses * list MemoryWriteRequest) :=
  match reqs with
  | [] => Done ([], []) []
  | domainReqs :: rest =>
      match wq_Domain domainReqs with
      | None => Panicked
      | Some dom =>
          match lookupDomain t dom with
          | inl e => Failed e []
          | inr dm =>
              match checkWrites dm (wq_Writes domainReqs) with
              | inl e => Failed e []
              | inr mreqs =>
                  match collectWrites t rest with
                  | Done (groups, more) _ =>
                      Done ({| wr_Domain := domainRef dm;
                               wr_Writes :=
                                 map (fun w =>
                                        {| as_Address := wr_Address w;
                                           as_Size := u32 (Z.of_nat (length (wr_Data w))) |})
                                     (wq_Writes domainReqs) |} :: groups,
                            mreqs ++ more) []
                  | other => other
                  end
              end
          end
      end
  end.

Definition MultiDomainWrite (t : tables) (io : DeviceIO)
    (requests : list GroupedDomainWriteRequests)
    : result (list GroupedDomainWriteResponses) :=
  match collectWrites t requests with
  | Panicked => Panicked
  | Failed e tr => Failed e tr
  | Done (groups, mreqs) _ =>
      match MultiWriteMemory io mreqs with
      | Some e => Failed e [CallWrite mreqs]
      | None => Done groups [CallWrite mreqs]
      end
  end.

(** *** [listFiles] *)

(** The constants of the protocol and of [sni.proto] that [ls.go] names
    and other files define. *)
Record constants := {
  OpLS : Z;
  OpRESPONSE : Z;
  SpaceFILE : Z;
  FlagNONE : Z;
  DirEntryType_Directory : Z;
  DirEntryType_File : Z
}.

Record DirEntry := { de_Name : string; de_Type : Z }.

(** The serial port during one call: the error of [sendSerial], and what
    each [recvSerial] in turn delivers, a packet or an error.  When the
    list is used up the device stays silent and the read times out. *)
Record serial := {
  on_send : option error;
  incoming : list (error + list Z)
}.

Inductive serialcall := Send (pkt : list Z) | Recv.

(** Modelled from the spec: [fxpakCommands.FatalError] and
    [fxpakCommands.NonFatalError] are not among the sources; as in the
    emulator driver they wrap the cause with [devices.DeviceFatal] and
    [devices.DeviceNonFatal]. *)
Definition FatalError (cause : error) : error := DeviceFatal cause.
Definition NonFatalError (cause : error) : error := DeviceNonFatal cause.

(** Modelled from the spec: the device container, which is not among the
    sources, closes the device on a fatal error and on no other
    ("Fatal: ... Device becomes closed"; "Non-fatal: ... session
    survives"). *)
Definition closedAfter (wasClosed : bool) (err : option error) : bool :=
  match err with
  | Some (DeviceFatal _) => true
  | _ => wasClosed
  end.

Definition byte (v : Z) : Z := v mod 256.

Definition at_ (sb : list Z) (i : nat) : Z := nth i sb 0.

(** The request packet. *)
Definition lsRequest (K : constants) (path : string) : list Z :=
  let sb := repeat 0 512 in
  let sb := <[0%nat := 85]> sb in
  let sb := <[1%nat := 83]> sb in
  let sb := <[2%nat := 66]> sb in
  let sb := <[3%nat := 65]> sb in
  let sb := <[4%nat := byte (OpLS K)]> sb in
  let sb := <[5%nat := byte (SpaceFILE K)]> sb in
  let sb := <[6%nat := byte (FlagNONE K)]> sb in
  let p := bytes_of_string path in
  let n := Z.of_nat (Nat.min 256 (length p)) in
  let sb := firstn 256 sb ++ copy (skipn 256 sb) p in
  let sb := <[252%nat := Z.shiftr n 24 mod 256]> sb in
  let sb := <[253%nat := Z.shiftr n 16 mod 256]> sb in
  let sb := <[254%nat := Z.shiftr n 8 mod 256]> sb in
  <[255%nat := n mod 256]> sb.

(** The checks on the first response packet, in the order of the source. *)
Definition checkHeader (K : constants) (sb : list Z) : option error :=
  if negb ((at_ sb 0 =? 85) && (at_ sb 1 =? 83) && (at_ sb 2 =? 66) && (at_ sb 3 =? 65)) then
    Some (FatalError (Errorf "ls: fxpakpro response packet does not contain USBA header"))
  else if negb (be_uint32 (at_ sb 252) (at_ sb 253) (at_ sb 254) (at_ sb 255) =? 1) then
    Some (FatalError (Errorf "ls: fxpakpro response size actual, expected 1"))
  else if negb (at_ sb 4 =? byte (OpRESPONSE K)) then
    Some (FatalError (Errorf "ls: wrong opcode in response packet"))
  else if negb (at_ sb 5 =? 0) then
    Some (NonFatalError (Errorf "ls: failed to list for path"))
  else None.

(** The file name that starts at [i]: the index of its terminator. *)
Fixpoint nameEnd (fuel : nat) (sb : list Z) (i : nat) : nat :=
  match fuel with
  | O => i
  | S fuel' =>
      if ((i <? 512)%nat && negb (at_ sb i =? 0)) then nameEnd fuel' sb (S i) else i
  end.

(** How the scan of one data packet ends. *)
Inductive scanned :=
| NoMoreData (files : list DirEntry)
| NextPacket (files : list DirEntry)
| Malformed (e : error).

(** The loop [for i < 512] over one data packet; every turn moves [i]
    forward, so 512 turns are enough. *)
Fixpoint scanPacket (fuel : nat) (K : constants) (sb : list Z) (i : nat)
    (files : list DirEntry) : scanned :=
  match fuel with
  | O => Malformed (Errorf "ls: malformed packet")
  | S fuel' =>
      if (i <? 512)%nat then
        if at_ sb i =? 255 then NoMoreData files
        else if at_ sb i =? 2 then NextPacket files
        else
          let ty :=
            if at_ sb i =? 0 then DirEntryType_Directory K
            else if at_ sb i =? 1 then DirEntryType_File K
            else 0 in
          let start_ := S i in
          let j := nameEnd 512 sb start_ in
          if (512 <=? j)%nat then Malformed (Errorf "ls: invalid response packet format")
          else
            let file :=
              {| de_Name := string_of_bytes (slice sb start_ j); de_Type := ty |} in
            scanPacket fuel' K sb (S j) (files ++ [file])
      else if (i =? 512)%nat then
        if negb (at_ sb (i - 1) =? 0) then Malformed (Errorf "ls: malformed packet")
        else NextPacket files
      else NextPacket files
  end.

(** The loop [recvLoop] over the data packets. *)
Fixpoint recvLoop (K : constants) (sb : list Z) (pkts : list (error + list Z))
    (files : list DirEntry) (tr : list serialcall)
    : option (list DirEntry) * option error * list serialcall :=
  match pkts with
  | [] => (Some files, Some (FatalError (NetErr ErrTimeout)), tr ++ [Recv])
  | inl e :: _ => (Some files, Some (FatalError e), tr ++ [Recv])
  | inr pkt :: rest =>
      let sb := copy sb pkt in
      match scanPacket 513 K sb 0 files with
      | NoMoreData files' => (Some files', None, tr ++ [Recv])
      | NextPacket files' => recvLoop K sb rest files' (tr ++ [Recv])
      | Malformed e => (None, Some e, tr ++ [Recv])
      end
  end.

Definition listFiles (K : constants) (path : string) (io : serial)
    : option (list DirEntry) * option error * list serialcall :=
  let sb := lsRequest K path in
  match on_send io with
  | Some e => (None, Some (FatalError e), [Send sb])
  | None =>
      match incoming io with
      | [] => (None, Some (FatalError (NetErr ErrTimeout)), [Send sb; Recv])
      | inl e :: _ => (None, Some (FatalError e), [Send sb; Recv])
      | inr pkt :: rest =>
          let sb' := copy sb pkt in
          match checkHeader K sb' with
          | Some e => (None, Some e, [Send sb; Recv])
          | None => recvLoop K sb' rest [] [Send sb; Recv]
          end
      end
  end.

(** *** The vocabulary of the properties *)

(** A row of the response: name, size, readable, writeable. *)
Definition row (m : MemoryDomain) : option string * Z * bool * bool :=
  (Name (Domain m), Size m, Readable m, Writeable m).

(** A row of the descriptors: name, start, size. *)
Definition extent (d : domainDesc) : option string * Z * Z :=
  (Name (domainRef d), start d, size d).

(** An entry is in range when it starts inside the domain and does not
    reach beyond its end. *)
Definition inRange (dm : domainDesc) (address len : Z) : Prop :=
  address < size dm /\ address + len <= size dm.

(** A read of work RAM that starts at offset 1 and is 2^32 - 1 bytes long:
    it ends far beyond the 0x20000 bytes of the domain. *)
Definition overlong_read : list GroupedDomainReadRequests :=
  [ {| rq_Domain := Some {| Name := None; Type_ := Some SNESWorkRAM |};
       rq_Reads := [ {| rd_Address := 1; rd_Size := 0xFFFFFFFF |} ] |} ].

(** A device that answers every read with no data at all. *)
Definition silent_device : DeviceIO :=
  {| MultiReadMemory := fun reqs => inr (map (fun _ => []) reqs);
     MultiWriteMemory := fun _ => None |}.

(** The fields of the header that [listFiles] looks at. *)
Definition magicOk (sb : list Z) : Prop :=
  at_ sb 0 = 85 /\ at_ sb 1 = 83 /\ at_ sb 2 = 66 /\ at_ sb 3 = 65.

Definition sizeField (sb : list Z) : Z :=
  be_uint32 (at_ sb 252) (at_ sb 253) (at_ sb 254) (at_ sb 255).

Definition opcodeOk (K : constants) (sb : list Z) : Prop :=
  at_ sb 4 = byte (OpRESPONSE K).

(** The constants of the firmware's protocol. *)
Definition usb2snes : constants :=
  {| OpLS := 4; OpRESPONSE := 15; SpaceFILE := 0; FlagNONE := 0;
     DirEntryType_Directory := 0; DirEntryType_File := 1 |}.

(** A response whose header is right and whose error byte is 3. *)
Definition error_response : list Z :=
  [85; 83; 66; 65; 15; 3] ++ repeat 0 249 ++ [1] ++ repeat 0 256.

(** *** More vocabulary: the domain operations *)

(** The device calls that a domain operation made. *)
Definition calls {A : Type} (r : result A) : list devcall :=
  match r with
  | Done _ io | Failed _ io => io
  | Panicked => []
  end.

(** The reference of a domain by its name alone, as the core-specific
    type asks for. *)
Definition byName (nm : string) : MemoryDomainRef :=
  {| Name := Some nm; Type_ := Some SNESCoreSpecificMemory |}.

(** A read entry whose fields are [uint32] values and whose end address
    fits in 32 bits. *)
Definition plainRead (r : MemoryDomainAddressSize) : Prop :=
  0 <= rd_Address r /\ 0 <= rd_Size r /\ rd_Address r + rd_Size r < 2 ^ 32.

(** The tables hold rows of [l] only, each under its own name and type. *)
Definition tablesFrom (l : list domainDesc) (t : tables) : Prop :=
  (forall k d, domainDescByName t !! k = Some d -> In d l /\ Name (domainRef d) = Some k) /\
  (forall ty d, domainDescByType t !! ty = Some d -> In d l /\ Type_ (domainRef d) = Some ty).

(** A group with one write. *)
Definition oneWrite (dom : MemoryDomainRef) (address : Z) (data : list Z)
    : GroupedDomainWriteRequests :=
  {| wq_Domain := Some dom;
     wq_Writes := [ {| wr_Address := address; wr_Data := data |} ] |}.

(** A read of [n] bytes of work RAM at [address]. *)
Definition wram_read (address n : Z) : list GroupedDomainReadRequests :=
  [ {| rq_Domain := Some {| Name := None; Type_ := Some SNESWorkRAM |};
       rq_Reads := [ {| rd_Address := address; rd_Size := n |} ] |} ].

(** *** More vocabulary: the data packets of a listing *)

(** An entry as the firmware writes it: the type byte, 0 for a directory
    and 1 for a file, the name and a zero. *)
Definition record (K : constants) (e : DirEntry) : list Z :=
  (if de_Type e =? DirEntryType_Directory K then 0 else 1)
    :: bytes_of_string (de_Name e) ++ [0].

Definition records (K : constants) (es : list DirEntry) : list Z :=
  concat (map (record K) es).

(** A data packet: the records, then 0xFF when the listing ends here or 2
    when it goes on, filled up to 512 bytes. *)
Definition dataPacket (K : constants) (es : list DirEntry) (final : bool) : list Z :=
  let body := records K es ++ [if final then 255 else 2] in
  body ++ repeat 0 (512 - length body).

(** An entry that a record can hold: a directory or a file, with a name
    without a zero byte. *)
Definition entryOk (K : constants) (e : DirEntry) : Prop :=
  (de_Type e = DirEntryType_Directory K \/ de_Type e = DirEntryType_File K) /\
  Forall (fun b => b <> 0) (bytes_of_string (de_Name e)).

(** The entries of a packet leave room for the byte that ends it. *)
Definition fitsPacket (K : constants) (es : list DirEntry) : Prop :=
  Forall (entryOk K) es /\ (length (records K es) < 512)%nat.

(** A first response packet that reports success. *)
Definition ok_response : list Z :=
  [85; 83; 66; 65; 15; 0] ++ repeat 0 249 ++ [1] ++ repeat 0 256.

Definition sample_listing : list DirEntry :=
  [ {| de_Name := "roms"; de_Type := 0 |}; {| de_Name := "menu.bin"; de_Type := 1 |} ].

(** *** [driver.go]: [openPort] *)

Definition baudRates : list Z :=
  [ 921600; 460800; 256000; 230400; 153600; 128000; 115200;
    76800; 57600; 38400; 28800; 19200; 14400; 9600 ].

(** The serial library during one call: what [serial.Open] answers at a
    baud rate, a port or an error, and what [SetDTR] answers on a port. *)
Record ports := {
  on_Open : Z -> error + Z;
  on_SetDTR : Z -> option error
}.

Inductive portcall := Open (baud : Z) | SetDTR (f : Z) | ClosePort (f : Z).

(** How [openPort] ends: with the port, with one of its two errors around
    the cause, or in the panic of a method call on the nil interface. *)
Inductive opening :=
| Opened (f : Z)
| OpenFailed (cause : error)
| DTRFailed (cause : error)
| NilPanic.

(** The loop over [baudRates] with the variables [f] and [err].  What
    [f] holds after a failed [serial.Open] is never looked at, since
    [err] is not nil then. *)
Fixpoint tryRates (P : ports) (rates : list Z) (baudRequest : Z)
    (f : option Z) (err : option error) (tr : list portcall)
    : option Z * option error * list portcall :=
  match rates with
  | [] => (f, err, tr)
  | baud :: rest =>
      if baud >? baudRequest then tryRates P rest baudRequest f err tr
      else
        match on_Open P baud with
        | inr h => (Some h, None, tr ++ [Open baud])
        | inl e => tryRates P rest baudRequest None (Some e) (tr ++ [Open baud])
        end
  end.

Definition openPort (P : ports) (baudRequest : Z) : opening * list portcall :=
  let '(f, err, tr) := tryRates P baudRates baudRequest None None [] in
  match err with
  | Some e => (OpenFailed e, tr)
  | None =>
      match f with
      | None => (NilPanic, tr)
      | Some h =>
          match on_SetDTR P h with
          | Some e => (DTRFailed e, tr ++ [SetDTR h; ClosePort h])
          | None => (Opened h, tr ++ [SetDTR h])
          end
      end
  end.

(** A list of rates from the highest to the lowest. *)
Fixpoint descending (l : list Z) : Prop :=
  match l with
  | [] => True
  | b :: rest => Forall (fun x => x < b) rest /\ descending rest
  end.

(** A serial library that opens the port at 230400 baud and below. *)
Definition slow_ports : ports :=
  {| on_Open := fun baud => if baud >? 230400 then inl (Errorf "open failed") else inr 3;
     on_SetDTR := fun _ => None |}.

(** The device request [m] serves the read [r] of the domain [dm]: it
    asks for the bytes of [r] at its offset from the start of [dm], in
    the pak address space, and these bytes lie in [dm]. *)
Definition inDomain (dm : domainDesc) (r : MemoryDomainAddressSize) (m : MemoryReadRequest)
    : Prop :=
  m = {| mr_RequestAddress :=
           {| Mapping.Address := start dm + rd_Address r;
              Mapping.Space := Mapping.AddressSpace_FxPakPro;
              Mapping.Mapping := Mapping.MemoryMapping_Unknown |};
         mr_Size := rd_Size r |} /\
  0 <= rd_Address r /\ rd_Address r + rd_Size r <= size dm.

End FxPakPro.

(** ** Package [emunwa]: [client.go] *)

Module EmuNWA.

Import Go.

Definition FatalError (cause : error) : error := DeviceFatal cause.
Definition NonFatalError (cause : error) : error := DeviceNonFatal cause.

(** The three results of [parseResponse]; a nil slice is [None]. *)
Record reply := {
  bin : option (list Z);
  ascii : option (list (gmap string string));
  err : option error
}.

(** The connection.  [script] holds what each write in turn meets: an
    error (of [SetWriteDeadline] or of [Write]), or the bytes the emulator
    sends in answer, which join the received bytes [rx]; when it is used
    up writes succeed unanswered.  [deadlines] holds the results of the
    calls of [SetReadDeadline] in turn, [eof] is what a read beyond the
    received bytes fails with, and [tx] lists the buffers written. *)
Record world := {
  script : list (error + list Z);
  deadlines : list (option error);
  eof : error;
  rx : list Z;
  tx : list (list Z)
}.

Definition writeWithDeadline (w : world) (bytes : list Z) : world * option error :=
  match script w with
  | [] =>
      ({| script := []; deadlines := deadlines w; eof := eof w;
          rx := rx w; tx := tx w ++ [bytes] |}, None)
  | inl e :: rest =>
      ({| script := rest; deadlines := deadlines w; eof := eof w;
          rx := rx w; tx := tx w |}, Some (FatalError e))
  | inr answer :: rest =>
      ({| script := rest; deadlines := deadlines w; eof := eof w;
          rx := rx w ++ answer; tx := tx w ++ [bytes] |}, None)
  end.

(** The body of the scanning loop for one line that is not empty. *)
Definition scanLine (l : string) (st : list (gmap string string) * gmap string string)
    : list (gmap string string) * gmap string string :=
  let '(ascii, item) := st in
  let pair := SplitN2 l in
  let key := fst pair in
  let value := match snd pair with Some v => v | None => EmptyString end in
  let '(ascii, item) :=
    match item !! key with
    | Some _ => (ascii ++ [item], ∅)
    | None => (ascii, item)
    end in
  (ascii, <[key := value]> item).

(** The loop [for s.Scan()], which an empty line ends. *)
Fixpoint scanLoop (lines : list string) (st : list (gmap string string) * gmap string string)
    : list (gmap string string) * gmap string string :=
  match lines with
  | [] => st
  | l :: rest =>
      match l with
      | EmptyString => st
      | _ => scanLoop rest (scanLine l st)
      end
  end.

(** The part of [parseResponse] after the first byte of an ASCII reply. *)
Definition parseAscii (body : list Z) : list (gmap string string) :=
  let '(ascii, item) := scanLoop (Scan body) ([], ∅) in
  if (0 <? size item)%nat then ascii ++ [item] else ascii.

(** [parseResponse] on the received bytes, with the bytes it leaves.  The
    scanner of the ASCII branch reads ahead of the lines it returns, and
    what it has taken is not read again. *)
Definition parseResponse (r : list Z) (eof : error) : reply * list Z :=
  match r with
  | [] => ({| bin := None; ascii := None; err := Some (FatalError eof) |}, [])
  | d :: r1 =>
      if d =? 0 then
        match r1 with
        | b0 :: b1 :: b2 :: b3 :: r2 =>
            let size := be_uint32 b0 b1 b2 b3 in
            if size <=? Z.of_nat (length r2) then
              ({| bin := Some (firstn (Z.to_nat size) r2); ascii := None; err := None |},
               skipn (Z.to_nat size) r2)
            else
              ({| bin := Some (copy (repeat 0 (Z.to_nat size)) r2); ascii := None;
                  err := Some (FatalError eof) |}, [])
        | _ => ({| bin := None; ascii := None; err := Some (FatalError eof) |}, [])
        end
      else if negb (d =? LF) then
        ({| bin := None; ascii := None;
            err := Some (Errorf "emunwa: command reply expected starting with '\0' or '\n'") |},
         r1)
      else
        ({| bin := None; ascii := Some (parseAscii r1); err := None |}, [])
  end.

Definition readResponse (w : world) : reply * world :=
  match deadlines w with
  | Some e :: rest =>
      ({| bin := None; ascii := None; err := Some (FatalError e) |},
       {| script := script w; deadlines := rest; eof := eof w; rx := rx w; tx := tx w |})
  | _ =>
      let '(rp, unread) := parseResponse (rx w) (eof w) in
      (rp, {| script := script w; deadlines := tl (deadlines w); eof := eof w;
              rx := unread; tx := tx w |})
  end.

(** The test shared by the senders: the first item of an ASCII reply has
    an [error] key. *)
Definition errorText (a : option (list (gmap string string))) : option string :=
  match a with
  | Some (first :: _) => first !! "error"
  | _ => None
  end.

Definition newline : string := String (ascii_of_byte LF) EmptyString.

Definition SendCommandWaitReply (w : world) (cmd : string) : reply * world :=
  let '(w1, werr) := writeWithDeadline w (bytes_of_string (cmd +:+ newline)) in
  match werr with
  | Some e => ({| bin := None; ascii := None; err := Some (FatalError e) |}, w1)
  | None =>
      let '(rp, w2) := readResponse w1 in
      match err rp with
      | Some _ => (rp, w2)
      | None =>
          match errorText (ascii rp) with
          | Some errText =>
              ({| bin := bin rp; ascii := ascii rp;
                  err := Some (Errorf ("emunwa: error=" +:+ errText)) |}, w2)
          | None => (rp, w2)
          end
      end
  end.

Definition getFirstValue (rp : option (list (gmap string string))) (name : string) : string :=
  match rp with
  | Some (first :: _) => default EmptyString (first !! name)
  | _ => EmptyString
  end.

(** [sni.Field]; [Field_Other] stands for the fields this driver does not
    serve. *)
Inductive Field :=
| Field_DeviceName
| Field_DeviceVersion
| Field_DeviceStatus
| Field_CoreName
| Field_CoreVersion
| Field_CorePlatform
| Field_RomFileName
| Field_Other (n : Z).

Record wants := {
  wantGameInfo : bool;
  wantCoreInfo : bool;
  wantEmulatorInfo : bool;
  wantEmulationStatus : bool
}.

(** The first [switch]: a [case] with an empty body does nothing, there
    is no fall-through into the next one. *)
Definition want (ws : wants) (field : Field) : wants :=
  match field with
  | Field_DeviceName => ws
  | Field_DeviceVersion =>
      {| wantGameInfo := wantGameInfo ws; wantCoreInfo := wantCoreInfo ws;
         wantEmulatorInfo := true; wantEmulationStatus := wantEmulationStatus ws |}
  | Field_DeviceStatus =>
      {| wantGameInfo := wantGameInfo ws; wantCoreInfo := wantCoreInfo ws;
         wantEmulatorInfo := wantEmulatorInfo ws; wantEmulationStatus := true |}
  | Field_CoreName => ws
  | Field_CoreVersion => ws
  | Field_CorePlatform =>
      {| wantGameInfo := wantGameInfo ws; wantCoreInfo := true;
         wantEmulatorInfo := wantEmulatorInfo ws;
         wantEmulationStatus := wantEmulationStatus ws |}
  | Field_RomFileName =>
      {| wantGameInfo := true; wantCoreInfo := wantCoreInfo ws;
         wantEmulatorInfo := wantEmulatorInfo ws;
         wantEmulationStatus := wantEmulationStatus ws |}
  | Field_Other _ => ws
  end.

Record infos := {
  gameInfo : option (list (gmap string string));
  coreInfo : option (list (gmap string string));
  emulatorInfo : option (list (gmap string string));
  emulationStatus : option (list (gmap string string))
}.

(** The second [switch]. *)
Definition project (i : infos) (field : Field) : string :=
  match field with
  | Field_DeviceName => getFirstValue (emulatorInfo i) "name"
  | Field_DeviceVersion => getFirstValue (emulatorInfo i) "version"
  | Field_DeviceStatus => getFirstValue (emulationStatus i) "state"
  | Field_CoreName => getFirstValue (coreInfo i) "name"
  | Field_CoreVersion => getFirstValue (coreInfo i) "version"
  | Field_CorePlatform => getFirstValue (coreInfo i) "platform"
  | Field_RomFileName => getFirstValue (gameInfo i) "file"
  | Field_Other _ => EmptyString
  end.

(** One of the four conditional requests. *)
Definition request (wanted : bool) (cmd : string) (w : world)
    : option (list (gmap string string)) * option error * world :=
  if wanted then
    let '(rp, w') := SendCommandWaitReply w cmd in (ascii rp, err rp, w')
  else (None, None, w).

Definition FetchFields (w : world) (fields : list Field)
    : option (list string) * option error * world :=
  let ws :=
    fold_left want fields
      {| wantGameInfo := false; wantCoreInfo := false;
         wantEmulatorInfo := false; wantEmulationStatus := false |} in
  let '(gi, e, w) := request (wantGameInfo ws) "GAME_INFO" w in
  match e with
  | Some e => (None, Some e, w)
  | None =>
  let '(ci, e, w) := request (wantCoreInfo ws) "CORE_CURRENT_INFO" w in
  match e with
  | Some e => (None, Some e, w)
  | None =>
  let '(ei, e, w) := request (wantEmulatorInfo ws) "EMULATOR_INFO" w in
  match e with
  | Some e => (None, Some e, w)
  | None =>
  let '(es, e, w) := request (wantEmulationStatus ws) "EMULATION_STATUS" w in
  match e with
  | Some e => (None, Some e, w)
  | None =>
      let i := {| gameInfo := gi; coreInfo := ci; emulatorInfo := ei;
                  emulationStatus := es |} in
      (match fields with
       | [] => None
       | _ => Some (map (project i) fields)
       end, None, w)
  end end end end.

(** *** The domain mapping *)

Definition clean (s : string) : string := TrimSpace s.
Definition cleanLower (s : string) : string := ToLower (clean s).

(** The configuration, loaded by package [config] and [platforms]; a
    compiled regular expression is the predicate its [Match] decides. *)
Record CoreMatches := {
  CoreNameRegex : string -> bool;
  CoreVersionRegex : option (string -> bool);
  CorePlatformRegex : option (string -> bool)
}.

Record CoreDefine := {
  Platform : string;
  CoreToSNIMapping : gmap string string;
  SNIToCoreMapping : gmap string string
}.

Record CoreConfig := {
  core_Name : string;
  Matches : CoreMatches;
  Define : CoreDefine
}.

Record DomainConf := { conf_Name : string; conf_Size : Z }.

Record PlatformConf := {
  plat_Domains : list DomainConf;
  DomainsByName : gmap string DomainConf
}.

Record Config := {
  currentPlatConfig : option (gmap string PlatformConf);
  coresConfig : list CoreConfig
}.

(** [platforms.Domain], with the two fields of its embedded [DomainConf]. *)
Record Domain := {
  Name : string;
  Size : Z;
  IsExposed : bool;
  IsCoreSpecific : bool;
  IsReadable : bool;
  IsWriteable : bool
}.

(** The cache of the client; a nil pointer or slice is [None]. *)
Record Client := {
  currentCore : option CoreConfig;
  currentPlatform : option PlatformConf;
  currentDomains : option (list Domain)
}.

Definition coreMatches (cc : CoreConfig) (coreName coreVersion corePlatform : string) : bool :=
  if negb (CoreNameRegex (Matches cc) coreName) then false
  else if match CoreVersionRegex (Matches cc) with
          | Some re => negb (re coreVersion)
          | None => false
          end then false
  else if match CorePlatformRegex (Matches cc) with
          | Some re => negb (re corePlatform)
          | None => false
          end then false
  else true.

Fixpoint findCore (cores : list CoreConfig) (coreName coreVersion corePlatform : string)
    : option CoreConfig :=
  match cores with
  | [] => None
  | cc :: rest =>
      if coreMatches cc coreName coreVersion corePlatform then Some cc
      else findCore rest coreName coreVersion corePlatform
  end.

(** The domains under construction: the slice [currentDomains] holds the
    domains, and [currentDomainsMap] leads from a name to the place in
    the slice of the domain it shares with it. *)
Record building := {
  b_domains : list Domain;
  b_map : gmap string nat
}.

Definition platformStep (b : building) (d : DomainConf) : building :=
  {| b_domains := b_domains b ++ [
       {| Name := conf_Name d; Size := conf_Size d; IsExposed := false;
          IsCoreSpecific := false; IsReadable := false; IsWriteable := false |} ];
     b_map := <[cleanLower (conf_Name d) := length (b_domains b)]> (b_map b) |}.

Definition expose (coreMemSizeN : Z) (coreMemAccess : string) (pd : Domain) : Domain :=
  {| Name := Name pd; Size := coreMemSizeN; IsExposed := true;
     IsCoreSpecific := IsCoreSpecific pd;
     IsReadable :=
       if String.eqb coreMemAccess "rw" then true
       else if String.eqb coreMemAccess "r" then true
       else IsReadable pd;
     IsWriteable :=
       if String.eqb coreMemAccess "rw" then true
       else if String.eqb coreMemAccess "r" then IsWriteable pd
       else if String.eqb coreMemAccess "w" then true
       else IsWriteable pd |}.

Definition memoryStep (core : CoreConfig) (plat : PlatformConf)
    (m : gmap string string) (b : building) : error + building :=
  let coreMemName := cleanLower (default EmptyString (m !! "name")) in
  let coreMemSize := cleanLower (default EmptyString (m !! "size")) in
  let coreMemAccess := cleanLower (default EmptyString (m !! "access")) in
  match ParseUint coreMemSize with
  | None =>
      inl (FatalError (Errorf "could not parse integer size from nwa CORE_MEMORIES response"))
  | Some coreMemSizeN =>
      match CoreToSNIMapping (Define core) !! coreMemName with
      | None =>
          inl (FatalError (Errorf "could not map core memory name to SNI memory name"))
      | Some sniMemName =>
          let sniMemName :=
            match DomainsByName plat !! cleanLower sniMemName with
            | Some domainConf => conf_Name domainConf
            | None => sniMemName
            end in
          let sniMemNameLower := cleanLower sniMemName in
          let '(b, pd) :=
            match b_map b !! sniMemNameLower with
            | Some i => (b, i)
            | None =>
                ({| b_domains := b_domains b ++ [
                      {| Name := sniMemName; Size := coreMemSizeN; IsExposed := true;
                         IsCoreSpecific := true; IsReadable := false;
                         IsWriteable := false |} ];
                    b_map := <[sniMemNameLower := length (b_domains b)]> (b_map b) |},
                 length (b_domains b))
            end in
          inr {| b_domains := alter (expose coreMemSizeN coreMemAccess) pd (b_domains b);
                 b_map := b_map b |}
      end
  end.

Fixpoint memoryLoop (core : CoreConfig) (plat : PlatformConf)
    (memories : list (gmap string string)) (b : building) : error + building :=
  match memories with
  | [] => inr b
  | m :: rest =>
      match memoryStep core plat m b with
      | inl e => inl e
      | inr b' => memoryLoop core plat rest b'
      end
  end.

Definition determineDomainMapping (cfg : Config) (c : Client) (w : world)
    : Client * option error * world :=
  match currentDomains c with
  | Some _ => (c, None, w)
  | None =>
  match currentPlatConfig cfg with
  | None => (c, Some (FatalError (Errorf "missing required platforms configuration")), w)
  | Some platConfig =>
  let '(fields, e, w) :=
    FetchFields w [Field_CoreName; Field_CoreVersion; Field_CorePlatform] in
  match e with
  | Some e => (c, Some e, w)
  | None =>
  let fields := default [] fields in
  let coreName := clean (nth 0 fields EmptyString) in
  let coreVersion := clean (nth 1 fields EmptyString) in
  let corePlatform := clean (nth 2 fields EmptyString) in
  match findCore (coresConfig cfg) coreName coreVersion corePlatform with
  | None => (c, Some (FatalError (Errorf "could not find a match in platforms config")), w)
  | Some core =>
  match platConfig !! Platform (Define core) with
  | None => (c, Some (FatalError (Errorf "could not find platform in platforms config")), w)
  | Some plat =>
  let '(rp, w) := SendCommandWaitReply w "CORE_MEMORIES" in
  match err rp with
  | Some e => (c, Some e, w)
  | None =>
  let b := fold_left platformStep (plat_Domains plat) {| b_domains := []; b_map := ∅ |} in
  match memoryLoop core plat (default [] (ascii rp)) b with
  | inl e => (c, Some e, w)
  | inr b =>
      ({| currentCore := Some core; currentPlatform := Some plat;
          currentDomains := Some (b_domains b) |}, None, w)
  end end end end end end end.

(** [sni.MemoryDomain] and [sni.MemoryDomainsResponse]. *)
Record MemoryDomain := {
  md_Name : string;
  md_IsExposed : bool;
  md_IsCoreSpecific : bool;
  md_Size : Z;
  md_IsReadable : bool;
  md_IsWriteable : bool
}.

Record MemoryDomainsResponse := {
  Uri : string;
  CoreName : string;
  Domains : list MemoryDomain
}.

Definition toMemoryDomain (d : Domain) : MemoryDomain :=
  {| md_Name := Name d; md_IsExposed := IsExposed d;
     md_IsCoreSpecific := IsCoreSpecific d; md_Size := Size d;
     md_IsReadable := IsReadable d; md_IsWriteable := IsWriteable d |}.

(** The assignment at the head of [MemoryDomains]:
    [c.currentDomains, c.currentPlatform, c.currentDomains = nil, nil, nil]. *)
Definition resetCache (c : Client) : Client :=
  {| currentCore := currentCore c; currentPlatform := None; currentDomains := None |}.

(** [MemoryDomains]; reading the name of a nil [currentCore] panics, which
    is the result [None]. *)
Definition MemoryDomains (cfg : Config) (c : Client) (w : world) (uri : string)
    : option (Client * option MemoryDomainsResponse * option error * world) :=
  let '(c, e, w) := determineDomainMapping cfg (resetCache c) w in
  match e with
  | Some e => Some (c, None, Some e, w)
  | None =>
      match currentCore c with
      | None => None
      | Some core =>
          Some (c,
                Some {| Uri := uri; CoreName := core_Name core;
                        Domains := map toMemoryDomain (default [] (currentDomains c)) |},
                None, w)
      end
  end.

(** *** [MultiReadMemory] *)

Record MemoryReadRequest := {
  RequestAddress : Mapping.AddressTuple;
  rq_Size : Z
}.

Record MemoryReadResponse := {
  rs_RequestAddress : Mapping.AddressTuple;
  rs_DeviceAddress : Mapping.AddressTuple;
  rs_Data : list Z
}.

(** [memRegion].  [Data] shares the buffer of one response: it is the
    index of that response, and the buffers are kept in a list beside. *)
Record memRegion := {
  MemoryType : string;
  Offset : Z;
  rg_Size : Z;
  Data : nat
}.

(** The state of the first loop: the responses, their buffers, the memory
    types in the order they were first met, and the groups. *)
Record divided := {
  mrsp : list MemoryReadResponse;
  bufs : list (list Z);
  memTypes : list string;
  readGroups : gmap string (list memRegion)
}.

(** The first loop.  [MemoryTypeFor] is [mapping.MemoryTypeFor], which is
    not among the sources: it names the memory type, the pak address and
    the offset of an address. *)
Fixpoint divide (MemoryTypeFor : Mapping.AddressTuple -> string * Z * Z)
    (reads : list MemoryReadRequest) (st : divided) : option divided :=
  match reads with
  | [] => Some st
  | read :: rest =>
      let '(memType, pakAddress, offset) := MemoryTypeFor (RequestAddress read) in
      match make (rq_Size read) with
      | None => None
      | Some data =>
          let j := length (mrsp st) in
          let rsp :=
            {| rs_RequestAddress := RequestAddress read;
               rs_DeviceAddress :=
                 {| Mapping.Address := pakAddress;
                    Mapping.Space := Mapping.AddressSpace_FxPakPro;
                    Mapping.Mapping := Mapping.Mapping (RequestAddress read) |};
               rs_Data := data |} in
          let region :=
            {| MemoryType := memType; Offset := offset; rg_Size := rq_Size read;
               Data := j |} in
          divide MemoryTypeFor rest
            {| mrsp := mrsp st ++ [rsp];
               bufs := bufs st ++ [data];
               memTypes :=
                 match readGroups st !! memType with
                 | Some _ => memTypes st
                 | None => memTypes st ++ [memType]
                 end;
               readGroups :=
                 <[memType := default [] (readGroups st !! memType) ++ [region]]>
                   (readGroups st) |}
      end
  end.

Fixpoint regionArgs (regions : list memRegion) : string :=
  match regions with
  | [] => EmptyString
  | region :: rest =>
      ";$" +:+ hex (Offset region) +:+ ";$" +:+ hex (rg_Size region) +:+ regionArgs rest
  end.

Definition coreRead (memType : string) (regions : list memRegion) : list Z :=
  bytes_of_string ("CORE_READ " +:+ memType +:+ regionArgs regions +:+ newline).

(** The second loop: one command for each memory type. *)
Fixpoint writeCommands (groups : gmap string (list memRegion)) (types : list string)
    (w : world) : world * option error :=
  match types with
  | [] => (w, None)
  | memType :: rest =>
      let regions := default [] (groups !! memType) in
      match writeWithDeadline w (coreRead memType regions) with
      | (w', Some e) => (w', Some e)
      | (w', None) => writeCommands groups rest w'
      end
  end.

(** The innermost loop: the regions of one group take their share of the
    reply.  [None] is the panic of a slice expression out of range. *)
Fixpoint copyRegions (bin : list Z) (offset : Z) (regions : list memRegion)
    (bufs : list (list Z)) : option (list (list Z)) :=
  match regions with
  | [] => Some bufs
  | region :: rest =>
      let len := Z.of_nat (length bin) in
      let sz := len - offset in
      let next := int64 (offset + rg_Size region) in
      if offset >=? len then copyRegions bin next rest bufs
      else
        let hi := if rg_Size region >? sz then offset + sz else offset + rg_Size region in
        if (offset <? 0) || (hi <? offset) then None
        else
          let src := slice bin (Z.to_nat offset) (Z.to_nat hi) in
          copyRegions bin next rest (alter (fun dst => copy dst src) (Data region) bufs)
  end.

(** What [MultiReadMemory] returns, or a panic. *)
Inductive outcome :=
| Returned (rsp : list MemoryReadResponse) (e : option error) (w : world)
| Panic.

Definition withData (rsp : MemoryReadResponse) (data : list Z) : MemoryReadResponse :=
  {| rs_RequestAddress := rs_RequestAddress rsp;
     rs_DeviceAddress := rs_DeviceAddress rsp;
     rs_Data := data |}.

(** The third loop: one reply for each memory type. *)
Fixpoint readBack (st : divided) (types : list string) (bufs : list (list Z)) (w : world)
    : outcome :=
  match types with
  | [] => Returned (zip_with withData (mrsp st) bufs) None w
  | memType :: rest =>
      let '(rp, w') := readResponse w in
      match err rp with
      | Some e => Returned (zip_with withData (mrsp st) bufs) (Some e) w'
      | None =>
          match ascii rp with
          | Some _ =>
              Returned (zip_with withData (mrsp st) bufs)
                (Some (Errorf "emunwa: expecting binary reply but got ascii")) w'
          | None =>
              match copyRegions (default [] (bin rp)) 0
                      (default [] (readGroups st !! memType)) bufs with
              | None => Panic
              | Some bufs' => readBack st rest bufs' w'
              end
          end
      end
  end.

Definition MultiReadMemory (MemoryTypeFor : Mapping.AddressTuple -> string * Z * Z)
    (w : world) (reads : list MemoryReadRequest) : outcome :=
  match divide MemoryTypeFor reads
          {| mrsp := []; bufs := []; memTypes := []; readGroups := ∅ |} with
  | None => Panic
  | Some st =>
      match writeCommands (readGroups st) (memTypes st) w with
      | (w', Some e) => Returned (mrsp st) (Some e) w'
      | (w', None) => readBack st (memTypes st) (bufs st) w'
      end
  end.

(** *** The vocabulary of the properties *)

(** The key and the value that [parseResponse] takes from a line. *)
Definition keyOf (l : string) : string := fst (SplitN2 l).

Definition valueOf (l : string) : string :=
  match snd (SplitN2 l) with Some v => v | None => EmptyString end.

Fixpoint hasColon (s : string) : bool :=
  match s with
  | EmptyString => false
  | String a s' => Ascii.eqb a ":"%char || hasColon s'
  end.

(** The reply body of the specification, [id:1\nname:foo\n\nid:2\nname:bar\n\n],
    and the same lines without the empty line between the two items. *)
Definition literal_body : list Z :=
  bytes_of_string
    ("id:1" +:+ newline +:+ "name:foo" +:+ newline +:+ newline +:+
     "id:2" +:+ newline +:+ "name:bar" +:+ newline +:+ newline).

Definition two_items_body : list Z :=
  bytes_of_string
    ("id:1" +:+ newline +:+ "name:foo" +:+ newline +:+
     "id:2" +:+ newline +:+ "name:bar" +:+ newline +:+ newline).

Definition foo_item : gmap string string := {[ "id" := "1"; "name" := "foo" ]}.
Definition bar_item : gmap string string := {[ "id" := "2"; "name" := "bar" ]}.

(** The flags after the first loop of [FetchFields]. *)
Definition wanted (fields : list Field) : wants :=
  fold_left want fields
    {| wantGameInfo := false; wantCoreInfo := false;
       wantEmulatorInfo := false; wantEmulationStatus := false |}.

(** The command that serves a field, as the comments of [FetchFields]
    list them. *)
Definition servedBy (f : Field) : option string :=
  match f with
  | Field_RomFileName => Some "GAME_INFO"
  | Field_CoreName | Field_CoreVersion | Field_CorePlatform => Some "CORE_CURRENT_INFO"
  | Field_DeviceName | Field_DeviceVersion => Some "EMULATOR_INFO"
  | Field_DeviceStatus => Some "EMULATION_STATUS"
  | Field_Other _ => None
  end.

(** A core configuration that was cached by an earlier discovery. *)
Definition cached_core : CoreConfig :=
  {| core_Name := "bsnes";
     Matches := {| CoreNameRegex := fun _ => true; CoreVersionRegex := None;
                   CorePlatformRegex := None |};
     Define := {| Platform := "snes"; CoreToSNIMapping := ∅; SNIToCoreMapping := ∅ |} |}.

Definition cached_client : Client :=
  {| currentCore := Some cached_core;
     currentPlatform := Some {| plat_Domains := []; DomainsByName := ∅ |};
     currentDomains := Some [] |}.

(** A configuration with that core, and a connection on which the first
    write times out. *)
Definition sample_config : Config :=
  {| currentPlatConfig := Some ∅; coresConfig := [cached_core] |}.

Definition broken_world : world :=
  {| script := [inl (NetErr ErrTimeout)]; deadlines := []; eof := NetErr ErrEOF;
     rx := []; tx := [] |}.

(** The vocabulary of [MultiReadMemory]. *)
(** The memory type of a request. *)
Definition typeOf (MemoryTypeFor : Mapping.AddressTuple -> string * Z * Z)
    (read : MemoryReadRequest) : string :=
  (MemoryTypeFor (RequestAddress read)).1.1.

(** The memory types of a list in the order of their first appearance. *)
Definition firstSeen (types : list string) : list string :=
  fold_left (fun seen t => if decide (t ∈ seen) then seen else seen ++ [t]) types [].

(** The bytes requested before read [j] from the memory type [t]. *)
Definition preceding (MemoryTypeFor : Mapping.AddressTuple -> string * Z * Z)
    (reads : list MemoryReadRequest) (j : nat) (t : string) : Z :=
  foldr (fun read n => rq_Size read + n) 0
    (filter (fun read => typeOf MemoryTypeFor read = t) (firstn j reads)).

(** The [size] bytes of a reply from [offset] on, with zeros for the
    bytes the reply does not have. *)
Definition share (bin : list Z) (offset size : nat) : list Z :=
  firstn size (skipn offset bin)
  ++ repeat 0 (size - length (firstn size (skipn offset bin))).

(** A binary reply on the wire: a zero byte, the length of the payload as
    a big-endian [uint32], and the payload. *)
Definition isFrame (frame payload : list Z) : Prop :=
  exists b0 b1 b2 b3,
    frame = 0 :: b0 :: b1 :: b2 :: b3 :: payload /\
    be_uint32 b0 b1 b2 b3 = Z.of_nat (length payload).

(** The reply to the command for the memory type [t], when the replies
    [bins] come in the order of the memory types [types]. *)
Fixpoint replyFor (types : list string) (bins : list (list Z)) (t : string) : list Z :=
  match types, bins with
  | ty :: types', b :: bins' => if decide (ty = t) then b else replyFor types' bins' t
  | _, _ => []
  end.

(** The regions of a list, and the sum of their sizes. *)
Definition sumSizes (regions : list memRegion) : Z :=
  foldr (fun region n => rg_Size region + n) 0 regions.

Definition nonNegative (regions : list memRegion) : Prop :=
  Forall (fun region => 0 <= rg_Size region) regions.

(** The response and the region that the loop makes of read [j]. *)
Definition responseOf (f : Mapping.AddressTuple -> string * Z * Z)
    (read : MemoryReadRequest) : MemoryReadResponse :=
  {| rs_RequestAddress := RequestAddress read;
     rs_DeviceAddress :=
       {| Mapping.Address := (f (RequestAddress read)).1.2;
          Mapping.Space := Mapping.AddressSpace_FxPakPro;
          Mapping.Mapping := Mapping.Mapping (RequestAddress read) |};
     rs_Data := repeat 0 (Z.to_nat (rq_Size read)) |}.

Definition regionOf (f : Mapping.AddressTuple -> string * Z * Z) (j : nat)
    (read : MemoryReadRequest) : memRegion :=
  {| MemoryType := typeOf f read; Offset := (f (RequestAddress read)).2;
     rg_Size := rq_Size read; Data := j |}.

Definition zerosOf (read : MemoryReadRequest) : list Z :=
  repeat 0 (Z.to_nat (rq_Size read)).

(** The regions of the memory type [t], in the order of the reads. *)
Definition groupOf (f : Mapping.AddressTuple -> string * Z * Z) (t : string)
    (reads : list MemoryReadRequest) : list memRegion :=
  filter (fun rg => MemoryType rg = t) (imap (regionOf f) reads).

Definition sizesOk (reads : list MemoryReadRequest) : Prop :=
  Forall (fun read => 0 <= rq_Size read) reads.

(** One turn of the loop on a read whose size is not negative. *)
Definition divideStep (f : Mapping.AddressTuple -> string * Z * Z) (st : divided)
    (read : MemoryReadRequest) : divided :=
  {| mrsp := mrsp st ++ [responseOf f read];
     bufs := bufs st ++ [zerosOf read];
     memTypes :=
       match readGroups st !! typeOf f read with
       | Some _ => memTypes st
       | None => memTypes st ++ [typeOf f read]
       end;
     readGroups :=
       <[typeOf f read :=
           default [] (readGroups st !! typeOf f read)
           ++ [regionOf f (length (mrsp st)) read]]> (readGroups st) |}.

(** The state in which the loop ends. *)
Definition afterDivide (f : Mapping.AddressTuple -> string * Z * Z)
    (reads : list MemoryReadRequest) : divided :=
  fold_left (divideStep f) reads
    {| mrsp := []; bufs := []; memTypes := []; readGroups := ∅ |}.

Definition totalSize (reads : list MemoryReadRequest) : Z :=
  foldr (fun read n => rq_Size read + n) 0 reads.

(** The regions of a memory type in a state. *)
Definition regionsIn (st : divided) (t : string) : list memRegion :=
  default [] (readGroups st !! t).

(** Two reads of work RAM and one of save RAM, and an emulator that
    answers the first command with three bytes where six were asked for. *)
Definition sample_type (a : Mapping.AddressTuple) : string * Z * Z :=
  if Mapping.Address a <? 0xF50000
  then ("SRAM", Mapping.Address a, Mapping.Address a - 0xE00000)
  else ("WRAM", Mapping.Address a, Mapping.Address a - 0xF50000).

Definition sample_read (address size : Z) : MemoryReadRequest :=
  {| RequestAddress :=
       {| Mapping.Address := address; Mapping.Space := Mapping.AddressSpace_FxPakPro;
          Mapping.Mapping := Mapping.MemoryMapping_LoROM |};
     rq_Size := size |}.

Definition sample_reads : list MemoryReadRequest :=
  [ sample_read 0xF50010 2; sample_read 0xE00000 1; sample_read 0xF50020 4 ].

Definition sample_frames : list (list Z) :=
  [ [0; 0; 0; 0; 3; 17; 34; 51]; [0; 0; 0; 0; 1; 68] ].

Definition sample_world : world :=
  {| script := inr <$> sample_frames; deadlines := []; eof := NetErr ErrEOF;
     rx := []; tx := [] |}.

(** *** [SendCommandBinaryWaitReply] and the address spaces *)

(** What follows the command line of a binary command: a zero byte, the
    length of the argument and the argument. *)
Definition binaryBlock (binaryArg : list Z) : list Z :=
  0 :: putUint32 (u32 (Z.of_nat (length binaryArg))) ++ binaryArg.

Definition binaryCommand (cmd : string) (binaryArg : list Z) : list Z :=
  98 :: bytes_of_string (cmd +:+ newline) ++ binaryBlock binaryArg.

(** Unlike [SendCommandWaitReply] it goes on to look at the reply after a
    failed read. *)
Definition SendCommandBinaryWaitReply (w : world) (cmd : string) (binaryArg : list Z)
    : reply * world :=
  let '(w1, werr) := writeWithDeadline w (binaryCommand cmd binaryArg) in
  match werr with
  | Some e => ({| bin := None; ascii := None; err := Some (FatalError e) |}, w1)
  | None =>
      let '(rp, w2) := readResponse w1 in
      match errorText (ascii rp) with
      | Some errText =>
          ({| bin := bin rp; ascii := ascii rp;
              err := Some (Errorf ("emunwa: error=" +:+ errText)) |}, w2)
      | None => (rp, w2)
      end
  end.

(** A value of [sni.AddressSpace]: one of the three that the drivers
    name, or any other number. *)
Inductive spaceValue :=
| Declared (s : Mapping.AddressSpace)
| Undeclared (n : Z).

(** [devices.AddressTuple] with any value as its address space. *)
Record AddressTuple := {
  at_Address : Z;
  at_Space : spaceValue;
  at_Mapping : Mapping.MemoryMapping
}.

Definition RequiresMemoryMappingForAddressSpace (addressSpace : spaceValue)
    : bool * option error :=
  match addressSpace with
  | Declared Mapping.AddressSpace_Raw => (false, None)
  | Declared Mapping.AddressSpace_FxPakPro => (false, None)
  | _ => (true, None)
  end.

Definition RequiresMemoryMappingForAddress (address : AddressTuple)
    : bool * option error :=
  match at_Space address with
  | Declared Mapping.AddressSpace_Raw => (false, None)
  | Declared Mapping.AddressSpace_FxPakPro => (false, None)
  | _ => (true, None)
  end.

(** *** More vocabulary *)

(** The lines of a reply up to its first empty line. *)
Fixpoint untilEmpty (lines : list string) : list string :=
  match lines with
  | [] => []
  | l :: rest =>
      match l with
      | EmptyString => []
      | _ => l :: untilEmpty rest
      end
  end.

(** The number of pairs in a list of items. *)
Definition pairs (items : list (gmap string string)) : nat :=
  sum_list_with size items.

(** The bytes of a command line. *)
Definition commandLine (cmd : string) : list Z := bytes_of_string (cmd +:+ newline).

(** The four commands of [FetchFields], in the order it sends them. *)
Definition infoCommands : list string :=
  ["GAME_INFO"; "CORE_CURRENT_INFO"; "EMULATOR_INFO"; "EMULATION_STATUS"].

(** The address of a tuple in a declared address space, with a memory
    mapping. *)
Definition mapped (a : AddressTuple) (s : Mapping.AddressSpace) (m : Mapping.MemoryMapping)
    : Mapping.AddressTuple :=
  {| Mapping.Address := at_Address a; Mapping.Space := s; Mapping.Mapping := m |}.

(** A domain as the first loop of the discovery enters it. *)
Definition unexposed (d : DomainConf) : Domain :=
  {| Name := conf_Name d; Size := conf_Size d; IsExposed := false;
     IsCoreSpecific := false; IsReadable := false; IsWriteable := false |}.

(** What a core-specific domain is always, and what a domain that is not
    exposed never is. *)
Definition settled (d : Domain) : Prop :=
  (IsCoreSpecific d = true -> IsExposed d = true) /\
  (IsExposed d = false -> IsReadable d = false /\ IsWriteable d = false).

(** A platform with two domains, a core that has one of them and one of
    its own, and an emulator that answers the two commands of the
    discovery. *)
Definition snes_platform : PlatformConf :=
  {| plat_Domains := [ {| conf_Name := "WRAM"; conf_Size := 0x20000 |};
                       {| conf_Name := "SRAM"; conf_Size := 0 |} ];
     DomainsByName := {[ "wram" := {| conf_Name := "WRAM"; conf_Size := 0x20000 |};
                         "sram" := {| conf_Name := "SRAM"; conf_Size := 0 |} ]} |}.

Definition bsnes_core : CoreConfig :=
  {| core_Name := "bsnes";
     Matches := {| CoreNameRegex := fun _ => true; CoreVersionRegex := None;
                   CorePlatformRegex := None |};
     Define := {| Platform := "snes";
                  CoreToSNIMapping := {[ "wram" := "wram"; "cpubus" := "CPUBUS" ]};
                  SNIToCoreMapping := {[ "wram" := "WRAM"; "cpubus" := "CPUBUS" ]} |} |}.

Definition bsnes_config : Config :=
  {| currentPlatConfig := Some {[ "snes" := snes_platform ]};
     coresConfig := [bsnes_core] |}.

Definition bsnes_world : world :=
  {| script :=
       [ inr (bytes_of_string
                (newline +:+ "name:bsnes" +:+ newline +:+ "version:115" +:+ newline +:+
                 "platform:SNES" +:+ newline +:+ newline));
         inr (bytes_of_string
                (newline +:+ "name:WRAM" +:+ newline +:+ "size:131072" +:+ newline +:+
                 "access:rw" +:+ newline +:+
                 "name:CPUBUS" +:+ newline +:+ "size:16777216" +:+ newline +:+
                 "access:r" +:+ newline +:+ newline)) ];
     deadlines := []; eof := NetErr ErrEOF; rx := []; tx := [] |}.

Definition fresh_client : Client :=
  {| currentCore := None; currentPlatform := None; currentDomains := None |}.

(** *** [MultiDomainRead] *)

(** [uint64] arithmetic wraps modulo 2^64. *)
Definition u64 (x : Z) : Z := x mod 2 ^ 64.

(** The messages of [sni.proto] that this driver reads domains with;
    offsets and sizes are [uint64]. *)
Record MemoryDomainOffsetSize := { os_Offset : Z; os_Size : Z }.

Record GroupedDomainReadRequests := {
  gq_Name : string;
  gq_Reads : list MemoryDomainOffsetSize
}.

Record MemoryDomainOffsetData := { od_Offset : Z; od_Data : list Z }.

Record GroupedDomainReadResponses := {
  gr_Name : string;
  gr_Reads : list MemoryDomainOffsetData
}.

Record MultiDomainReadResponse := {
  mdr_Uri : string;
  mdr_Responses : list GroupedDomainReadResponses
}.

(** The buffers of one request, [make([]byte, read.Size)] for each read;
    a length beyond the range of [int] panics. *)
Fixpoint makeReads (reads : list MemoryDomainOffsetSize)
    : option (list MemoryDomainOffsetData) :=
  match reads with
  | [] => Some []
  | read :: rest =>
      if 2 ^ 63 <=? os_Size read then None
      else
        match makeReads rest with
        | None => None
        | Some datas =>
            Some ({| od_Offset := os_Offset read;
                     od_Data := repeat 0 (Z.to_nat (os_Size read)) |} :: datas)
        end
  end.

Fixpoint offsetArgs (reads : list MemoryDomainOffsetSize) : string :=
  match reads with
  | [] => EmptyString
  | read :: rest =>
      ";$" +:+ hex (os_Offset read) +:+ ";$" +:+ hex (os_Size read) +:+ offsetArgs rest
  end.

Definition domainRead (memName : string) (reads : list MemoryDomainOffsetSize) : list Z :=
  bytes_of_string ("CORE_READ " +:+ memName +:+ offsetArgs reads +:+ newline).

(** The first loop: a command for each request in turn.  The core is
    looked at when there is a request, and a nil core panics then; the
    result [None] is a panic.  The responses built so far are dropped when
    the loop ends in an error. *)
Fixpoint sendDomainReads (core : option CoreConfig) (reqs : list GroupedDomainReadRequests)
    (w : world) : option (list GroupedDomainReadResponses * option error * world) :=
  match reqs with
  | [] => Some ([], None, w)
  | req :: rest =>
      match core with
      | None => None
      | Some cc =>
          match SNIToCoreMapping (Define cc) !! cleanLower (gq_Name req) with
          | None =>
              Some ([], Some (NonFatalError
                                (Status InvalidArgument "unrecognized domain name")), w)
          | Some memName =>
              match makeReads (gq_Reads req) with
              | None => None
              | Some datas =>
                  match writeWithDeadline w (domainRead memName (gq_Reads req)) with
                  | (w', Some e) => Some ([], Some e, w')
                  | (w', None) =>
                      match sendDomainReads core rest w' with
                      | None => None
                      | Some (mrsp, e, w'') =>
                          Some ({| gr_Name := gq_Name req; gr_Reads := datas |} :: mrsp,
                                e, w'')
                      end
                  end
              end
          end
      end
  end.

(** The innermost loop of the second one: each read of a request takes
    its share of the reply. *)
Fixpoint copyReads (bin : list Z) (offset : Z) (regions : list MemoryDomainOffsetSize)
    (outs : list MemoryDomainOffsetData) : option (list MemoryDomainOffsetData) :=
  match regions, outs with
  | region :: regions', out :: outs' =>
      let binlen := Z.of_nat (length bin) in
      let sz := u64 (binlen - offset) in
      let next := u64 (offset + os_Size region) in
      if offset >=? binlen then
        option_map (cons out) (copyReads bin next regions' outs')
      else
        let hi := if os_Size region >? sz then u64 (offset + sz)
                  else u64 (offset + os_Size region) in
        if (hi <? offset) || (binlen <? hi) then None
        else
          let src := slice bin (Z.to_nat offset) (Z.to_nat hi) in
          option_map
            (cons {| od_Offset := od_Offset out; od_Data := copy (od_Data out) src |})
            (copyReads bin next regions' outs')
  | _, _ => Some outs
  end.

(** The second loop: one reply for each request. *)
Fixpoint receiveDomainReads (reqs : list GroupedDomainReadRequests)
    (mrsp : list GroupedDomainReadResponses) (w : world)
    : option (list GroupedDomainReadResponses * option error * world) :=
  match reqs, mrsp with
  | req :: reqs', rsp :: mrsp' =>
      let '(rp, w') := readResponse w in
      match err rp with
      | Some e => Some ([], Some e, w')
      | None =>
          match ascii rp with
          | Some _ =>
              Some ([], Some (NonFatalError
                                (Errorf "emunwa: expecting binary reply but got ascii")), w')
          | None =>
              match copyReads (default [] (bin rp)) 0 (gq_Reads req) (gr_Reads rsp) with
              | None => None
              | Some datas =>
                  match receiveDomainReads reqs' mrsp' w' with
                  | None => None
                  | Some (rest, e, w'') =>
                      Some ({| gr_Name := gr_Name rsp; gr_Reads := datas |} :: rest, e, w'')
                  end
              end
          end
      end
  | _, _ => Some ([], None, w)
  end.

(** What [MultiDomainRead] returns, or a panic. *)
Inductive domainOutcome :=
| DomainReturned (c : Client) (rsp : option MultiDomainReadResponse) (e : option error)
    (w : world)
| DomainPanic.

Definition MultiDomainRead (cfg : Config) (c : Client) (w : world) (uri : string)
    (requests : list GroupedDomainReadRequests) : domainOutcome :=
  let '(c, e, w) := determineDomainMapping cfg c w in
  match e with
  | Some e => DomainReturned c None (Some e) w
  | None =>
      match sendDomainReads (currentCore c) requests w with
      | None => DomainPanic
      | Some (_, Some e, w) => DomainReturned c None (Some e) w
      | Some (mrsp, None, w) =>
          match receiveDomainReads requests mrsp w with
          | None => DomainPanic
          | Some (_, Some e, w) => DomainReturned c None (Some e) w
          | Some (mrsp, None, w) =>
              DomainReturned c (Some {| mdr_Uri := uri; mdr_Responses := mrsp |}) None w
          end
      end
  end.

(** *** The vocabulary of [MultiDomainRead] *)

(** A request that the core can serve: its name is mapped, and its sizes
    are lengths of buffers. *)
Definition served (core : CoreConfig) (q : GroupedDomainReadRequests) : Prop :=
  is_Some (SNIToCoreMapping (Define core) !! cleanLower (gq_Name q)) /\
  Forall (fun r => 0 <= os_Size r < 2 ^ 63) (gq_Reads q).

(** The buffers and the response that the first loop makes of a request. *)
Definition zeroed (r : MemoryDomainOffsetSize) : MemoryDomainOffsetData :=
  {| od_Offset := os_Offset r; od_Data := repeat 0 (Z.to_nat (os_Size r)) |}.

Definition initial (q : GroupedDomainReadRequests) : GroupedDomainReadResponses :=
  {| gr_Name := gq_Name q; gr_Reads := zeroed <$> gq_Reads q |}.

(** The command of a request. *)
Definition commandOf (core : CoreConfig) (q : GroupedDomainReadRequests) : list Z :=
  domainRead (default EmptyString (SNIToCoreMapping (Define core) !! cleanLower (gq_Name q)))
             (gq_Reads q).

(** The sizes of the reads of a request together. *)
Definition askedFor (q : GroupedDomainReadRequests) : Z :=
  foldr (fun r n => os_Size r + n) 0 (gq_Reads q).

(** The shares of a reply that the reads of a request get, one after the
    other from [offset] on. *)
Fixpoint shares (bin : list Z) (offset : Z) (reads : list MemoryDomainOffsetSize)
    : list MemoryDomainOffsetData :=
  match reads with
  | [] => []
  | r :: rest =>
      {| od_Offset := os_Offset r;
         od_Data := share bin (Z.to_nat offset) (Z.to_nat (os_Size r)) |}
      :: shares bin (offset + os_Size r) rest
  end.

(** The connection after the commands of [k] requests were written and
    none of [answers] was read. *)
Definition afterCommands (w : world) (answers : list (list Z)) (cmds : list (list Z))
    : world :=
  {| script := drop (length cmds) (script w); deadlines := deadlines w; eof := eof w;
     rx := rx w ++ concat (take (length cmds) answers); tx := tx w ++ cmds |}.

(** A client that has discovered the sample core, two requests of its
    work RAM, and an emulator that answers them. *)
Definition bsnes_client : Client :=
  (determineDomainMapping bsnes_config fresh_client bsnes_world).1.1.

Definition wram_request (reads : list MemoryDomainOffsetSize) : GroupedDomainReadRequests :=
  {| gq_Name := "WRAM"; gq_Reads := reads |}.

Definition two_requests : list GroupedDomainReadRequests :=
  [ wram_request [ {| os_Offset := 0x10; os_Size := 2 |}; {| os_Offset := 0x20; os_Size := 2 |} ];
    wram_request [ {| os_Offset := 0x30; os_Size := 1 |} ] ].

Definition two_answers : list (list Z) :=
  [ [0; 0; 0; 0; 3; 17; 34; 51]; [0; 0; 0; 0; 1; 68] ].

Definition answering_world : world :=
  {| script := inr <$> two_answers; deadlines := []; eof := NetErr ErrEOF;
     rx := []; tx := [] |}.

(** *** [MultiDomainWrite] *)

Record GroupedDomainWriteRequests := {
  gw_Name : string;
  gw_Writes : list MemoryDomainOffsetData
}.

Record GroupedDomainWriteResponses := {
  gs_Name : string;
  gs_Writes : list MemoryDomainOffsetSize
}.

Record MultiDomainWriteResponse := {
  mdw_Uri : string;
  mdw_Responses : list GroupedDomainWriteResponses
}.

Fixpoint writeArgs (writes : list MemoryDomainOffsetData) : string :=
  match writes with
  | [] => EmptyString
  | write :: rest =>
      ";$" +:+ hex (od_Offset write) +:+ ";$" +:+ hex (Z.of_nat (length (od_Data write)))
      +:+ writeArgs rest
  end.

(** [totalSize], a [uint32] that the sizes are added to. *)
Definition totalSize32 (writes : list MemoryDomainOffsetData) : Z :=
  fold_left (fun total write => u32 (total + u32 (Z.of_nat (length (od_Data write)))))
            writes 0.

(** The buffer of one request: the command line, then a zero byte, the
    total size and the data of the writes. *)
Definition domainWrite (memName : string) (writes : list MemoryDomainOffsetData) : list Z :=
  bytes_of_string ("bCORE_WRITE " +:+ memName +:+ writeArgs writes +:+ newline)
  ++ 0 :: putUint32 (totalSize32 writes) ++ concat (od_Data <$> writes).

Definition writeSizes (writes : list MemoryDomainOffsetData) : list MemoryDomainOffsetSize :=
  (fun write => {| os_Offset := od_Offset write;
                   os_Size := Z.of_nat (length (od_Data write)) |}) <$> writes.

(** The first loop; [None] is the panic on a nil core. *)
Fixpoint sendDomainWrites (core : option CoreConfig) (reqs : list GroupedDomainWriteRequests)
    (w : world) : option (list GroupedDomainWriteResponses * option error * world) :=
  match reqs with
  | [] => Some ([], None, w)
  | req :: rest =>
      match core with
      | None => None
      | Some cc =>
          match SNIToCoreMapping (Define cc) !! cleanLower (gw_Name req) with
          | None =>
              Some ([], Some (NonFatalError
                                (Status InvalidArgument "unrecognized domain name")), w)
          | Some memName =>
              match writeWithDeadline w (domainWrite memName (gw_Writes req)) with
              | (w', Some e) => Some ([], Some e, w')
              | (w', None) =>
                  match sendDomainWrites core rest w' with
                  | None => None
                  | Some (mrsp, e, w'') =>
                      Some ({| gs_Name := gw_Name req;
                               gs_Writes := writeSizes (gw_Writes req) |} :: mrsp, e, w'')
                  end
              end
          end
      end
  end.

(** The second loop: one reply for each request, the error texts of the
    replies gathered in [errReplies]. *)
Fixpoint receiveDomainWrites (reqs : list GroupedDomainWriteRequests) (errReplies : string)
    (w : world) : string * option error * world :=
  match reqs with
  | [] => (errReplies, None, w)
  | _ :: rest =>
      let '(rp, w') := readResponse w in
      match err rp with
      | Some e => (errReplies, Some e, w')
      | None =>
          receiveDomainWrites rest
            match errorText (ascii rp) with
            | Some errText => errReplies +:+ errText +:+ newline
            | None => errReplies
            end w'
      end
  end.

Inductive writeOutcome :=
| WriteReturned (c : Client) (rsp : option MultiDomainWriteResponse) (e : option error)
    (w : world)
| WritePanic.

Definition MultiDomainWrite (cfg : Config) (c : Client) (w : world) (uri : string)
    (requests : list GroupedDomainWriteRequests) : writeOutcome :=
  let '(c, e, w) := determineDomainMapping cfg c w in
  match e with
  | Some e => WriteReturned c None (Some e) w
  | None =>
      match sendDomainWrites (currentCore c) requests w with
      | None => WritePanic
      | Some (_, Some e, w) => WriteReturned c None (Some e) w
      | Some (mrsp, None, w) =>
          match receiveDomainWrites requests EmptyString w with
          | (_, Some e, w) => WriteReturned c None (Some e) w
          | (errReplies, None, w) =>
              if (0 <? String.length errReplies)%nat then
                WriteReturned c None
                  (Some (NonFatalError (Errorf ("emunwa: error=" +:+ errReplies)))) w
              else
                WriteReturned c (Some {| mdw_Uri := uri; mdw_Responses := mrsp |}) None w
          end
      end
  end.

(** *** The vocabulary of [MultiDomainWrite] *)

(** The buffer of a request, and its answer in the response. *)
Definition bufferOf (core : CoreConfig) (q : GroupedDomainWriteRequests) : list Z :=
  domainWrite (default EmptyString (SNIToCoreMapping (Define core) !! cleanLower (gw_Name q)))
              (gw_Writes q).

Definition answerOf (q : GroupedDomainWriteRequests) : GroupedDomainWriteResponses :=
  {| gs_Name := gw_Name q; gs_Writes := writeSizes (gw_Writes q) |}.

(** The world of a write outcome, and its response. *)
Definition worldOf (o : writeOutcome) : option world :=
  match o with
  | WriteReturned _ _ _ w => Some w
  | WritePanic => None
  end.

Definition responseOfWrite (o : writeOutcome) : option MultiDomainWriteResponse :=
  match o with
  | WriteReturned _ rsp _ _ => rsp
  | WritePanic => None
  end.

Definition one_write : list GroupedDomainWriteRequests :=
  [ {| gw_Name := "WRAM";
       gw_Writes := [ {| od_Offset := 0x10; od_Data := [1; 2] |};
                      {| od_Offset := 0x20; od_Data := [3] |} ] |} ].

(** *** The vocabulary of the items of a reply *)

(** The lines of a reply as bytes, each with its newline. *)
Definition linesBody (lines : list string) : list Z :=
  concat ((fun l => bytes_of_string l ++ [LF]) <$> lines).

(** A line that the scanner returns as it was sent: it is not empty, has
    no newline in it, does not end in a carriage return and fits in the
    scanner's buffer. *)
Definition okLine (l : string) : Prop :=
  l <> EmptyString /\
  Forall (fun b => b <> LF) (bytes_of_string l) /\
  List.last (bytes_of_string l) 0 <> CR /\
  Z.of_nat (length (bytes_of_string l)) < MaxScanTokenSize.

(** The item that holds the pairs of some lines. *)
Definition itemOf (g : list string) : gmap string string :=
  list_to_map ((fun l => (keyOf l, valueOf l)) <$> g).

(** Every group of lines after the first starts with a line whose key the
    group before it has. *)
Fixpoint splitsAtRepeats (groups : list (list string)) : Prop :=
  match groups with
  | [] => True
  | g :: rest =>
      match rest with
      | (l :: _) :: _ => In (keyOf l) (keyOf <$> g)
      | _ => True
      end /\ splitsAtRepeats rest
  end.

(** A reply with a line of three fields and a line without a colon. *)
Definition colons_body : list Z :=
  bytes_of_string ("a:b:c" +:+ newline +:+ "plain" +:+ newline +:+ newline).

(** The regular expressions of a core's configuration accept a name, a
    version and a platform. *)
Definition accepts (cc : CoreConfig) (coreName coreVersion corePlatform : string) : Prop :=
  CoreNameRegex (Matches cc) coreName = true /\
  (forall re, CoreVersionRegex (Matches cc) = Some re -> re coreVersion = true) /\
  (forall re, CorePlatformRegex (Matches cc) = Some re -> re corePlatform = true).

(** The name, the version and the platform of the core in a reply to
    CORE_CURRENT_INFO. *)
Definition nameIn (rp : reply) : string := clean (getFirstValue (ascii rp) "name").
Definition versionIn (rp : reply) : string := clean (getFirstValue (ascii rp) "version").
Definition platformIn (rp : reply) : string := clean (getFirstValue (ascii rp) "platform").

(** A configuration with two cores, of which the second is the one that
    the sample emulator runs. *)
Definition snes9x_core : CoreConfig :=
  {| core_Name := "snes9x";
     Matches := {| CoreNameRegex := String.eqb "snes9x"; CoreVersionRegex := None;
                   CorePlatformRegex := None |};
     Define := {| Platform := "snes"; CoreToSNIMapping := ∅; SNIToCoreMapping := ∅ |} |}.

Definition strict_core : CoreConfig :=
  {| core_Name := "bsnes";
     Matches := {| CoreNameRegex := String.eqb "bsnes"; CoreVersionRegex := None;
                   CorePlatformRegex := Some (String.eqb "SNES") |};
     Define := Define bsnes_core |}.

Definition two_cores_config : Config :=
  {| currentPlatConfig := Some {[ "snes" := snes_platform ]};
     coresConfig := [snes9x_core; strict_core] |}.

(** The domains that the sample discovery finds. *)
Definition sample_domains : list Domain :=
  [ {| Name := "WRAM"; Size := 131072; IsExposed := true; IsCoreSpecific := false;
       IsReadable := true; IsWriteable := true |};
    {| Name := "SRAM"; Size := 0; IsExposed := false; IsCoreSpecific := false;
       IsReadable := false; IsWriteable := false |};
    {| Name := "CPUBUS"; Size := 16777216; IsExposed := true; IsCoreSpecific := true;
       IsReadable := true; IsWriteable := false |} ].

End EmuNWA.

(** * Properties *)

(** ** [mapping.TranslateAddress] *)

Module MappingProofs.

Import Mapping.

Lemma lib_result_known (r : Z * option Go.error) :
  snd (lib_result r) <> Some ErrUnknownMapping.
Proof.
  destruct r as [a [e|]]; unfold lib_result; simpl; congruence.
Qed.

(** C5.  [TranslateAddress] fails with [ErrUnknownMapping] if and only if
    the source and device spaces are SnesABus and FxPakPro, in either
    direction, and the mapping of the tuple is Unknown; and when the source
    space is Raw, or the device space is Raw, or both spaces are the same,
    it returns the address it was given and no error. *)
Theorem TranslateAddress_unknown_mapping (L : Library) (a : AddressTuple)
    (deviceSpace : AddressSpace) :
  (snd (TranslateAddress L a deviceSpace) = Some ErrUnknownMapping <->
   needsMapping (Space a) deviceSpace /\ Mapping a = MemoryMapping_Unknown) /\
  (Space a = AddressSpace_Raw \/ deviceSpace = AddressSpace_Raw \/ Space a = deviceSpace ->
   TranslateAddress L a deviceSpace = (Address a, None)).
Proof.
  destruct a as [addr sp mp]; unfold TranslateAddress, needsMapping; simpl.
  split.
  - split.
    + destruct sp, deviceSpace, mp; simpl; intros H;
        try discriminate H; try (split; [tauto | reflexivity]);
        exfalso; revert H; apply lib_result_known.
    + intros [[[-> ->] | [-> ->]] ->]; reflexivity.
  - destruct sp, deviceSpace; intros H; try reflexivity;
      destruct H as [H | [H | H]]; discriminate H.
Qed.

End MappingProofs.

(** ** [udpclient.UDPClient] *)

Module UDPProofs.

Import Go UDP.

Lemma Close_closes cl s :
  isConnected cl = true -> isClosed (Close cl s).1.1 = true.
Proof.
  intros H. unfold Close. rewrite H. simpl.
  destruct (c cl); reflexivity.
Qed.

Lemma Close_keeps_closed cl s :
  isClosed cl = true -> isClosed (Close cl s).1.1 = true.
Proof.
  intros H. unfold Close.
  destruct (isConnected cl); simpl; [destruct (c cl); reflexivity | exact H].
Qed.

Lemma Close_linked cl s : linked cl -> linked (Close cl s).1.1.
Proof.
  intros H. unfold Close.
  destruct (isConnected cl) eqn:E; simpl; [| exact H].
  destruct (c cl); intros F; exfalso; apply F; reflexivity.
Qed.

Lemma closeOnFailure_fst cl s e :
  (closeOnFailure cl s e).1 =
  (if isErrClosed e then (Close (if isTimeoutError e then (Close cl s).1.1 else cl) s).1.1
   else if isTimeoutError e then (Close cl s).1.1 else cl).
Proof.
  unfold closeOnFailure.
  destruct (isTimeoutError e).
  - destruct (Close cl s) as [[x o] t]; simpl.
    destruct (isErrClosed e); [destruct (Close x s) as [[? ?] ?] |]; reflexivity.
  - destruct (isErrClosed e); [destruct (Close cl s) as [[? ?] ?] |]; reflexivity.
Qed.

Lemma closeOnFailure_closes cl s e :
  isConnected cl = true ->
  isTimeoutError e || isErrClosed e = true ->
  isClosed (closeOnFailure cl s e).1 = true.
Proof.
  intros Hc He. rewrite closeOnFailure_fst.
  destruct (isTimeoutError e), (isErrClosed e); try discriminate He.
  - apply Close_keeps_closed, Close_closes, Hc.
  - apply Close_closes, Hc.
  - apply Close_closes, Hc.
Qed.

Lemma closeOnFailure_keeps_closed cl s e :
  isClosed cl = true -> isClosed (closeOnFailure cl s e).1 = true.
Proof.
  intros H. rewrite closeOnFailure_fst.
  destruct (isTimeoutError e), (isErrClosed e); auto using Close_keeps_closed.
Qed.

Lemma closeOnFailure_linked cl s e : linked cl -> linked (closeOnFailure cl s e).1.
Proof.
  intros H. rewrite closeOnFailure_fst.
  destruct (isTimeoutError e), (isErrClosed e); auto using Close_linked.
Qed.

(** What a read or write method leaves behind is the client itself, or
    the client after [closeOnFailure]. *)
Lemma after_Write cl m s :
  after cl (WriteWithDeadline cl m s) = cl \/
  exists e, after cl (WriteWithDeadline cl m s) = (closeOnFailure cl s e).1.
Proof.
  unfold WriteWithDeadline.
  destruct (isClosed cl); [left; reflexivity |].
  destruct (c cl); [| left; reflexivity].
  destruct (on_SetWriteDeadline s); [left; reflexivity |].
  destruct (on_Write s) as [e |]; [| left; reflexivity].
  right. exists e. destruct (closeOnFailure cl s e); reflexivity.
Qed.

Lemma after_Read cl s :
  after cl (ReadWithDeadline cl s) = cl \/
  exists e, after cl (ReadWithDeadline cl s) = (closeOnFailure cl s e).1.
Proof.
  unfold ReadWithDeadline.
  destruct (isClosed cl); [left; reflexivity |].
  destruct (c cl); [| left; reflexivity].
  destruct (on_SetReadDeadline s); [left; reflexivity |].
  destruct (on_ReadFromUDP s) as [e | d]; [| left; reflexivity].
  right. exists e. destruct (closeOnFailure cl s e); reflexivity.
Qed.

Lemma after_ReadInto cl b s :
  after cl (ReadWithDeadlineInto cl b s) = cl \/
  exists e, after cl (ReadWithDeadlineInto cl b s) = (closeOnFailure cl s e).1.
Proof.
  unfold ReadWithDeadlineInto.
  destruct (isClosed cl); [left; reflexivity |].
  destruct (c cl); [| left; reflexivity].
  destruct (on_SetReadDeadline s); [left; reflexivity |].
  destruct (on_ReadFromUDP s) as [e | d]; [| left; reflexivity].
  right. exists e. destruct (closeOnFailure cl s e); reflexivity.
Qed.

Lemma after_WriteThenRead cl m sw sr :
  after cl (WriteThenRead cl m sw sr) = cl \/
  after cl (WriteThenRead cl m sw sr) = after cl (WriteWithDeadline cl m sw) \/
  after cl (WriteThenRead cl m sw sr) =
    after (after cl (WriteWithDeadline cl m sw))
          (ReadWithDeadline (after cl (WriteWithDeadline cl m sw)) sr).
Proof.
  unfold WriteThenRead.
  destruct (isClosed cl); [left; reflexivity |].
  destruct (WriteWithDeadline cl m sw) as [cl1 [e |] tr1 |]; simpl;
    [right; left; reflexivity | | left; reflexivity].
  destruct (ReadWithDeadline cl1 sr) as [cl2 r tr2 |]; simpl.
  - right; right; reflexivity.
  - left; reflexivity.
Qed.

Lemma kept_by_io (P : UDPClient -> Prop) :
  (forall cl s e, P cl -> P (closeOnFailure cl s e).1) ->
  forall cl m b s sw sr,
    P cl ->
    P (after cl (WriteWithDeadline cl m s)) /\
    P (after cl (ReadWithDeadline cl s)) /\
    P (after cl (ReadWithDeadlineInto cl b s)) /\
    P (after cl (WriteThenRead cl m sw sr)).
Proof.
  intros HP.
  assert (HW : forall cl m s, P cl -> P (after cl (WriteWithDeadline cl m s))).
  { intros cl m s H. destruct (after_Write cl m s) as [-> | [e ->]]; auto. }
  assert (HR : forall cl s, P cl -> P (after cl (ReadWithDeadline cl s))).
  { intros cl s H. destruct (after_Read cl s) as [-> | [e ->]]; auto. }
  intros cl m b s sw sr H. repeat split; auto.
  - destruct (after_ReadInto cl b s) as [-> | [e ->]]; auto.
  - destruct (after_WriteThenRead cl m sw sr) as [-> | [-> | ->]]; auto.
Qed.

Lemma closed_kept : kept (fun cl => isClosed cl = true).
Proof.
  intros cl cl' Hs H.
  pose proof (kept_by_io (fun x => isClosed x = true) closeOnFailure_keeps_closed) as K.
  destruct Hs; simpl; try exact H.
  - unfold Connect. destruct (isConnected cl); [exact H |]. destruct dial; exact H.
  - unfold Disconnect. destruct (isConnected cl) eqn:E; simpl; [| exact H].
    pose proof (Close_keeps_closed cl s H) as C.
    destruct (Close cl s) as [[? ?] ?]; exact C.
  - apply Close_keeps_closed, H.
  - exact (proj1 (K cl m [] s s s H)).
  - exact (proj1 (proj2 (K cl [] [] s s s H))).
  - exact (proj1 (proj2 (proj2 (K cl [] b s s s H)))).
  - exact (proj2 (proj2 (proj2 (K cl m [] sw sw sr H)))).
Qed.

Lemma linked_kept : kept linked.
Proof.
  intros cl cl' Hs H.
  pose proof (kept_by_io linked closeOnFailure_linked) as K.
  destruct Hs; simpl; try exact H.
  - unfold Connect. destruct (isConnected cl) eqn:E; [exact H |].
    destruct dial; simpl; intros F; [exfalso; apply F |]; reflexivity.
  - unfold Disconnect. destruct (isConnected cl) eqn:E; simpl; [| exact H].
    pose proof (Close_linked cl s H) as C.
    destruct (Close cl s) as [[? ?] ?]; exact C.
  - apply Close_linked, H.
  - exact (proj1 (K cl m [] s s s H)).
  - exact (proj1 (proj2 (K cl [] [] s s s H))).
  - exact (proj1 (proj2 (proj2 (K cl [] b s s s H)))).
  - exact (proj2 (proj2 (proj2 (K cl m [] sw sw sr H)))).
Qed.

Lemma reachable_linked cl : reachable cl -> linked cl.
Proof.
  induction 1 as [nm | cl cl' _ IH Hs].
  - intros F. exfalso. apply F. reflexivity.
  - exact (linked_kept cl cl' Hs IH).
Qed.

Lemma later_closed cl cl' : later cl cl' -> isClosed cl = true -> isClosed cl' = true.
Proof.
  induction 1 as [| cl cl' cl'' _ IH Hs]; intros H; [exact H |].
  exact (closed_kept cl' cl'' Hs (IH H)).
Qed.

Lemma closed_failsFast cl : isClosed cl = true -> failsFast cl.
Proof.
  intros H m s s'.
  unfold WriteThenRead, WriteWithDeadline, ReadWithDeadline. rewrite H. auto.
Qed.

(** The three ways a call on an open client goes on. *)
Lemma Write_fails cl m s e :
  isClosed cl = false -> on_SetWriteDeadline s = None -> on_Write s = Some e ->
  (c cl = None /\ WriteWithDeadline cl m s = Panic) \/
  (c cl <> None /\
   WriteWithDeadline cl m s =
     Ret (closeOnFailure cl s e).1 (Some e)
         ([SetWriteDeadline; Write m] ++ (closeOnFailure cl s e).2)).
Proof.
  intros Ho Hd Hw. unfold WriteWithDeadline. rewrite Ho, Hd, Hw.
  destruct (c cl); [right | left; split; reflexivity].
  split; [discriminate |]. destruct (closeOnFailure cl s e); reflexivity.
Qed.

Lemma Write_succeeds cl m s :
  isClosed cl = false -> on_SetWriteDeadline s = None -> on_Write s = None ->
  WriteWithDeadline cl m s = Panic \/
  WriteWithDeadline cl m s = Ret cl None [SetWriteDeadline; Write m].
Proof.
  intros Ho Hd Hw. unfold WriteWithDeadline. rewrite Ho, Hd, Hw.
  destruct (c cl); [right | left]; reflexivity.
Qed.

Lemma Read_fails cl s e :
  isClosed cl = false -> on_SetReadDeadline s = None -> on_ReadFromUDP s = inl e ->
  (c cl = None /\ ReadWithDeadline cl s = Panic) \/
  (c cl <> None /\
   ReadWithDeadline cl s =
     Ret (closeOnFailure cl s e).1 (None, Some e)
         ([SetReadDeadline; ReadFromUDP] ++ (closeOnFailure cl s e).2)).
Proof.
  intros Ho Hd Hr. unfold ReadWithDeadline. rewrite Ho, Hd, Hr.
  destruct (c cl); [right | left; split; reflexivity].
  split; [discriminate |]. destruct (closeOnFailure cl s e); reflexivity.
Qed.

(** What a closing failure makes of an open client that holds a socket. *)
Lemma closeOnFailure_socket cl s e h :
  linked cl -> c cl = Some h -> closing e ->
  closeOnFailure cl s e =
    ({| name := name cl; c := None; addr := addr cl; muteLog := muteLog cl;
        isConnected := false; isClosed := true |}, [CloseSocket]).
Proof.
  intros Hl Hc He.
  assert (Hcon : isConnected cl = true) by (apply Hl; rewrite Hc; discriminate).
  unfold closeOnFailure, closing in *.
  destruct e; try discriminate He; simpl; unfold Close; rewrite Hcon, Hc; reflexivity.
Qed.

(** C10.  For a client a program can hold: once it is closed, after any
    number of further calls a [WriteWithDeadline], [ReadWithDeadline] or
    [WriteThenRead] returns [net.ErrClosed] and makes no socket call.  And
    while it is open and holds a socket, a socket write or read that fails
    with a timeout or with [net.ErrClosed] makes each of the three methods
    return that error after it has closed the socket, and leaves the
    client closed, so that all later calls fail in that way. *)
Theorem closed_is_terminal (cl : UDPClient) (Hr : reachable cl) :
  (isClosed cl = true -> forall cl', later cl cl' -> failsFast cl') /\
  (isClosed cl = false ->
   forall h m s e,
     c cl = Some h ->
     closing e ->
     (on_SetWriteDeadline s = None -> on_Write s = Some e ->
      exists cl',
        WriteWithDeadline cl m s =
          Ret cl' (Some e) [SetWriteDeadline; Write m; CloseSocket] /\
        isClosed cl' = true /\
        forall cl'', later cl' cl'' -> failsFast cl'') /\
     (on_SetReadDeadline s = None -> on_ReadFromUDP s = inl e ->
      exists cl',
        ReadWithDeadline cl s =
          Ret cl' (None, Some e) [SetReadDeadline; ReadFromUDP; CloseSocket] /\
        isClosed cl' = true /\
        forall cl'', later cl' cl'' -> failsFast cl'') /\
     (on_SetWriteDeadline s = None -> on_Write s = Some e ->
      forall sr,
      exists cl',
        WriteThenRead cl m s sr =
          Ret cl' (None, Some e) [SetWriteDeadline; Write m; CloseSocket] /\
        isClosed cl' = true /\
        forall cl'', later cl' cl'' -> failsFast cl'') /\
     (forall sw, on_SetWriteDeadline sw = None -> on_Write sw = None ->
      on_SetReadDeadline s = None -> on_ReadFromUDP s = inl e ->
      exists cl',
        WriteThenRead cl m sw s =
          Ret cl' (None, Some e)
              [SetWriteDeadline; Write m; SetReadDeadline; ReadFromUDP; CloseSocket] /\
        isClosed cl' = true /\
        forall cl'', later cl' cl'' -> failsFast cl'')).
Proof.
  pose proof (reachable_linked cl Hr) as Hl.
  assert (T : forall x, isClosed x = true -> forall y, later x y -> failsFast y).
  { intros x Hx y Hy. apply closed_failsFast. exact (later_closed x y Hy Hx). }
  split; [intros H; apply T; exact H |].
  intros Hopen h m s e Hc He.
  pose proof (closeOnFailure_socket cl s e h Hl Hc He) as K.
  split; [| split; [| split]].
  - intros Hd Hw. unfold WriteWithDeadline. rewrite Hopen, Hc, Hd, Hw, K.
    eexists. split; [reflexivity |]. split; [reflexivity |]. apply T. reflexivity.
  - intros Hd Hrd. unfold ReadWithDeadline. rewrite Hopen, Hc, Hd, Hrd, K.
    eexists. split; [reflexivity |]. split; [reflexivity |]. apply T. reflexivity.
  - intros Hd Hw sr. unfold WriteThenRead, WriteWithDeadline.
    rewrite Hopen, Hc, Hd, Hw, K.
    eexists. split; [reflexivity |]. split; [reflexivity |]. apply T. reflexivity.
  - intros sw Hd Hw Hrd Hrr. unfold WriteThenRead, WriteWithDeadline, ReadWithDeadline.
    rewrite Hopen, Hc, Hd, Hw, Hopen, Hc, Hrd, Hrr, K.
    eexists. split; [reflexivity |]. split; [reflexivity |]. apply T. reflexivity.
Qed.

Lemma sample_client_reachable : reachable sample_client.
Proof.
  apply (reach_step (NewUDPClient "udp")); [apply reach_new | apply step_Connect].
Defined.

Lemma closed_is_terminal_witness :
  (exists cl',
     WriteWithDeadline sample_client [1] sample_socket =
       Ret cl' (Some ErrTimeout) [SetWriteDeadline; Write [1]; CloseSocket] /\
     isClosed cl' = true /\
     forall cl'', later cl' cl'' -> failsFast cl'') /\
  (exists cl',
     ReadWithDeadline sample_client sample_socket =
       Ret cl' (None, Some ErrTimeout) [SetReadDeadline; ReadFromUDP; CloseSocket] /\
     isClosed cl' = true /\
     forall cl'', later cl' cl'' -> failsFast cl'') /\
  (exists cl',
     WriteThenRead sample_client [1] sample_socket sample_socket =
       Ret cl' (None, Some ErrTimeout) [SetWriteDeadline; Write [1]; CloseSocket] /\
     isClosed cl' = true /\
     forall cl'', later cl' cl'' -> failsFast cl'') /\
  (exists cl',
     WriteThenRead sample_client [1] quiet_socket sample_socket =
       Ret cl' (None, Some ErrTimeout)
           [SetWriteDeadline; Write [1]; SetReadDeadline; ReadFromUDP; CloseSocket] /\
     isClosed cl' = true /\
     forall cl'', later cl' cl'' -> failsFast cl'') /\
  forall cl', later closed_client cl' -> failsFast cl'.
Proof.
  pose proof (proj2 (closed_is_terminal sample_client sample_client_reachable)
                eq_refl 7 [1] sample_socket ErrTimeout eq_refl eq_refl)
    as (Hw & Hrd & Hwr & Hrw).
  split; [exact (Hw eq_refl eq_refl) |].
  split; [exact (Hrd eq_refl eq_refl) |].
  split; [exact (Hwr eq_refl eq_refl sample_socket) |].
  split; [exact (Hrw quiet_socket eq_refl eq_refl eq_refl eq_refl) |].
  refine (proj1 (closed_is_terminal closed_client _) eq_refl).
  apply (reach_step sample_client); [exact sample_client_reachable | apply step_Close].
Defined.

End UDPProofs.

(** ** The FX Pak Pro driver *)

Module FxPakProProofs.

Import Go FxPakPro.

(** *** The domain table *)

(** C8.  Whatever the device and the request, [MemoryDomains] returns the
    table built from [domainDescs]: the seven SNES domains, then
    FXPAKPRO_SNES (start 0, size 0x1000000) and FXPAKPRO_CMD (start
    0x1000000, size 0x1000000), every one readable, and VRAM, CGRAM and
    OAM not writeable. *)
Theorem MemoryDomains_static (d : Device) (uri : string) :
  snd (MemoryDomains d uri) = None /\
  Domains (fst (MemoryDomains d uri)) = domains init /\
  map row (domains init) =
    [ (Some "CARTROM", 0xE00000, true, true);
      (Some "CARTRAM", 0x100000, true, true);
      (Some "WRAM", 0x20000, true, false);
      (Some "APURAM", 0x10000, true, false);
      (Some "VRAM", 0x10000, true, false);
      (Some "CGRAM", 0x200, true, false);
      (Some "OAM", 0x220, true, false);
      (Some "FXPAKPRO_SNES", 0x1000000, true, true);
      (Some "FXPAKPRO_CMD", 0x1000000, true, true) ] /\
  map extent (skipn 7 domainDescs) =
    [ (Some "FXPAKPRO_SNES", 0, 0x1000000);
      (Some "FXPAKPRO_CMD", 0x1000000, 0x1000000) ] /\
  map (fun m => Type_ (Domain m)) (domains init) =
    map Some [ SNESCartROM; SNESCartRAM; SNESWorkRAM; SNESAPURAM; SNESVideoRAM;
               SNESCGRAM; SNESObjectAttributeMemory;
               SNESCoreSpecificMemory; SNESCoreSpecificMemory ].
Proof.
  repeat split; reflexivity.
Qed.

(** *** The range checks of the domain operations *)

Lemma u32_small x : 0 <= x < 2 ^ 32 -> u32 x = x.
Proof. intros H. unfold u32. apply Z.mod_small, H. Qed.

(** While the end address fits in 32 bits the loop over the reads accepts
    exactly the lists whose entries are all in range. *)
Lemma checkReads_in_range dm reads :
  Forall (fun r => 0 <= rd_Address r + rd_Size r < 2 ^ 32) reads ->
  (exists mreqs, checkReads dm reads = inr mreqs) <->
  Forall (fun r => inRange dm (rd_Address r) (rd_Size r)) reads.
Proof.
  induction 1 as [| r reads Hr _ IH]; simpl.
  - split; [constructor | eauto].
  - rewrite (u32_small _ Hr). unfold inRange at 1.
    destruct (Z.geb_spec (rd_Address r) (size dm)) as [G | G].
    { split; [intros [? [=]] | intros K; inversion K; subst; unfold inRange in *; lia]. }
    destruct (Z.gtb_spec (rd_Address r + rd_Size r) (size dm)) as [G' | G'].
    { split; [intros [? [=]] | intros K; inversion K; subst; unfold inRange in *; lia]. }
    destruct (checkReads dm reads) as [e | mreqs].
    + split; [intros [? [=]] |].
      intros K; inversion K; subst. apply IH in H2. destruct H2 as [? [=]].
    + split; [| eauto]. intros _. constructor; [unfold inRange; lia |].
      apply IH. eauto.
Qed.

(** A rejected entry is an [InvalidArgument]. *)
Lemma checkReads_InvalidArgument dm reads e :
  checkReads dm reads = inl e -> exists msg, e = Status InvalidArgument msg.
Proof.
  induction reads as [| r reads IH]; simpl; [discriminate |].
  destruct (_ >=? _); [intros [= <-]; eauto |].
  destruct (_ >? _); [intros [= <-]; eauto |].
  destruct (checkReads dm reads); [intros [= <-]; apply IH; reflexivity | discriminate].
Qed.

(** No request fails in the checks after a device call. *)
Lemma collectReads_no_io t reqs e tr :
  collectReads t reqs = Failed e tr -> tr = [].
Proof.
  revert e tr. induction reqs as [| q reqs IH]; simpl; intros e tr; [discriminate |].
  destruct (rq_Domain q); [| discriminate].
  destruct (lookupDomain t m); [intros [= _ <-]; reflexivity |].
  destruct (checkReads d (rq_Reads q)); [intros [= _ <-]; reflexivity |].
  destruct (collectReads t reqs) as [[g mr] io | e' tr' |]; [discriminate | | discriminate].
  intros [= <- <-]. eapply IH. reflexivity.
Qed.

Lemma MultiDomainRead_rejects_before_io t io reqs e :
  collectReads t reqs = Failed e [] -> MultiDomainRead t io reqs = Failed e [].
Proof. intros H. unfold MultiDomainRead. rewrite H. reflexivity. Qed.

(** The last byte of a domain can be read. *)
Lemma checkReads_last_byte dm :
  0 < size dm < 2 ^ 32 ->
  checkReads dm [ {| rd_Address := size dm - 1; rd_Size := 1 |} ] =
    inr [ {| mr_RequestAddress := pakAddress dm (size dm - 1); mr_Size := 1 |} ].
Proof.
  intros H. simpl.
  replace (size dm - 1 + 1) with (size dm) by lia.
  rewrite u32_small by lia.
  destruct (Z.geb_spec (size dm - 1) (size dm)); [lia |].
  destruct (Z.gtb_spec (size dm) (size dm)); [lia | reflexivity].
Qed.

(** C2, at the failing input.  The sum of offset and size is taken in 32
    bits, wraps to 0 and passes the test against the domain size: the
    request is not rejected and goes to the device with the size
    0xFFFFFFFF. *)
Theorem MultiDomainRead_end_wraps :
  1 + 0xFFFFFFFF > 0x20000 /\
  MultiDomainRead init silent_device overlong_read =
    Done [ {| rr_Domain := ref "WRAM" SNESWorkRAM;
              rr_Reads := [ {| ad_Address := 1; ad_Data := Some [] |} ] |} ]
         [ CallRead [ {| mr_RequestAddress :=
                           {| Mapping.Address := 0xF50001;
                              Mapping.Space := Mapping.AddressSpace_FxPakPro;
                              Mapping.Mapping := Mapping.MemoryMapping_Unknown |};
                         mr_Size := 0xFFFFFFFF |} ] ].
Proof.
  split; [lia | reflexivity].
Qed.

(** The same sum in the loop over the writes: a buffer of 2^32 - 1 bytes
    at offset 1 passes as well. *)
Lemma checkWrites_end_wraps dm data :
  1 < size dm < 2 ^ 32 ->
  Z.of_nat (length data) = 0xFFFFFFFF ->
  checkWrites dm [ {| wr_Address := 1; wr_Data := data |} ] =
    inr [ {| mw_RequestAddress := pakAddress dm 1; mw_Data := data |} ].
Proof.
  intros H L. simpl. rewrite L.
  destruct (Z.geb_spec 1 (size dm)); [lia |].
  change (u32 (1 + u32 0xFFFFFFFF)) with 0.
  destruct (Z.gtb_spec 0 (size dm)); [lia | reflexivity].
Qed.

(** *** The first response packet of [listFiles] *)

(** A full packet replaces the whole buffer. *)
Lemma copy_full (dst src : list Z) : length src = length dst -> copy dst src = src.
Proof.
  intros H. unfold copy. rewrite <- H, firstn_all, skipn_all2 by lia.
  apply app_nil_r.
Qed.

Lemma lsRequest_length K path : length (lsRequest K path) = 512%nat.
Proof.
  unfold lsRequest. rewrite !length_insert, length_app, length_firstn.
  unfold copy. rewrite length_app, length_firstn, !length_skipn, !length_insert.
  rewrite repeat_length. lia.
Qed.

Lemma magicOk_test sb :
  (at_ sb 0 =? 85) && (at_ sb 1 =? 83) && (at_ sb 2 =? 66) && (at_ sb 3 =? 65) = true
  <-> magicOk sb.
Proof.
  unfold magicOk. rewrite !andb_true_iff, !Z.eqb_eq. tauto.
Qed.

(** C7.  When the first response packet of an LS has a wrong magic, or a
    size field that is not 1, or a wrong opcode, [listFiles] returns a
    fatal error, on which the device is closed; when those three are right
    and byte 5 is not zero it returns a non-fatal error, after which the
    device is as open as before. *)
Theorem listFiles_header_errors (K : constants) (path : string) (io : serial)
    (pkt : list Z) (rest : list (error + list Z)) :
  on_send io = None ->
  incoming io = inr pkt :: rest ->
  length pkt = 512%nat ->
  (~ magicOk pkt \/ sizeField pkt <> 1 \/ ~ opcodeOk K pkt ->
   exists cause,
     listFiles K path io =
       (None, Some (DeviceFatal cause), [Send (lsRequest K path); Recv]) /\
     forall wasClosed, closedAfter wasClosed (Some (DeviceFatal cause)) = true) /\
  (magicOk pkt /\ sizeField pkt = 1 /\ opcodeOk K pkt /\ at_ pkt 5 <> 0 ->
   exists cause,
     listFiles K path io =
       (None, Some (DeviceNonFatal cause), [Send (lsRequest K path); Recv]) /\
     forall wasClosed, closedAfter wasClosed (Some (DeviceNonFatal cause)) = wasClosed).
Proof.
  intros Hs Hi Hl. unfold listFiles. rewrite Hs, Hi.
  rewrite copy_full by (rewrite lsRequest_length; exact Hl).
  unfold checkHeader. fold (sizeField pkt).
  pose proof (magicOk_test pkt) as M.
  destruct ((at_ pkt 0 =? 85) && (at_ pkt 1 =? 83) && (at_ pkt 2 =? 66)
            && (at_ pkt 3 =? 65)) eqn:Em; simpl.
  2: { split; [intros _; eexists; split; reflexivity |].
       intros [F _]. apply M in F. discriminate F. }
  assert (Hm : magicOk pkt) by (apply M; reflexivity).
  destruct (Z.eqb_spec (sizeField pkt) 1) as [Es | Es]; simpl.
  2: { split; [intros _; eexists; split; reflexivity |].
       intros (_ & F & _). contradiction. }
  destruct (Z.eqb_spec (at_ pkt 4) (byte (OpRESPONSE K))) as [Eo | Eo]; simpl.
  2: { split; [intros _; eexists; split; reflexivity |].
       intros (_ & _ & F & _). contradiction. }
  split.
  - intros [F | [F | F]]; contradiction.
  - intros (_ & _ & _ & F).
    destruct (Z.eqb_spec (at_ pkt 5) 0) as [E5 | E5]; [contradiction |]; simpl.
    eexists; split; reflexivity.
Qed.

Lemma listFiles_header_errors_witness :
  magicOk error_response /\ sizeField error_response = 1 /\
  opcodeOk usb2snes error_response /\
  exists cause,
    listFiles usb2snes "/" {| on_send := None; incoming := [inr error_response] |} =
      (None, Some (DeviceNonFatal cause), [Send (lsRequest usb2snes "/"); Recv]) /\
    forall wasClosed, closedAfter wasClosed (Some (DeviceNonFatal cause)) = wasClosed.
Proof.
  assert (Hm : magicOk error_response) by (repeat split).
  assert (Hs : sizeField error_response = 1) by reflexivity.
  assert (Ho : opcodeOk usb2snes error_response) by reflexivity.
  split; [exact Hm |]. split; [exact Hs |]. split; [exact Ho |].
  refine (proj2 (listFiles_header_errors usb2snes "/"
                   {| on_send := None; incoming := [inr error_response] |}
                   error_response [] eq_refl eq_refl eq_refl) _).
  split; [exact Hm |]. split; [exact Hs |]. split; [exact Ho |].
  discriminate.
Defined.

End FxPakProProofs.

(** ** The NWA client *)

Module EmuNWAProofs.

Import Go EmuNWA.

(** *** The ASCII reply *)

Lemma SplitN2_no_colon l : hasColon l = false -> SplitN2 l = (l, None).
Proof.
  induction l as [| a l IH]; simpl; [reflexivity |].
  destruct (Ascii.eqb a ":"%char); simpl; [discriminate |].
  intros H. rewrite (IH H). reflexivity.
Qed.

Lemma SplitN2_first_colon k v :
  hasColon k = false -> SplitN2 (k +:+ ":" +:+ v) = (k, Some v).
Proof.
  induction k as [| a k IH]; simpl; [reflexivity |].
  destruct (Ascii.eqb a ":"%char); simpl; [discriminate |].
  intros H. rewrite (IH H). reflexivity.
Qed.

Lemma scanLine_item l st : (scanLine l st).2 !! keyOf l = Some (valueOf l).
Proof.
  destruct st as [ascii item]. unfold scanLine, keyOf, valueOf.
  destruct (item !! (SplitN2 l).1); simpl; apply lookup_insert_eq.
Qed.

(** C1, as stated, fails on the literal body: it does not yield the two
    items, the loop ends at the first empty line with the first item alone. *)
Lemma literal_body_one_item :
  parseAscii literal_body = [foo_item] /\
  parseAscii literal_body <> [foo_item; bar_item].
Proof.
  assert (H : parseAscii literal_body = [foo_item]) by (vm_compute; reflexivity).
  split; [exact H |]. rewrite H. discriminate.
Qed.

(** *** [FetchFields] *)

(** Each flag is raised by one field only. *)
Lemma wanted_flags fields :
  (wantGameInfo (wanted fields) = true <-> In Field_RomFileName fields) /\
  (wantCoreInfo (wanted fields) = true <-> In Field_CorePlatform fields) /\
  (wantEmulatorInfo (wanted fields) = true <-> In Field_DeviceVersion fields) /\
  (wantEmulationStatus (wanted fields) = true <-> In Field_DeviceStatus fields).
Proof.
  unfold wanted. induction fields as [| f fields IH] using rev_ind.
  - simpl. repeat split; intros H; solve [discriminate H | destruct H].
  - rewrite fold_left_app. simpl.
    destruct IH as (G & C & E & S).
    repeat split; intros H;
      try (apply in_or_app;
           destruct f; simpl in *;
           solve [right; left; reflexivity | left; tauto]);
      try (apply in_app_or in H as [H | [H | []]];
           [destruct f; simpl; tauto | subst f; reflexivity]).
Qed.

(** On success there is one value for each field, in the order of the
    request. *)
Lemma FetchFields_one_value_each w fields values w' :
  FetchFields w fields = (Some values, None, w') -> length values = length fields.
Proof.
  unfold FetchFields.
  repeat match goal with
         | |- context [request ?b ?c ?x] => destruct (request b c x) as [[? [?|]] ?]
         end; try discriminate.
  destruct fields; [discriminate |].
  intros [= <- _]. simpl. f_equal. apply length_map.
Qed.

(** C4, at the failing inputs.  [DeviceName] is served by [EMULATOR_INFO]
    and [CoreName] and [CoreVersion] by [CORE_CURRENT_INFO], but a request
    for them alone sends no command at all, whatever the connection: the
    connection is left as it was and every value is the empty string. *)
Theorem FetchFields_sends_nothing (w : world) :
  servedBy Field_DeviceName = Some "EMULATOR_INFO" /\
  FetchFields w [Field_DeviceName] = (Some [EmptyString], None, w) /\
  servedBy Field_CoreName = Some "CORE_CURRENT_INFO" /\
  servedBy Field_CoreVersion = Some "CORE_CURRENT_INFO" /\
  FetchFields w [Field_CoreName; Field_CoreVersion] =
    (Some [EmptyString; EmptyString], None, w).
Proof.
  repeat split; reflexivity.
Qed.

(** *** [MemoryDomains] *)

(** The rediscovery does not look at what was cached: the response, the
    error and the traffic are those of a client without any cache. *)
Lemma MemoryDomains_rediscovers cfg c w :
  determineDomainMapping cfg (resetCache c) w =
    let '(c', e, w') :=
      determineDomainMapping cfg
        {| currentCore := None; currentPlatform := None; currentDomains := None |} w in
    (match e with
     | Some _ => resetCache c
     | None => c'
     end, e, w').
Proof.
  unfold determineDomainMapping; simpl.
  destruct (currentPlatConfig cfg) as [platConfig |]; [| reflexivity].
  destruct (FetchFields w _) as [[fields [e |]] w1]; [reflexivity |].
  destruct (findCore _ _ _ _) as [core |]; [| reflexivity].
  destruct (platConfig !! _) as [plat |]; [| reflexivity].
  destruct (SendCommandWaitReply w1 _) as [rp w2].
  destruct (err rp); [reflexivity |].
  destruct (memoryLoop _ _ _ _); reflexivity.
Qed.

(** On success the domains of the response are those just discovered,
    which are also the ones cached. *)
Lemma MemoryDomains_fresh cfg c w uri c' rsp w' :
  MemoryDomains cfg c w uri = Some (c', Some rsp, None, w') ->
  exists core plat doms,
    determineDomainMapping cfg
      {| currentCore := None; currentPlatform := None; currentDomains := None |} w =
      ({| currentCore := Some core; currentPlatform := Some plat;
          currentDomains := Some doms |}, None, w') /\
    c' = {| currentCore := Some core; currentPlatform := Some plat;
            currentDomains := Some doms |} /\
    Domains rsp = map toMemoryDomain doms /\ CoreName rsp = core_Name core.
Proof.
  unfold MemoryDomains. rewrite (MemoryDomains_rediscovers cfg c w).
  destruct (determineDomainMapping cfg _ w) as [[c1 e] w1] eqn:E.
  destruct e as [e |]; [discriminate |].
  revert E. unfold determineDomainMapping; simpl.
  destruct (currentPlatConfig cfg) as [platConfig |]; [| discriminate].
  destruct (FetchFields w _) as [[fields [e |]] w2]; [discriminate |].
  destruct (findCore _ _ _ _) as [core |]; [| discriminate].
  destruct (platConfig !! _) as [plat |]; [| discriminate].
  destruct (SendCommandWaitReply w2 _) as [rp w3].
  destruct (err rp); [discriminate |].
  destruct (memoryLoop _ _ _ _) as [e | b]; [discriminate |].
  intros [= <- <-]. simpl. intros [= <- <- <-].
  exists core, plat, (b_domains b). repeat split.
Qed.

(** C3, at the failing input.  The assignment at the head of
    [MemoryDomains] clears the cached platform and the cached domains but
    not the cached core; when the rediscovery then fails, the client is
    left with the core of the earlier discovery. *)
Theorem MemoryDomains_keeps_cached_core :
  (forall c, currentCore (resetCache c) = currentCore c) /\
  exists e w',
    MemoryDomains sample_config cached_client broken_world "emunwa://host/" =
      Some ({| currentCore := Some cached_core; currentPlatform := None;
               currentDomains := None |}, None, Some e, w').
Proof.
  split; [reflexivity |].
  eexists; eexists. reflexivity.
Qed.

End EmuNWAProofs.

(** ** [MultiReadMemory] of the NWA client *)

Module ReadMemoryProofs.

Import Go EmuNWA.

(** *** Copying into a buffer *)

Lemma int64_small x : - 2 ^ 63 <= x < 2 ^ 63 -> int64 x = x.
Proof.
  intros H. unfold int64. rewrite Z.mod_small by lia. lia.
Qed.

Lemma copy_length (dst src : list Z) : length (copy dst src) = length dst.
Proof.
  unfold copy. rewrite length_app, length_firstn, length_skipn. lia.
Qed.

Lemma skipn_repeat {A} (x : A) k n : skipn k (repeat x n) = repeat x (n - k).
Proof.
  revert n. induction k as [| k IH]; intros [| n]; simpl; auto.
Qed.

(** A buffer of zeros that takes what a reply has from [off] on, at most
    its own length, holds the share of the reply. *)
Lemma copy_zeros_share (bin : list Z) (off n m : nat) :
  m = Nat.min n (length bin - off) ->
  copy (repeat 0 n) (firstn m (skipn off bin)) = share bin off n.
Proof.
  intros ->. set (rest := skipn off bin).
  assert (L : length rest = (length bin - off)%nat) by apply length_skipn.
  rewrite <- L.
  assert (E : firstn (Nat.min n (length rest)) rest = firstn n rest).
  { destruct (Nat.le_ge_cases n (length rest)) as [H | H].
    - rewrite Nat.min_l by exact H. reflexivity.
    - rewrite Nat.min_r by exact H. rewrite firstn_all, firstn_all2 by exact H.
      reflexivity. }
  rewrite E. unfold copy, share. fold rest.
  rewrite repeat_length, skipn_repeat. f_equal.
  apply firstn_all2. rewrite length_firstn. lia.
Qed.

Lemma share_length bin off n : length (share bin off n) = n.
Proof.
  unfold share. rewrite length_app, repeat_length, length_firstn. lia.
Qed.

Lemma alter_copy_lengths (src : list Z) (i : nat) (bufs : list (list Z)) :
  length <$> alter (fun dst => copy dst src) i bufs = length <$> bufs.
Proof.
  revert i. induction bufs as [| b bufs IH]; intros [| i]; simpl; try reflexivity.
  - f_equal. apply copy_length.
  - f_equal. apply IH.
Qed.

(** *** The loop over the regions of one group *)

Lemma copyRegions_lengths regions : forall bin offset bufs bufs',
  copyRegions bin offset regions bufs = Some bufs' ->
  length <$> bufs' = length <$> bufs.
Proof.
  induction regions as [| rg regions IH]; simpl; intros bin offset bufs bufs'.
  - intros [= <-]. reflexivity.
  - destruct (_ >=? _); [apply IH |].
    destruct (_ || _); [discriminate |].
    intros H. apply IH in H. rewrite H. apply alter_copy_lengths.
Qed.

Lemma copyRegions_frame regions : forall bin offset bufs bufs' j,
  copyRegions bin offset regions bufs = Some bufs' ->
  j ∉ (Data <$> regions) ->
  bufs' !! j = bufs !! j.
Proof.
  induction regions as [| rg regions IH]; simpl; intros bin offset bufs bufs' j.
  - intros [= <-] _. reflexivity.
  - intros H Hj. apply not_elem_of_cons in Hj as [Hne Hj].
    destruct (_ >=? _); [eapply IH; eassumption |].
    destruct (_ || _); [discriminate |].
    rewrite (IH _ _ _ _ _ H Hj). apply list_lookup_alter_ne. congruence.
Qed.

Lemma copyRegions_total regions : forall bin offset bufs,
  0 <= offset -> nonNegative regions -> offset + sumSizes regions < 2 ^ 63 ->
  is_Some (copyRegions bin offset regions bufs).
Proof.
  induction regions as [| rg regions IH]; simpl; intros bin offset bufs Ho Hn Hs.
  - eauto.
  - inversion Hn as [| ? ? Hrg Hn']; subst.
    assert (0 <= sumSizes regions).
    { clear -Hn'. induction Hn'; simpl; lia. }
    rewrite int64_small by lia.
    destruct (Z.geb_spec offset (Z.of_nat (length bin))); [apply IH; lia || assumption |].
    destruct (_ >? _).
    + replace (_ || _) with false
        by (symmetry; apply orb_false_iff; split; apply Z.ltb_ge; lia).
      apply IH; lia || assumption.
    + replace (_ || _) with false
        by (symmetry; apply orb_false_iff; split; apply Z.ltb_ge; lia).
      apply IH; lia || assumption.
Qed.

Lemma sumSizes_nonneg regions : nonNegative regions -> 0 <= sumSizes regions.
Proof. induction 1; simpl; lia. Qed.

Lemma sumSizes_app a b : sumSizes (a ++ b) = sumSizes a + sumSizes b.
Proof. induction a; simpl; lia. Qed.

(** The region that comes after the regions [before] takes the bytes of
    the reply that follow theirs. *)
Lemma copyRegions_at before : forall bin offset bufs bufs' rg after,
  0 <= offset ->
  nonNegative (before ++ rg :: after) ->
  offset + sumSizes (before ++ rg :: after) < 2 ^ 63 ->
  copyRegions bin offset (before ++ rg :: after) bufs = Some bufs' ->
  Data rg ∉ (Data <$> before) ->
  Data rg ∉ (Data <$> after) ->
  bufs !! Data rg = Some (repeat 0 (Z.to_nat (rg_Size rg))) ->
  bufs' !! Data rg =
    Some (share bin (Z.to_nat (offset + sumSizes before)) (Z.to_nat (rg_Size rg))).
Proof.
  induction before as [| a before IH]; simpl;
    intros bin offset bufs bufs' rg after Ho Hn Hs H Hb Ha Hz.
  - inversion Hn as [| ? ? Hrg Hn']; subst.
    pose proof (sumSizes_nonneg _ Hn').
    rewrite Z.add_0_r.
    destruct (Z.geb_spec offset (Z.of_nat (length bin))) as [G | G].
    + rewrite (copyRegions_frame _ _ _ _ _ _ H Ha), Hz. f_equal.
      rewrite <- (copy_zeros_share bin (Z.to_nat offset) _ 0) by lia.
      simpl. unfold copy. simpl. rewrite repeat_length. simpl.
      rewrite firstn_nil. reflexivity.
    + destruct (_ || _); [discriminate |].
      rewrite (copyRegions_frame _ _ _ _ _ _ H Ha).
      rewrite list_lookup_alter_eq, Hz. simpl. f_equal.
      unfold slice. apply copy_zeros_share.
      destruct (Z.gtb_spec (rg_Size rg) (Z.of_nat (length bin) - offset)); lia.
  - inversion Hn as [| ? ? Hrg Hn']; subst.
    pose proof (sumSizes_nonneg _ Hn').
    apply not_elem_of_cons in Hb as [Hne Hb].
    rewrite int64_small in H by lia.
    replace (offset + (rg_Size a + sumSizes before))
      with ((offset + rg_Size a) + sumSizes before) by lia.
    destruct (_ >=? _).
    + eapply IH; try eassumption; lia.
    + destruct (_ || _); [discriminate |].
      eapply IH; try eassumption; try lia.
      rewrite list_lookup_alter_ne by congruence. exact Hz.
Qed.

(** *** The first loop *)

Section Divide.

Variable f : Mapping.AddressTuple -> string * Z * Z.

Lemma divide_sizesOk reads : forall st st',
  divide f reads st = Some st' -> sizesOk reads.
Proof.
  induction reads as [| read reads IH]; simpl; intros st st' H; [constructor |].
  destruct (f (RequestAddress read)) as [[memType pak] offset].
  unfold make in H. destruct (Z.ltb_spec (rq_Size read) 0); [discriminate |].
  constructor; [lia | eapply IH; exact H].
Qed.

Lemma divide_fold reads : forall st,
  sizesOk reads -> divide f reads st = Some (fold_left (divideStep f) reads st).
Proof.
  induction reads as [| read reads IH]; simpl; intros st H; [reflexivity |].
  inversion H as [| ? ? Hr H']; subst.
  unfold divideStep at 2, responseOf, regionOf, zerosOf, typeOf.
  destruct (f (RequestAddress read)) as [[memType pak] offset]; simpl.
  unfold make. destruct (Z.ltb_spec (rq_Size read) 0); [lia |].
  apply IH, H'.
Qed.

Lemma elem_of_firstSeen t types : t ∈ firstSeen types <-> t ∈ types.
Proof.
  unfold firstSeen. induction types as [| x types IH] using rev_ind.
  - reflexivity.
  - rewrite fold_left_app; simpl. rewrite elem_of_app, list_elem_of_singleton.
    destruct (decide (x ∈ _)) as [Hx | Hx].
    + rewrite IH. split; [tauto |]. intros [? | ->]; [assumption | apply IH, Hx].
    + rewrite elem_of_app, list_elem_of_singleton, IH. reflexivity.
Qed.

Lemma firstSeen_snoc types t :
  firstSeen (types ++ [t]) =
  if decide (t ∈ types) then firstSeen types else firstSeen types ++ [t].
Proof.
  unfold firstSeen. rewrite fold_left_app; simpl. fold (firstSeen types).
  destruct (decide (t ∈ firstSeen types)) as [H | H], (decide (t ∈ types)) as [H' | H'];
    try reflexivity; exfalso; rewrite elem_of_firstSeen in H; contradiction.
Qed.

Lemma NoDup_firstSeen types : NoDup (firstSeen types).
Proof.
  induction types as [| x types IH] using rev_ind; [constructor |].
  rewrite firstSeen_snoc. destruct (decide _) as [H | H]; [exact IH |].
  apply NoDup_app. split; [exact IH |]. split; [| apply NoDup_singleton].
  intros y Hy Hx. apply list_elem_of_singleton in Hx as ->.
  apply H, elem_of_firstSeen, Hy.
Qed.

Lemma elem_of_groupOf t reads rg :
  rg ∈ groupOf f t reads <->
  exists j read, reads !! j = Some read /\ rg = regionOf f j read /\ typeOf f read = t.
Proof.
  unfold groupOf. rewrite list_elem_of_filter, elem_of_lookup_imap. split.
  - intros [Ht (j & read & -> & Hj)]. exists j, read. auto.
  - intros (j & read & Hj & -> & Ht). split; [exact Ht | eauto].
Qed.

Lemma groupOf_snoc t reads read :
  groupOf f t (reads ++ [read]) =
  groupOf f t reads ++
  (if decide (typeOf f read = t) then [regionOf f (length reads) read] else []).
Proof.
  unfold groupOf. rewrite imap_app, filter_app. f_equal. simpl.
  rewrite Nat.add_0_r. rewrite filter_cons, filter_nil. simpl.
  destruct (decide _); reflexivity.
Qed.

Lemma groupOf_absent t reads : t ∉ (typeOf f <$> reads) -> groupOf f t reads = [].
Proof.
  intros H. destruct (groupOf f t reads) as [| rg l] eqn:E; [reflexivity |].
  exfalso. assert (Hrg : rg ∈ groupOf f t reads) by (rewrite E; left).
  apply elem_of_groupOf in Hrg as (j & read & Hj & _ & Ht).
  apply H. subst t. apply list_elem_of_fmap. exists read. split; [reflexivity |].
  eapply list_elem_of_lookup_2, Hj.
Qed.

Lemma divided_state reads :
  mrsp (afterDivide f reads) = responseOf f <$> reads /\
  bufs (afterDivide f reads) = zerosOf <$> reads /\
  memTypes (afterDivide f reads) = firstSeen (typeOf f <$> reads) /\
  forall t,
    readGroups (afterDivide f reads) !! t =
    if decide (t ∈ typeOf f <$> reads) then Some (groupOf f t reads) else None.
Proof.
  unfold afterDivide.
  induction reads as [| read reads IH] using rev_ind.
  - simpl. split; [| split; [| split]]; reflexivity.
  - rewrite fold_left_app. simpl.
    set (st := fold_left (divideStep f) reads _) in *.
    destruct IH as (Hm & Hb & Ht & Hg). simpl.
    rewrite Hm, Hb, !fmap_app. simpl.
    split; [reflexivity |]. split; [reflexivity |]. split.
    + rewrite firstSeen_snoc, Hg, Ht. destruct (decide _); reflexivity.
    + intros t. rewrite length_fmap, groupOf_snoc.
      destruct (decide (typeOf f read = t)) as [<- | Hne].
      * rewrite lookup_insert_eq, Hg.
        match goal with
        | |- context [decide (?x ∈ ?l ++ ?k)] =>
            destruct (decide (x ∈ l ++ k)) as [_ | N];
              [| exfalso; apply N, elem_of_app; right; left]
        end.
        f_equal. f_equal.
        destruct (decide _) as [H | H]; [reflexivity |].
        simpl. symmetry. apply groupOf_absent, H.
      * rewrite lookup_insert_ne by exact Hne. rewrite Hg, app_nil_r.
        match goal with
        | |- context [decide (?x ∈ ?l ++ ?k)] =>
            destruct (decide (x ∈ l ++ k)) as [Hd | Hd]
        end.
        -- apply elem_of_app in Hd as [Hd | Hd];
             [| apply list_elem_of_singleton in Hd; congruence].
           destruct (decide _); [reflexivity | contradiction].
        -- destruct (decide _) as [H | H]; [| reflexivity].
           exfalso. apply Hd, elem_of_app. left. exact H.
Qed.

(** The group of read [j]: the regions of the earlier reads of its memory
    type, whose sizes sum up to [preceding], then its own region. *)
Lemma sumSizes_imap_filter t (l : list MemoryReadRequest) : forall g : nat -> nat,
  sumSizes (filter (fun rg => MemoryType rg = t) (imap (fun i => regionOf f (g i)) l)) =
  foldr (fun read n => rq_Size read + n) 0 (filter (fun read => typeOf f read = t) l).
Proof.
  induction l as [| read l IH]; intros g; [reflexivity |].
  rewrite imap_cons, !filter_cons. simpl.
  destruct (decide (typeOf f read = t)); simpl; f_equal; apply (IH (g ∘ S)).
Qed.

Lemma groupOf_split reads j read :
  reads !! j = Some read ->
  exists before after,
    groupOf f (typeOf f read) reads = before ++ regionOf f j read :: after /\
    sumSizes before = preceding f reads j (typeOf f read) /\
    (j ∉ (Data <$> before)) /\ (j ∉ (Data <$> after)).
Proof.
  intros Hj. pose proof (take_drop_middle reads j read Hj) as E.
  pose proof (lookup_lt_Some _ _ _ Hj) as Hlt.
  exists (filter (fun rg => MemoryType rg = typeOf f read)
            (imap (regionOf f) (firstn j reads))),
         (filter (fun rg => MemoryType rg = typeOf f read)
            (imap (fun i => regionOf f (j + S i)) (skipn (S j) reads))).
  split; [| split; [| split]].
  - unfold groupOf. rewrite <- E at 1.
    rewrite imap_app, filter_app, imap_cons, filter_cons.
    rewrite length_take, Nat.min_l, Nat.add_0_r by lia.
    rewrite decide_True by reflexivity.
    reflexivity.
  - unfold preceding. apply (sumSizes_imap_filter _ _ (fun i => i)).
  - intros H. apply list_elem_of_fmap in H as (rg & Hd & Hrg).
    apply list_elem_of_filter in Hrg as [_ Hrg].
    apply elem_of_lookup_imap in Hrg as (i & x & -> & Hi).
    apply lookup_lt_Some in Hi. rewrite length_take in Hi. simpl in Hd. lia.
  - intros H. apply list_elem_of_fmap in H as (rg & Hd & Hrg).
    apply list_elem_of_filter in Hrg as [_ Hrg].
    apply elem_of_lookup_imap in Hrg as (i & x & -> & Hi).
    simpl in Hd. lia.
Qed.

Lemma groupOf_other reads j read t :
  reads !! j = Some read -> t <> typeOf f read -> j ∉ (Data <$> groupOf f t reads).
Proof.
  intros Hj Hne H. apply list_elem_of_fmap in H as (rg & Hd & Hrg).
  apply elem_of_groupOf in Hrg as (i & x & Hi & -> & Ht).
  simpl in Hd. subst i. congruence.
Qed.

Lemma groupOf_sizes t reads :
  sizesOk reads ->
  nonNegative (groupOf f t reads) /\ sumSizes (groupOf f t reads) <= totalSize reads.
Proof.
  intros H. split.
  - apply Forall_forall. intros rg Hrg.
    apply elem_of_groupOf in Hrg as (j & read & Hj & -> & _). simpl.
    eapply (proj1 (Forall_forall _ _) H), list_elem_of_lookup_2, Hj.
  - assert (E : sumSizes (groupOf f t reads) =
               foldr (fun read n => rq_Size read + n) 0
                 (filter (fun read => typeOf f read = t) reads))
      by apply (sumSizes_imap_filter t reads (fun i => i)).
    rewrite E. clear E. unfold totalSize. induction H as [| read reads Hr _ IH]; [reflexivity |].
    rewrite filter_cons. destruct (decide _); simpl; lia.
Qed.

(** *** The commands and the replies *)

Lemma writeCommands_answers groups types : forall frames w,
  length frames = length types ->
  script w = inr <$> frames ->
  exists w',
    writeCommands groups types w = (w', None) /\
    rx w' = rx w ++ concat frames /\
    deadlines w' = deadlines w /\ eof w' = eof w.
Proof.
  induction types as [| t types IH]; intros [| fr frames] w Hl Hs; try discriminate Hl.
  - exists w. simpl. rewrite app_nil_r. auto.
  - simpl. unfold writeWithDeadline. rewrite Hs. simpl.
    edestruct (IH frames) as (w' & E & Hr & Hd & He);
      [injection Hl as Hl; exact Hl | | exists w'; rewrite E; split; [reflexivity |]].
    + reflexivity.
    + simpl in *. rewrite Hr, Hd, He, <- app_assoc. auto.
Qed.

Lemma readResponse_frame w frame payload rest :
  deadlines w = [] ->
  rx w = frame ++ rest ->
  isFrame frame payload ->
  readResponse w =
    ({| bin := Some payload; ascii := None; err := None |},
     {| script := script w; deadlines := []; eof := eof w; rx := rest; tx := tx w |}).
Proof.
  intros Hd Hr (b0 & b1 & b2 & b3 & -> & Hsz).
  unfold readResponse. rewrite Hd, Hr. simpl. rewrite Hsz.
  rewrite length_app, Nat2Z.id.
  destruct (Z.leb_spec (Z.of_nat (length payload))
              (Z.of_nat (length payload + length rest))); [| lia].
  rewrite take_app_length, drop_app_length. reflexivity.
Qed.

Lemma replyFor_head t types b bins : replyFor (t :: types) (b :: bins) t = b.
Proof. simpl. rewrite decide_True; reflexivity. Qed.

Lemma replyFor_tail t t' types b bins :
  t' <> t -> replyFor (t' :: types) (b :: bins) t = replyFor types bins t.
Proof. intros H. simpl. rewrite decide_False; [reflexivity | exact H]. Qed.

(** The third loop, buffer by buffer: a buffer that no group of [types]
    shares is left alone, and a buffer of zeros that one region shares
    ends up with the share of the reply to the group of that region. *)
Lemma readBack_spec st types : forall bins frames bufs w,
  Forall2 isFrame frames bins ->
  length types = length bins ->
  rx w = concat frames ->
  deadlines w = [] ->
  NoDup types ->
  (forall t, t ∈ types ->
     nonNegative (regionsIn st t) /\ sumSizes (regionsIn st t) < 2 ^ 63) ->
  exists bufs' w',
    readBack st types bufs w = Returned (zip_with withData (mrsp st) bufs') None w' /\
    length bufs' = length bufs /\
    (forall j, (forall t, t ∈ types -> j ∉ (Data <$> regionsIn st t)) ->
       bufs' !! j = bufs !! j) /\
    (forall t before rg after,
       t ∈ types ->
       regionsIn st t = before ++ rg :: after ->
       Data rg ∉ (Data <$> before) ->
       Data rg ∉ (Data <$> after) ->
       (forall t', t' ∈ types -> t' <> t -> Data rg ∉ (Data <$> regionsIn st t')) ->
       bufs !! Data rg = Some (repeat 0 (Z.to_nat (rg_Size rg))) ->
       bufs' !! Data rg =
         Some (share (replyFor types bins t) (Z.to_nat (sumSizes before))
                 (Z.to_nat (rg_Size rg)))).
Proof.
  induction types as [| t1 types IH]; intros bins frames bufs w Hf Hl Hr Hd Hn Hg.
  - exists bufs, w. simpl. split; [reflexivity |]. split; [reflexivity |].
    split; [reflexivity |]. intros t ? ? ? Ht. inversion Ht.
  - destruct Hf as [| fr b1 frames bins Hfr Hf]; [discriminate Hl |].
    injection Hl as Hl. simpl in Hr.
    apply NoDup_cons in Hn as [Hnot Hn].
    cbn [readBack]. rewrite (readResponse_frame w fr b1 (concat frames) Hd Hr Hfr).
    cbn [err ascii bin default from_option id]. fold (regionsIn st t1).
    destruct (Hg t1) as [Hnn Hsum]; [left |].
    destruct (copyRegions_total (regionsIn st t1) b1 0 bufs) as [bufs1 E1];
      [lia | exact Hnn | lia |].
    rewrite E1.
    edestruct (IH bins frames bufs1
                 {| script := script w; deadlines := []; eof := eof w;
                    rx := concat frames; tx := tx w |})
      as (bufs' & w' & E & Hlen & Hframe & Hat);
      [exact Hf | exact Hl | reflexivity | reflexivity | exact Hn
      | intros t Ht; apply Hg; right; exact Ht |].
    exists bufs', w'. split; [exact E |].
    pose proof (copyRegions_lengths _ _ _ _ _ E1) as L1.
    split; [rewrite Hlen; apply (f_equal length) in L1; rewrite !length_fmap in L1; exact L1 |].
    split.
    + intros j Hj.
      rewrite Hframe by (intros t Ht; apply Hj; right; exact Ht).
      eapply copyRegions_frame; [exact E1 | apply Hj; left].
    + intros t before rg after Ht Hsplit Hb Ha Hother Hz.
      apply elem_of_cons in Ht as [-> | Ht].
      * rewrite replyFor_head.
        rewrite Hframe.
        -- rewrite (copyRegions_at before b1 0 bufs bufs1 rg after); try assumption;
             try lia; rewrite <- ?Hsplit; try assumption.
           reflexivity.
        -- intros t Ht. apply Hother; [right; exact Ht |].
           intros ->. contradiction.
      * assert (Hne : t1 <> t) by (intros ->; contradiction).
        rewrite replyFor_tail by exact Hne.
        apply (Hat t before rg after); try assumption.
        -- intros t' Ht' Hne'. apply Hother; [right; exact Ht' | exact Hne'].
        -- rewrite (copyRegions_frame _ _ _ _ _ _ E1); [exact Hz |].
           apply Hother; [left | exact Hne].
Qed.

(** Whatever the replies, the third loop changes the length of no buffer. *)
Lemma readBack_lengths st types : forall bufs w rsp e w',
  readBack st types bufs w = Returned rsp e w' ->
  exists bufs',
    rsp = zip_with withData (mrsp st) bufs' /\ length <$> bufs' = length <$> bufs.
Proof.
  induction types as [| t types IH]; simpl; intros bufs w rsp e w'.
  - intros [= <- _ _]. eauto.
  - destruct (readResponse w) as [rp w1].
    destruct (err rp); [intros [= <- _ _]; eauto |].
    destruct (ascii rp); [intros [= <- _ _]; eauto |].
    destruct (copyRegions _ _ _ _) as [bufs1 |] eqn:E; [| discriminate].
    intros H. apply IH in H as (bufs' & -> & L).
    exists bufs'. split; [reflexivity |].
    rewrite L. eapply copyRegions_lengths, E.
Qed.

End Divide.

Lemma regionsIn_afterDivide f reads t :
  regionsIn (afterDivide f reads) t = groupOf f t reads.
Proof.
  unfold regionsIn. destruct (divided_state f reads) as (_ & _ & _ & Hg).
  rewrite Hg. destruct (decide _) as [H | H]; [reflexivity |].
  symmetry. apply groupOf_absent, H.
Qed.

(** C6.  When a call of [MultiReadMemory] succeeds, there is a response
    for every read and its buffer has the length the read asked for.  And
    when the emulator answers the command of every memory type with a
    binary reply, the call succeeds and the buffer of each read holds the
    bytes of the reply to its memory type that follow those of the earlier
    reads of that type, with zeros where the reply has no bytes left. *)
Theorem MultiReadMemory_fills_buffers
    (f : Mapping.AddressTuple -> string * Z * Z) (reads : list MemoryReadRequest) :
  (forall w rsp w',
     MultiReadMemory f w reads = Returned rsp None w' ->
     length rsp = length reads /\
     forall j read r,
       reads !! j = Some read -> rsp !! j = Some r ->
       Z.of_nat (length (rs_Data r)) = rq_Size read) /\
  (forall w frames bins,
     sizesOk reads ->
     totalSize reads < 2 ^ 63 ->
     script w = inr <$> frames ->
     rx w = [] ->
     deadlines w = [] ->
     Forall2 isFrame frames bins ->
     length bins = length (firstSeen (typeOf f <$> reads)) ->
     exists rsp w',
       MultiReadMemory f w reads = Returned rsp None w' /\
       forall j read,
         reads !! j = Some read ->
         exists r,
           rsp !! j = Some r /\
           rs_Data r =
             share (replyFor (firstSeen (typeOf f <$> reads)) bins (typeOf f read))
                   (Z.to_nat (preceding f reads j (typeOf f read)))
                   (Z.to_nat (rq_Size read))).
Proof.
  destruct (divided_state f reads) as (Hm & Hb & Ht & Hg).
  split.
  - intros w rsp w' H. unfold MultiReadMemory in H.
    destruct (divide f reads _) as [st |] eqn:Ed; [| discriminate H].
    pose proof (divide_sizesOk f _ _ _ Ed) as Hok.
    rewrite (divide_fold f reads _ Hok) in Ed. fold (afterDivide f reads) in Ed.
    injection Ed as <-.
    destruct (writeCommands _ _ w) as [w1 [e |]]; [discriminate H |].
    apply readBack_lengths in H as (bufs' & -> & L).
    rewrite Hm, Hb in *.
    assert (Ll : length bufs' = length reads).
    { apply (f_equal length) in L. rewrite !length_fmap in L. exact L. }
    split; [rewrite length_zip_with, length_fmap; lia |].
    intros j read r Hj Hr.
    apply lookup_zip_with_Some in Hr as (x & b & -> & Hx & Hbj).
    simpl. apply (f_equal (fun l => l !! j)) in L.
    rewrite !list_lookup_fmap, Hbj, Hj in L. simpl in L.
    injection L as ->. unfold zerosOf. rewrite repeat_length.
    apply Z2Nat.id. exact (proj1 (Forall_forall _ _) Hok read
                             (list_elem_of_lookup_2 _ _ _ Hj)).
  - intros w frames bins Hok Htot Hs Hrx Hd Hf Hlen.
    unfold MultiReadMemory. rewrite (divide_fold f reads _ Hok).
    fold (afterDivide f reads). rewrite Ht.
    destruct (writeCommands_answers (readGroups (afterDivide f reads))
                (firstSeen (typeOf f <$> reads)) frames w)
      as (w1 & E & Hr1 & Hd1 & _);
      [rewrite (Forall2_length _ _ _ Hf); exact Hlen | exact Hs |].
    rewrite E.
    destruct (readBack_spec (afterDivide f reads) (firstSeen (typeOf f <$> reads))
                bins frames (bufs (afterDivide f reads)) w1)
      as (bufs' & w' & E2 & _ & _ & Hat);
      [exact Hf | symmetry; exact Hlen | rewrite Hr1, Hrx; reflexivity
      | rewrite Hd1; exact Hd | apply NoDup_firstSeen | |].
    { intros t _. rewrite regionsIn_afterDivide.
      destruct (groupOf_sizes f t reads Hok). split; [assumption | lia]. }
    exists (zip_with withData (mrsp (afterDivide f reads)) bufs'), w'.
    split; [exact E2 |].
    intros j read Hj.
    destruct (groupOf_split f reads j read Hj) as (before & after & Hsplit & Hsum & Hbe & Haf).
    assert (Hbuf : bufs' !! j =
              Some (share (replyFor (firstSeen (typeOf f <$> reads)) bins (typeOf f read))
                      (Z.to_nat (preceding f reads j (typeOf f read)))
                      (Z.to_nat (rq_Size read)))).
    { rewrite <- Hsum.
      apply (Hat (typeOf f read) before (regionOf f j read) after).
      - apply elem_of_firstSeen, list_elem_of_fmap_2.
        eapply list_elem_of_lookup_2, Hj.
      - rewrite regionsIn_afterDivide. exact Hsplit.
      - exact Hbe.
      - exact Haf.
      - intros t' _ Hne. rewrite regionsIn_afterDivide.
        apply (groupOf_other f reads j read t' Hj Hne).
      - simpl. rewrite Hb, list_lookup_fmap, Hj. reflexivity. }
    eexists. split.
    + rewrite lookup_zip_with, Hm, list_lookup_fmap, Hj, Hbuf. reflexivity.
    + reflexivity.
Qed.

Lemma MultiReadMemory_fills_buffers_witness :
  exists rsp w',
    MultiReadMemory sample_type sample_world sample_reads = Returned rsp None w' /\
    rs_Data <$> rsp = [ [17; 34]; [68]; [51; 0; 0; 0] ].
Proof.
  destruct (proj2 (MultiReadMemory_fills_buffers sample_type sample_reads)
              sample_world sample_frames [ [17; 34; 51]; [68] ])
    as (rsp & w' & E & H).
  - repeat constructor; simpl; lia.
  - reflexivity.
  - reflexivity.
  - reflexivity.
  - reflexivity.
  - repeat constructor; eexists _, _, _, _; split; reflexivity.
  - reflexivity.
  - exists rsp, w'. split; [exact E |].
    revert E. vm_compute. intros [= <- _]. reflexivity.
Defined.

End ReadMemoryProofs.

(** * Further properties *)

(** ** Big-endian lengths *)

Module GoMore.

Import Go.

Lemma byte_bit x i : 0 <= i -> Z.testbit (x mod 256) i = (i <? 8) && Z.testbit x i.
Proof.
  intros Hi. change 256 with (2 ^ 8).
  destruct (Z.ltb_spec i 8).
  - rewrite Z.mod_pow2_bits_low by lia. reflexivity.
  - rewrite Z.mod_pow2_bits_high by lia. reflexivity.
Qed.

Lemma shifted_byte_bit n k i :
  0 <= k -> 0 <= i ->
  Z.testbit (Z.shiftl (Z.shiftr n k mod 256) k) i =
  (k <=? i) && (i <? k + 8) && Z.testbit n i.
Proof.
  intros Hk Hi. rewrite Z.shiftl_spec by lia.
  destruct (Z.leb_spec k i).
  - rewrite byte_bit, Z.shiftr_spec by lia.
    replace (i - k + k) with i by lia.
    destruct (Z.ltb_spec (i - k) 8), (Z.ltb_spec i (k + 8)); try lia; reflexivity.
  - rewrite Z.testbit_neg_r by lia. reflexivity.
Qed.

(** What [putUint32] writes, [be_uint32] reads. *)
Lemma be_uint32_put n :
  0 <= n < 2 ^ 32 ->
  be_uint32 (Z.shiftr n 24 mod 256) (Z.shiftr n 16 mod 256) (Z.shiftr n 8 mod 256)
            (n mod 256) = n.
Proof.
  intros Hn. apply Z.bits_inj'. intros i Hi. unfold be_uint32.
  rewrite !Z.lor_spec, !shifted_byte_bit, byte_bit by lia.
  destruct (Z.ltb_spec i 32).
  - destruct (Z.leb_spec 24 i), (Z.leb_spec 16 i), (Z.leb_spec 8 i),
      (Z.ltb_spec i (24 + 8)), (Z.ltb_spec i (16 + 8)), (Z.ltb_spec i (8 + 8)),
      (Z.ltb_spec i 8); try lia; simpl;
      rewrite ?Bool.orb_false_r; reflexivity.
  - assert (Z.testbit n i = false) as ->.
    { destruct (Z.eq_dec n 0) as [-> | Hz]; [apply Z.bits_0 |].
      apply Z.bits_above_log2; [lia |].
      assert (Z.log2 n < 32) by (apply Z.log2_lt_pow2; lia). lia. }
    rewrite !Bool.andb_false_r. reflexivity.
Qed.

End GoMore.

(** ** [mapping.TranslateAddress], there and back *)

Module MappingMore.

Import Mapping.

(** X1.  With a library whose mappings undo themselves, an A-bus address
    that [TranslateAddress] takes to the pak space comes back unchanged
    when the result is translated to the A-bus with the same mapping:
    both directions of the switch call the same library. *)
Theorem TranslateAddress_there_and_back (L : Library) (m : MemoryMapping) (a p : Z) :
  roundTrips L ->
  TranslateAddress L {| Address := a; Space := AddressSpace_SnesABus; Mapping := m |}
    AddressSpace_FxPakPro = (p, None) ->
  TranslateAddress L {| Address := p; Space := AddressSpace_FxPakPro; Mapping := m |}
    AddressSpace_SnesABus = (a, None).
Proof.
  intros (Hlo & Hhi & Hex & Hsa). unfold TranslateAddress, lib_result; simpl.
  destruct m; try discriminate;
    match goal with
    | |- context [option_map _ (snd (?f L a))] =>
        destruct (f L a) as [q [e |]] eqn:E; simpl; intros [= <-]
    end.
  - rewrite (Hhi a q E). reflexivity.
  - rewrite (Hlo a q E). reflexivity.
  - rewrite (Hex a q E). reflexivity.
  - rewrite (Hsa a q E). reflexivity.
Qed.

Lemma shift_library_roundTrips : roundTrips shift_library.
Proof.
  repeat split; intros a p [= <-]; simpl; f_equal; lia.
Defined.

Lemma TranslateAddress_there_and_back_witness :
  TranslateAddress shift_library
    {| Address := 0x7E0124; Space := AddressSpace_FxPakPro; Mapping := MemoryMapping_LoROM |}
    AddressSpace_SnesABus = (0x7E0123, None).
Proof.
  exact (TranslateAddress_there_and_back shift_library MemoryMapping_LoROM
           0x7E0123 0x7E0124 shift_library_roundTrips eq_refl).
Defined.

End MappingMore.

(** ** [udpclient.UDPClient], closing and reconnecting *)

Module UDPMore.

Import Go UDP.

(** X2.  [Close] on a client that is not connected does nothing, not
    even mark it closed; on a connected client it drops the socket and
    marks the client closed, and it closes the socket when there is one;
    and a second [Close] in a row makes no call and changes nothing. *)
Theorem Close_twice (cl : UDPClient) (s s' : socket) :
  Close (Close cl s).1.1 s' = ((Close cl s).1.1, None, []) /\
  (isConnected cl = false -> Close cl s = (cl, None, [])) /\
  (isConnected cl = true ->
   c (Close cl s).1.1 = None /\
   isConnected (Close cl s).1.1 = false /\
   isClosed (Close cl s).1.1 = true /\
   ((Close cl s).2 = [CloseSocket] <-> c cl <> None)).
Proof.
  unfold Close. destruct (isConnected cl) eqn:E; simpl.
  - split; [destruct (c cl); reflexivity |].
    split; [discriminate |]. intros _.
    destruct (c cl); simpl; repeat split; congruence.
  - rewrite E. simpl. split; [reflexivity |]. split; [reflexivity | discriminate].
Qed.

(** X3.  On a client a program can hold, open and with a socket, a write
    or a read that fails with a timeout or with [net.ErrClosed] closes the
    socket exactly once, after the failed call, and leaves the client
    without a socket and not connected. *)
Theorem failure_closes_socket_once (cl : UDPClient) (m : list Z) (s : socket)
    (e : neterr) (h : Z) :
  reachable cl ->
  isClosed cl = false ->
  c cl = Some h ->
  closing e ->
  (on_SetWriteDeadline s = None -> on_Write s = Some e ->
   exists cl',
     WriteWithDeadline cl m s =
       Ret cl' (Some e) [SetWriteDeadline; Write m; CloseSocket] /\
     c cl' = None /\ isConnected cl' = false /\ isClosed cl' = true) /\
  (on_SetReadDeadline s = None -> on_ReadFromUDP s = inl e ->
   exists cl',
     ReadWithDeadline cl s =
       Ret cl' (None, Some e) [SetReadDeadline; ReadFromUDP; CloseSocket] /\
     c cl' = None /\ isConnected cl' = false /\ isClosed cl' = true).
Proof.
  intros Hr Ho Hc He.
  assert (Hcon : isConnected cl = true).
  { apply (UDPProofs.reachable_linked cl Hr). rewrite Hc. discriminate. }
  assert (K : closeOnFailure cl s e =
              ({| name := name cl; c := None; addr := addr cl; muteLog := muteLog cl;
                  isConnected := false; isClosed := true |}, [CloseSocket])).
  { unfold closeOnFailure, closing in *.
    destruct e; try discriminate He; simpl; unfold Close; rewrite Hcon, Hc; reflexivity. }
  split; intros Hd Hf.
  - unfold WriteWithDeadline. rewrite Ho, Hc, Hd, Hf, K. eexists. repeat split.
  - unfold ReadWithDeadline. rewrite Ho, Hc, Hd, Hf, K. eexists. repeat split.
Qed.

Lemma failure_closes_socket_once_witness :
  exists cl',
    WriteWithDeadline sample_client [1] sample_socket =
      Ret cl' (Some ErrTimeout) [SetWriteDeadline; Write [1]; CloseSocket] /\
    c cl' = None /\ isConnected cl' = false /\ isClosed cl' = true.
Proof.
  exact (proj1 (failure_closes_socket_once sample_client [1] sample_socket ErrTimeout 7
                  UDPProofs.sample_client_reachable eq_refl eq_refl eq_refl)
           eq_refl eq_refl).
Defined.

(** X4.  [Connect] does not reopen a closed client: on a client that was
    closed it dials and stores the new socket and the client is connected
    again, but it stays closed, every write and read still fails with
    [net.ErrClosed] without a call on the new socket, and a later [Close]
    closes that socket. *)
Theorem reconnect_stays_closed (cl : UDPClient) (a h : Z) :
  isClosed cl = true ->
  isConnected cl = false ->
  exists cl',
    Connect cl a (inr h) = (cl', None, [DialUDP a]) /\
    c cl' = Some h /\ isConnected cl' = true /\ isClosed cl' = true /\
    failsFast cl' /\
    forall s, (Close cl' s).2 = [CloseSocket].
Proof.
  intros Hc Hn. unfold Connect. rewrite Hn. eexists. split; [reflexivity |].
  simpl. split; [reflexivity |]. split; [reflexivity |]. split; [exact Hc |].
  split; [apply UDPProofs.closed_failsFast; exact Hc | reflexivity].
Qed.

Lemma reconnect_stays_closed_witness :
  exists cl',
    Connect closed_client 2 (inr 9) = (cl', None, [DialUDP 2]) /\
    c cl' = Some 9 /\ isConnected cl' = true /\ isClosed cl' = true /\
    failsFast cl' /\
    forall s, (Close cl' s).2 = [CloseSocket].
Proof.
  exact (reconnect_stays_closed closed_client 2 9 eq_refl eq_refl).
Defined.

(** X5.  Only a failed socket write or read can close the client.  On an
    open client with a socket, a failing [SetWriteDeadline] or
    [SetReadDeadline] returns its error, be it a timeout or
    [net.ErrClosed], and leaves the client as it was; so does a write or a
    read that fails with any other error, and one that succeeds. *)
Theorem only_io_failures_close (cl : UDPClient) (m : list Z) (s : socket) (h : Z) :
  isClosed cl = false ->
  c cl = Some h ->
  (forall e, on_SetWriteDeadline s = Some e ->
     WriteWithDeadline cl m s = Ret cl (Some e) [SetWriteDeadline]) /\
  (forall e, on_SetReadDeadline s = Some e ->
     ReadWithDeadline cl s = Ret cl (None, Some e) [SetReadDeadline]) /\
  (forall e, on_SetWriteDeadline s = None -> on_Write s = Some e -> ~ closing e ->
     WriteWithDeadline cl m s = Ret cl (Some e) [SetWriteDeadline; Write m]) /\
  (forall e, on_SetReadDeadline s = None -> on_ReadFromUDP s = inl e -> ~ closing e ->
     ReadWithDeadline cl s = Ret cl (None, Some e) [SetReadDeadline; ReadFromUDP]) /\
  (on_SetWriteDeadline s = None -> on_Write s = None ->
     WriteWithDeadline cl m s = Ret cl None [SetWriteDeadline; Write m]).
Proof.
  intros Ho Hc.
  assert (K : forall e, ~ closing e -> closeOnFailure cl s e = (cl, [])).
  { intros e He. unfold closeOnFailure, closing in *.
    destruct e; simpl in *; try reflexivity; exfalso; apply He; reflexivity. }
  unfold WriteWithDeadline, ReadWithDeadline. rewrite Ho, Hc.
  repeat split.
  - intros e ->. reflexivity.
  - intros e ->. reflexivity.
  - intros e -> -> He. rewrite (K e He). reflexivity.
  - intros e -> -> He. rewrite (K e He). reflexivity.
  - intros -> ->. reflexivity.
Qed.

Lemma only_io_failures_close_witness :
  WriteWithDeadline sample_client [1] refusing_socket =
    Ret sample_client (Some (ErrOther 111)) [SetWriteDeadline; Write [1]].
Proof.
  refine (proj1 (proj2 (proj2 (only_io_failures_close sample_client [1] refusing_socket 7
                                 eq_refl eq_refl))) (ErrOther 111) eq_refl eq_refl _).
  intros H. discriminate H.
Defined.

End UDPMore.

(** ** Package [fxpakpro]: the memory domains *)

Module FxPakProMore.

Import Go FxPakPro.

Lemma init_step_tablesFrom l t d :
  In d l -> tablesFrom l t -> tablesFrom l (init_step t d).
Proof.
  intros Hd [Hn Ht]. split; simpl.
  - intros k d'. destruct (Name (domainRef d)) as [nm |] eqn:E; [| apply Hn].
    destruct (decide (nm = k)) as [-> | Hne].
    + rewrite lookup_insert_eq. intros [= <-]. split; assumption.
    + rewrite lookup_insert_ne by assumption. apply Hn.
  - intros ty d'. destruct (Type_ (domainRef d)) as [ty' |] eqn:E; [| apply Ht].
    destruct (decide (ty' = ty)) as [-> | Hne].
    + rewrite lookup_insert_eq. intros [= <-]. split; assumption.
    + rewrite lookup_insert_ne by assumption. apply Ht.
Qed.

Lemma fold_tablesFrom l l' t :
  (forall d, In d l' -> In d l) -> tablesFrom l t ->
  tablesFrom l (fold_left init_step l' t).
Proof.
  revert t. induction l' as [| d l' IH]; simpl; intros t Hin Ht; [exact Ht |].
  apply IH; [intros d' Hd'; apply Hin; right; exact Hd' |].
  apply init_step_tablesFrom; [apply Hin; left; reflexivity | exact Ht].
Qed.

Lemma init_tablesFrom : tablesFrom domainDescs init.
Proof.
  apply fold_tablesFrom; [auto |].
  split; simpl; intros ? ?; rewrite lookup_empty; discriminate.
Qed.

Lemma lookupDomain_In dom dm :
  lookupDomain init dom = inr dm -> In dm domainDescs.
Proof.
  destruct init_tablesFrom as [Hn Ht]. unfold lookupDomain.
  destruct (Type_ dom) as [ty |]; [| discriminate].
  destruct ty;
    try (destruct (domainDescByType init !! _) eqn:E; [| discriminate];
         intros [= <-]; apply (Ht _ _ E)).
  destruct (Name dom) as [nm |]; [| discriminate].
  destruct (domainDescByName init !! _) eqn:E; [| discriminate].
  intros [= <-]. apply (Hn _ _ E).
Qed.

(** X6.  The look-up at the head of [MultiDomainRead] and
    [MultiDomainWrite] answers with a row of [domainDescs] or with an
    [InvalidArgument]: a row of the asked type, or, for the core-specific
    type, the row whose name is the asked name in upper case. *)
Theorem lookupDomain_rows (dom : MemoryDomainRef) :
  match lookupDomain init dom with
  | inr dm =>
      In dm domainDescs /\
      match Type_ dom with
      | Some SNESCoreSpecificMemory =>
          exists nm, Name dom = Some nm /\ Name (domainRef dm) = Some (ToUpper nm)
      | ty => Type_ (domainRef dm) = ty
      end
  | inl e => exists msg, e = Status InvalidArgument msg
  end.
Proof.
  destruct (lookupDomain init dom) as [e | dm] eqn:L.
  - revert L. unfold lookupDomain.
    repeat match goal with
           | |- context [match ?x with _ => _ end] => destruct x
           end; intros [= <-]; eauto.
  - split; [apply (lookupDomain_In dom dm L) |].
    destruct init_tablesFrom as [Hn Ht]. revert L. unfold lookupDomain.
    destruct (Type_ dom) as [ty |]; [| discriminate].
    destruct ty;
      try (destruct (domainDescByType init !! _) eqn:E; [| discriminate];
           intros [= <-]; apply (Ht _ _ E)).
    destruct (Name dom) as [nm |]; [| discriminate].
    destruct (domainDescByName init !! _) eqn:E; [| discriminate].
    intros [= <-]. exists nm. split; [reflexivity | apply (Hn _ _ E)].
Qed.

(** X7.  Every domain that [MemoryDomains] reports can be asked for: its
    reference, passed to the look-up of the domain operations, finds the
    row it was built from, with the same size and write flag. *)
Theorem MemoryDomains_resolve (d : Device) (uri : string) :
  Forall (fun m =>
            exists dm, lookupDomain init (Domain m) = inr dm /\
                       domainRef dm = Domain m /\ size dm = Size m /\
                       writeable dm = Writeable m)
         (Domains (fst (MemoryDomains d uri))).
Proof.
  simpl. repeat constructor; eexists; (split; [vm_compute; reflexivity |]);
    repeat split.
Qed.

(** X8.  With the core-specific type a domain is found by name whatever
    the case of its letters: every row of [domainDescs] is the answer for
    each spelling of its name. *)
Theorem lookupDomain_any_case (dm : domainDesc) (nm : string) :
  In dm domainDescs ->
  Name (domainRef dm) = Some (ToUpper nm) ->
  lookupDomain init (byName nm) = inr dm.
Proof.
  intros Hin Hn. unfold lookupDomain, byName; simpl.
  unfold domainDescs in Hin. simpl in Hin.
  repeat destruct Hin as [<- | Hin]; try contradiction;
    simpl in Hn; injection Hn as <-; vm_compute; reflexivity.
Qed.

Lemma lookupDomain_any_case_witness :
  lookupDomain init (byName "wRam") =
    inr {| domainRef := ref "WRAM" SNESWorkRAM; notes := "Console Work RAM";
           start := 0xF50000; size := 0x020000; writeable := false |}.
Proof.
  apply (lookupDomain_any_case _ "wRam"); [| reflexivity].
  right. right. left. reflexivity.
Defined.

End FxPakProMore.

(** ** Package [fxpakpro]: the domain reads and writes *)

Module DomainIO.

Import Go FxPakPro.

Lemma rows_fit : Forall (fun dm => 0 <= start dm /\ start dm + size dm <= 2 ^ 32) domainDescs.
Proof. repeat constructor; simpl; lia. Qed.

Lemma rows_small : Forall (fun dm => size dm < 2 ^ 32) domainDescs.
Proof. repeat constructor. Qed.

Lemma checkReads_inDomain dm reads mreqs :
  0 <= start dm -> start dm + size dm <= 2 ^ 32 ->
  Forall plainRead reads ->
  checkReads dm reads = inr mreqs ->
  Forall2 (inDomain dm) reads mreqs.
Proof.
  intros Hs He H. revert mreqs.
  induction H as [| r reads (Ha & Hz & Hr) _ IH]; simpl; intros mreqs.
  - intros [= <-]. constructor.
  - destruct (Z.geb_spec (rd_Address r) (size dm)) as [G | G]; [discriminate |].
    rewrite FxPakProProofs.u32_small by lia.
    destruct (Z.gtb_spec (rd_Address r + rd_Size r) (size dm)) as [G' | G']; [discriminate |].
    destruct (checkReads dm reads) as [e | ms]; [discriminate |].
    intros [= <-]. constructor; [| apply IH; reflexivity].
    unfold inDomain, pakAddress. rewrite FxPakProProofs.u32_small by lia.
    split; [reflexivity | lia].
Qed.

Lemma collectReads_inDomain reqs groups mreqs tr :
  Forall (fun q => Forall plainRead (rq_Reads q)) reqs ->
  collectReads init reqs = Done (groups, mreqs) tr ->
  exists parts : list (domainDesc * list MemoryReadRequest),
    mreqs = concat (snd <$> parts) /\
    Forall2 (fun q p =>
               exists dom, rq_Domain q = Some dom /\ lookupDomain init dom = inr p.1 /\
                           Forall2 (inDomain p.1) (rq_Reads q) p.2)
            reqs parts.
Proof.
  intros H. revert groups mreqs tr.
  induction H as [| q reqs Hq _ IH]; simpl; intros groups mreqs tr.
  - intros [= <- <- <-]. exists []. split; [reflexivity | constructor].
  - destruct (rq_Domain q) as [dom |] eqn:D; [| discriminate].
    destruct (lookupDomain init dom) as [e | dm] eqn:L; [discriminate |].
    destruct (checkReads dm (rq_Reads q)) as [e | ms] eqn:C; [discriminate |].
    destruct (collectReads init reqs) as [[g more] io | e io |]; try discriminate.
    intros [= <- <- <-].
    pose proof (FxPakProMore.lookupDomain_In dom dm L) as Hin.
    destruct (proj1 (List.Forall_forall _ _) rows_fit dm Hin) as [Hs He].
    destruct (IH g more io eq_refl) as (parts & -> & F).
    exists ((dm, ms) :: parts). split; [reflexivity |].
    constructor; [| exact F].
    exists dom. split; [exact D |]. split; [exact L |].
    apply (checkReads_inDomain dm _ ms Hs He Hq C).
Qed.

(** X9.  While no end address passes 2^32, a read that reaches the
    device stays inside the domain it names: the device requests of
    [MultiDomainRead] are, group by group and read by read, requests in
    the pak address space at the offset of the read from the start of the
    row that the group's domain was looked up to, and they end before
    that row ends. *)
Theorem MultiDomainRead_stays_in_domain (io : DeviceIO)
    (requests : list GroupedDomainReadRequests) (mreqs : list MemoryReadRequest) :
  Forall (fun q => Forall plainRead (rq_Reads q)) requests ->
  In (CallRead mreqs) (calls (MultiDomainRead init io requests)) ->
  exists parts : list (domainDesc * list MemoryReadRequest),
    mreqs = concat (snd <$> parts) /\
    Forall2 (fun q p =>
               exists dom, rq_Domain q = Some dom /\ lookupDomain init dom = inr p.1 /\
                           Forall2 (inDomain p.1) (rq_Reads q) p.2)
            requests parts.
Proof.
  intros H. unfold MultiDomainRead.
  destruct (collectReads init requests) as [[groups ms] io' | e io' |] eqn:C; simpl.
  - pose proof (collectReads_inDomain _ _ _ _ H C) as W.
    destruct (MultiReadMemory io ms) as [e | mrsp]; simpl.
    + intros [[= <-] | []]. exact W.
    + destruct (_ <? _)%nat; simpl; [intros [] |].
      intros [[= <-] | []]. exact W.
  - rewrite (FxPakProProofs.collectReads_no_io _ _ _ _ C). intros [].
  - intros [].
Qed.

Lemma MultiDomainRead_stays_in_domain_witness :
  exists parts : list (domainDesc * list MemoryReadRequest),
    [ {| mr_RequestAddress :=
           {| Mapping.Address := 0xF50010;
              Mapping.Space := Mapping.AddressSpace_FxPakPro;
              Mapping.Mapping := Mapping.MemoryMapping_Unknown |};
         mr_Size := 2 |} ] = concat (snd <$> parts) /\
    Forall2 (fun q p =>
               exists dom, rq_Domain q = Some dom /\ lookupDomain init dom = inr p.1 /\
                           Forall2 (inDomain p.1) (rq_Reads q) p.2)
            (wram_read 0x10 2) parts.
Proof.
  apply (MultiDomainRead_stays_in_domain silent_device (wram_read 0x10 2)).
  - repeat constructor; simpl; lia.
  - left. reflexivity.
Defined.

(** *** The shape of the responses *)

Lemma checkReads_shape dm reads mreqs :
  checkReads dm reads = inr mreqs ->
  map mr_Size mreqs = map rd_Size reads /\
  map mr_RequestAddress mreqs = map (fun r => pakAddress dm (rd_Address r)) reads.
Proof.
  revert mreqs. induction reads as [| r reads IH]; simpl; intros mreqs.
  - intros [= <-]. split; reflexivity.
  - destruct (_ >=? _); [discriminate |]. destruct (_ >? _); [discriminate |].
    destruct (checkReads dm reads) as [e | ms]; [discriminate |].
    intros [= <-]. destruct (IH ms eq_refl) as [E1 E2]. simpl. rewrite E1, E2.
    split; reflexivity.
Qed.

Lemma collectReads_shape t reqs groups mreqs tr :
  collectReads t reqs = Done (groups, mreqs) tr ->
  map snd groups = map rq_Reads reqs /\
  map mr_Size mreqs = concat (map (fun q => map rd_Size (rq_Reads q)) reqs) /\
  Forall2 (fun g q =>
             exists dom dm, rq_Domain q = Some dom /\ lookupDomain t dom = inr dm /\
                            g = domainRef dm)
          (map fst groups) reqs.
Proof.
  revert groups mreqs tr. induction reqs as [| q reqs IH]; simpl; intros groups mreqs tr.
  - intros [= <- <- <-]. repeat split. constructor.
  - destruct (rq_Domain q) as [dom |] eqn:D; [| discriminate].
    destruct (lookupDomain t dom) as [e | dm] eqn:L; [discriminate |].
    destruct (checkReads dm (rq_Reads q)) as [e | ms] eqn:C; [discriminate |].
    destruct (collectReads t reqs) as [[g more] io | e io |]; try discriminate.
    intros [= <- <- <-]. destruct (IH g more io eq_refl) as (I1 & I2 & I3).
    destruct (checkReads_shape _ _ _ C) as [S1 _].
    simpl. split; [f_equal; exact I1 |].
    split; [rewrite List.map_app, S1, I2; reflexivity |].
    constructor; [| exact I3]. exists dom, dm. repeat split; assumption.
Qed.

Lemma zip_data_length {A : Type} (reads : list A) (datas : list (list Z)) :
  length (map Some (firstn (length reads) datas)
          ++ repeat None (length reads - length datas)) = length reads.
Proof.
  rewrite length_app, length_map, length_firstn, repeat_length. lia.
Qed.

Lemma map_fst_zip {A B : Type} (l : list A) (k : list B) :
  length l = length k -> map fst (zip l k) = l.
Proof.
  revert k. induction l as [| a l IH]; destruct k as [| b k]; simpl; try discriminate.
  - reflexivity.
  - intros [= H]. f_equal. apply IH, H.
Qed.

Lemma map_snd_zip {A B : Type} (l : list A) (k : list B) :
  length l = length k -> map snd (zip l k) = k.
Proof.
  revert k. induction l as [| a l IH]; destruct k as [| b k]; simpl; try discriminate.
  - reflexivity.
  - intros [= H]. f_equal. apply IH, H.
Qed.

Lemma fillReads_addresses groups datas :
  map (fun g => map ad_Address (rr_Reads g)) (fillReads groups datas) =
  map (fun g => map rd_Address (snd g)) groups.
Proof.
  revert datas. induction groups as [| [dom reads] groups IH]; simpl; intros datas.
  - reflexivity.
  - rewrite IH. f_equal. rewrite map_map. simpl.
    rewrite <- (map_map fst rd_Address).
    rewrite map_fst_zip by (symmetry; apply zip_data_length). reflexivity.
Qed.

Lemma fillReads_domains groups datas :
  map rr_Domain (fillReads groups datas) = map fst groups.
Proof.
  revert datas. induction groups as [| [dom reads] groups IH]; simpl; intros datas.
  - reflexivity.
  - rewrite IH. reflexivity.
Qed.

Lemma fillReads_data groups datas :
  concat (map (fun g => map ad_Data (rr_Reads g)) (fillReads groups datas)) =
  map Some (firstn (length (concat (map snd groups))) datas)
  ++ repeat None (length (concat (map snd groups)) - length datas).
Proof.
  revert datas. induction groups as [| [dom reads] groups IH]; simpl; intros datas.
  - reflexivity.
  - rewrite IH. rewrite map_map. simpl.
    rewrite <- (map_map snd (fun x => x)), map_id.
    rewrite map_snd_zip by (symmetry; apply zip_data_length).
    rewrite length_app, length_skipn.
    set (n := length reads). set (k := length (concat (map snd groups))).
    destruct (Nat.le_gt_cases n (length datas)) as [Hle | Hgt].
    + replace (n - length datas)%nat with 0%nat by lia. simpl. rewrite app_nil_r.
      rewrite app_assoc, <- map_app, take_take_drop.
      do 2 f_equal. lia.
    + rewrite (firstn_all2 datas (n := n)) by lia.
      rewrite (firstn_all2 datas (n := (n + k)%nat)) by lia.
      rewrite (skipn_all2 (n := n) datas) by lia.
      rewrite firstn_nil. simpl.
      rewrite <- app_assoc. f_equal. rewrite <- repeat_app. f_equal. lia.
Qed.

(** X10.  A [MultiDomainRead] that succeeds made one device call with
    one request for each read, in the order of the groups and of their
    reads and with the sizes asked for; its response has the group's row
    as domain and the asked addresses, group by group; and the data of the
    [k]-th device response is in the [k]-th entry counted across the
    groups, the entries beyond the last device response keeping nil data. *)
Theorem MultiDomainRead_response (t : tables) (io : DeviceIO)
    (requests : list GroupedDomainReadRequests)
    (rsp : list GroupedDomainReadResponses) (tr : list devcall) :
  MultiDomainRead t io requests = Done rsp tr ->
  exists mreqs mrsp,
    tr = [CallRead mreqs] /\
    MultiReadMemory io mreqs = inr mrsp /\
    map mr_Size mreqs = concat (map (fun q => map rd_Size (rq_Reads q)) requests) /\
    Forall2 (fun g q =>
               exists dom dm, rq_Domain q = Some dom /\ lookupDomain t dom = inr dm /\
                              g = domainRef dm)
            (map rr_Domain rsp) requests /\
    map (fun g => map ad_Address (rr_Reads g)) rsp =
      map (fun q => map rd_Address (rq_Reads q)) requests /\
    concat (map (fun g => map ad_Data (rr_Reads g)) rsp) =
      map Some mrsp ++ repeat None (length mreqs - length mrsp).
Proof.
  unfold MultiDomainRead.
  destruct (collectReads t requests) as [[groups mreqs] io' | e io' |] eqn:C;
    try discriminate.
  destruct (MultiReadMemory io mreqs) as [e | mrsp] eqn:M; [discriminate |].
  destruct (Nat.ltb_spec (length mreqs) (length mrsp)) as [Hlt | Hle]; [discriminate |].
  intros [= <- <-]. exists mreqs, mrsp.
  destruct (collectReads_shape _ _ _ _ _ C) as (S1 & S2 & S3).
  assert (Hlen : length (concat (map snd groups)) = length mreqs).
  { rewrite <- (length_map mr_Size mreqs), S2, S1.
    rewrite <- (length_map rd_Size (concat (map rq_Reads requests))).
    rewrite concat_map, map_map. reflexivity. }
  split; [reflexivity |]. split; [exact M |]. split; [exact S2 |].
  split; [rewrite fillReads_domains; exact S3 |].
  split.
  - rewrite fillReads_addresses.
    rewrite <- (map_map snd (map rd_Address)), S1, map_map. reflexivity.
  - rewrite fillReads_data, Hlen, firstn_all2 by lia. reflexivity.
Qed.

Lemma MultiDomainRead_response_witness :
  exists mreqs mrsp,
    [ CallRead [ {| mr_RequestAddress := pakAddress
                      {| domainRef := ref "WRAM" SNESWorkRAM; notes := "Console Work RAM";
                         start := 0xF50000; size := 0x020000; writeable := false |} 0x10;
                    mr_Size := 2 |} ] ] = [CallRead mreqs] /\
    MultiReadMemory silent_device mreqs = inr mrsp /\
    map mr_Size mreqs = concat (map (fun q => map rd_Size (rq_Reads q)) (wram_read 0x10 2)) /\
    Forall2 (fun g q =>
               exists dom dm, rq_Domain q = Some dom /\ lookupDomain init dom = inr dm /\
                              g = domainRef dm)
            (map rr_Domain
               [ {| rr_Domain := ref "WRAM" SNESWorkRAM;
                    rr_Reads := [ {| ad_Address := 0x10; ad_Data := Some [] |} ] |} ])
            (wram_read 0x10 2) /\
    map (fun g => map ad_Address (rr_Reads g))
        [ {| rr_Domain := ref "WRAM" SNESWorkRAM;
             rr_Reads := [ {| ad_Address := 0x10; ad_Data := Some [] |} ] |} ] =
      map (fun q => map rd_Address (rq_Reads q)) (wram_read 0x10 2) /\
    concat (map (fun g => map ad_Data (rr_Reads g))
              [ {| rr_Domain := ref "WRAM" SNESWorkRAM;
                   rr_Reads := [ {| ad_Address := 0x10; ad_Data := Some [] |} ] |} ]) =
      map Some mrsp ++ repeat None (length mreqs - length mrsp).
Proof.
  exact (MultiDomainRead_response init silent_device (wram_read 0x10 2) _ _ eq_refl).
Defined.

(** *** The writes *)

Lemma checkWrites_shape dm writes mreqs :
  checkWrites dm writes = inr mreqs ->
  map mw_Data mreqs = map wr_Data writes /\
  map mw_RequestAddress mreqs = map (fun w => pakAddress dm (wr_Address w)) writes.
Proof.
  revert mreqs. induction writes as [| w writes IH]; simpl; intros mreqs.
  - intros [= <-]. split; reflexivity.
  - destruct (_ >=? _); [discriminate |]. destruct (_ >? _); [discriminate |].
    destruct (checkWrites dm writes) as [e | ms]; [discriminate |].
    intros [= <-]. destruct (IH ms eq_refl) as [E1 E2]. simpl. rewrite E1, E2.
    split; reflexivity.
Qed.

Lemma collectWrites_shape t reqs groups mreqs tr :
  collectWrites t reqs = Done (groups, mreqs) tr ->
  map mw_Data mreqs = concat (map (fun q => map wr_Data (wq_Writes q)) reqs) /\
  map (fun g => map (fun a => (as_Address a, as_Size a)) (wr_Writes g)) groups =
    map (fun q => map (fun w => (wr_Address w, u32 (Z.of_nat (length (wr_Data w)))))
                      (wq_Writes q)) reqs.
Proof.
  revert groups mreqs tr. induction reqs as [| q reqs IH]; simpl; intros groups mreqs tr.
  - intros [= <- <- <-]. split; reflexivity.
  - destruct (wq_Domain q) as [dom |] eqn:D; [| discriminate].
    destruct (lookupDomain t dom) as [e | dm] eqn:L; [discriminate |].
    destruct (checkWrites dm (wq_Writes q)) as [e | ms] eqn:C; [discriminate |].
    destruct (collectWrites t reqs) as [[g more] io | e io |]; try discriminate.
    intros [= <- <- <-]. destruct (IH g more io eq_refl) as (I1 & I2).
    destruct (checkWrites_shape _ _ _ C) as [S1 _].
    simpl. rewrite List.map_app, S1, I1, I2, map_map. split; reflexivity.
Qed.

(** X11.  A [MultiDomainWrite] that succeeds made one device call which
    carries the data of every write unchanged, in the order of the groups
    and of their writes, and the device reported no error; its response
    repeats each address with the length of the data as size. *)
Theorem MultiDomainWrite_response (t : tables) (io : DeviceIO)
    (requests : list GroupedDomainWriteRequests)
    (rsp : list GroupedDomainWriteResponses) (tr : list devcall) :
  MultiDomainWrite t io requests = Done rsp tr ->
  exists mreqs,
    tr = [CallWrite mreqs] /\
    MultiWriteMemory io mreqs = None /\
    map mw_Data mreqs = concat (map (fun q => map wr_Data (wq_Writes q)) requests) /\
    map (fun g => map (fun a => (as_Address a, as_Size a)) (wr_Writes g)) rsp =
      map (fun q => map (fun w => (wr_Address w, u32 (Z.of_nat (length (wr_Data w)))))
                        (wq_Writes q)) requests.
Proof.
  unfold MultiDomainWrite.
  destruct (collectWrites t requests) as [[groups mreqs] io' | e io' |] eqn:C;
    try discriminate.
  destruct (MultiWriteMemory io mreqs) as [e |] eqn:M; [discriminate |].
  intros [= <- <-]. exists mreqs.
  destruct (collectWrites_shape _ _ _ _ _ C) as (S1 & S2).
  repeat split; assumption.
Qed.

Lemma MultiDomainWrite_response_witness :
  exists mreqs,
    [ CallWrite [ {| mw_RequestAddress := pakAddress
                       {| domainRef := ref "CARTRAM" SNESCartRAM;
                          notes := "Cartridge battery-backed RAM aka SRAM";
                          start := 0xE00000; size := 0x100000; writeable := true |} 4;
                     mw_Data := [1; 2; 3] |} ] ] = [CallWrite mreqs] /\
    MultiWriteMemory silent_device mreqs = None /\
    map mw_Data mreqs =
      concat (map (fun q => map wr_Data (wq_Writes q))
                [oneWrite (ref "CARTRAM" SNESCartRAM) 4 [1; 2; 3]]) /\
    map (fun g => map (fun a => (as_Address a, as_Size a)) (wr_Writes g))
        [ {| wr_Domain := ref "CARTRAM" SNESCartRAM;
             wr_Writes := [ {| as_Address := 4; as_Size := 3 |} ] |} ] =
      map (fun q => map (fun w => (wr_Address w, u32 (Z.of_nat (length (wr_Data w)))))
                        (wq_Writes q))
          [oneWrite (ref "CARTRAM" SNESCartRAM) 4 [1; 2; 3]].
Proof.
  exact (MultiDomainWrite_response init silent_device
           [oneWrite (ref "CARTRAM" SNESCartRAM) 4 [1; 2; 3]] _ _ eq_refl).
Defined.

(** X12.  [MultiDomainWrite] never looks at the write flag of a domain:
    a write that fits into a domain which [MemoryDomains] reports as not
    writeable is passed to the device like any other. *)
Theorem MultiDomainWrite_ignores_writeable (io : DeviceIO) (dm : domainDesc)
    (address : Z) (data : list Z) :
  In dm domainDescs ->
  writeable dm = false ->
  0 <= address < size dm ->
  address + Z.of_nat (length data) <= size dm ->
  let mreqs := [ {| mw_RequestAddress := pakAddress dm address; mw_Data := data |} ] in
  In {| Core := driverName; Domain := domainRef dm; Notes := notes dm; Size := size dm;
        Readable := true; Writeable := false |} (domains init) /\
  MultiDomainWrite init io [oneWrite (domainRef dm) address data] =
    match MultiWriteMemory io mreqs with
    | Some e => Failed e [CallWrite mreqs]
    | None =>
        Done [ {| wr_Domain := domainRef dm;
                  wr_Writes := [ {| as_Address := address;
                                    as_Size := Z.of_nat (length data) |} ] |} ]
             [CallWrite mreqs]
    end.
Proof.
  intros Hin Hw Ha Hl mreqs.
  pose proof (proj1 (List.Forall_forall _ _) rows_small dm Hin) as Hsz.
  simpl in Hsz.
  assert (L : lookupDomain init (domainRef dm) = inr dm /\
              In {| Core := driverName; Domain := domainRef dm; Notes := notes dm;
                    Size := size dm; Readable := true; Writeable := false |}
                 (domains init)).
  { unfold domainDescs in Hin. simpl in Hin.
    repeat destruct Hin as [<- | Hin]; try contradiction; try discriminate Hw;
      (split; [vm_compute; reflexivity | vm_compute; tauto]). }
  destruct L as [L Hd]. split; [exact Hd |].
  unfold MultiDomainWrite, oneWrite. cbn [collectWrites wq_Domain wq_Writes].
  rewrite L. cbn [checkWrites wr_Address wr_Data].
  destruct (Z.geb_spec address (size dm)) as [G | G]; [lia |].
  rewrite (FxPakProProofs.u32_small (Z.of_nat (length data))) by lia.
  rewrite FxPakProProofs.u32_small by lia.
  destruct (Z.gtb_spec (address + Z.of_nat (length data)) (size dm)) as [G' | G']; [lia |].
  cbn. rewrite (FxPakProProofs.u32_small (Z.of_nat (length data))) by lia.
  reflexivity.
Qed.

Lemma MultiDomainWrite_ignores_writeable_witness :
  MultiDomainWrite init silent_device [oneWrite (ref "WRAM" SNESWorkRAM) 0x10 [1; 2]] =
    Done [ {| wr_Domain := ref "WRAM" SNESWorkRAM;
              wr_Writes := [ {| as_Address := 0x10; as_Size := 2 |} ] |} ]
         [ CallWrite [ {| mw_RequestAddress :=
                            {| Mapping.Address := 0xF50010;
                               Mapping.Space := Mapping.AddressSpace_FxPakPro;
                               Mapping.Mapping := Mapping.MemoryMapping_Unknown |};
                          mw_Data := [1; 2] |} ] ].
Proof.
  refine (proj2 (MultiDomainWrite_ignores_writeable silent_device
           {| domainRef := ref "WRAM" SNESWorkRAM; notes := "Console Work RAM";
              start := 0xF50000; size := 0x020000; writeable := false |}
           0x10 [1; 2] _ eq_refl _ _)).
  - right. right. left. reflexivity.
  - simpl. lia.
  - simpl. lia.
Defined.

End DomainIO.

(** ** Package [fxpakpro]: [listFiles] *)

Module ListFiles.

Import Go FxPakPro.

(** *** The request *)

Lemma request_head (x4 x5 x6 : Z) :
  firstn 256 (<[6%nat := x6]> (<[5%nat := x5]> (<[4%nat := x4]> (<[3%nat := 65]>
    (<[2%nat := 66]> (<[1%nat := 83]> (<[0%nat := 85]> (repeat 0 512)))))))) =
  [85; 83; 66; 65; x4; x5; x6] ++ repeat 0 249.
Proof. reflexivity. Qed.

Lemma request_tail (x4 x5 x6 : Z) :
  skipn 256 (<[6%nat := x6]> (<[5%nat := x5]> (<[4%nat := x4]> (<[3%nat := 65]>
    (<[2%nat := 66]> (<[1%nat := 83]> (<[0%nat := 85]> (repeat 0 512)))))))) =
  repeat 0 256.
Proof. reflexivity. Qed.

Lemma request_size (x4 x5 x6 s0 s1 s2 s3 : Z) (rest : list Z) :
  <[255%nat := s3]> (<[254%nat := s2]> (<[253%nat := s1]> (<[252%nat := s0]>
    (([85; 83; 66; 65; x4; x5; x6] ++ repeat 0 249) ++ rest)))) =
  [85; 83; 66; 65; x4; x5; x6] ++ repeat 0 245 ++ [s0; s1; s2; s3] ++ rest.
Proof. reflexivity. Qed.

Lemma lsRequest_eq K path :
  lsRequest K path =
  [85; 83; 66; 65; byte (OpLS K); byte (SpaceFILE K); byte (FlagNONE K)]
  ++ repeat 0 245
  ++ putUint32 (Z.of_nat (Nat.min 256 (length (bytes_of_string path))))
  ++ firstn 256 (bytes_of_string path)
  ++ repeat 0 (256 - Nat.min 256 (length (bytes_of_string path))).
Proof.
  unfold lsRequest. cbv zeta. rewrite request_head, request_tail.
  unfold copy. rewrite repeat_length, ReadMemoryProofs.skipn_repeat.
  rewrite request_size. unfold putUint32.
  replace (256 - length (bytes_of_string path))%nat
    with (256 - Nat.min 256 (length (bytes_of_string path)))%nat by lia.
  reflexivity.
Qed.

Lemma at_app_r (l k : list Z) (i : nat) : at_ (l ++ k) (length l + i) = at_ k i.
Proof.
  unfold at_. rewrite app_nth2 by lia. f_equal. lia.
Qed.

(** X13.  The request of a listing is one packet of 512 bytes: the magic
    USBA, the opcode, the space and the flags, zeros up to the size field
    in bytes 252 to 255, then the path and zeros.  At most 256 bytes of
    the path are sent, and the size field, read as the firmware reads it,
    is the number of path bytes in the packet. *)
Theorem lsRequest_layout (K : constants) (path : string) :
  let p := bytes_of_string path in
  let n := Nat.min 256 (length p) in
  lsRequest K path =
    [85; 83; 66; 65; byte (OpLS K); byte (SpaceFILE K); byte (FlagNONE K)]
    ++ repeat 0 245 ++ putUint32 (Z.of_nat n) ++ firstn 256 p ++ repeat 0 (256 - n) /\
  length (lsRequest K path) = 512%nat /\
  sizeField (lsRequest K path) = Z.of_nat n /\
  length (firstn 256 p) = n.
Proof.
  intros p n. split; [apply lsRequest_eq |].
  split; [apply FxPakProProofs.lsRequest_length |].
  split; [| rewrite length_firstn; reflexivity].
  rewrite lsRequest_eq. fold p. fold n. unfold sizeField.
  set (hd := [85; 83; 66; 65; byte (OpLS K); byte (SpaceFILE K); byte (FlagNONE K)]
             ++ repeat 0 245).
  set (l := putUint32 (Z.of_nat n) ++ firstn 256 p ++ repeat 0 (256 - n)).
  change ([85; 83; 66; 65; byte (OpLS K); byte (SpaceFILE K); byte (FlagNONE K)]
          ++ repeat 0 245 ++ l) with (hd ++ l).
  assert (A0 : at_ (hd ++ l) 252 = at_ l 0) by exact (at_app_r hd l 0).
  assert (A1 : at_ (hd ++ l) 253 = at_ l 1) by exact (at_app_r hd l 1).
  assert (A2 : at_ (hd ++ l) 254 = at_ l 2) by exact (at_app_r hd l 2).
  assert (A3 : at_ (hd ++ l) 255 = at_ l 3) by exact (at_app_r hd l 3).
  rewrite A0, A1, A2, A3. subst l. unfold putUint32, at_. cbn [nth app].
  apply GoMore.be_uint32_put. subst n. lia.
Qed.

(** *** The scan of a data packet *)

Lemma nameEnd_stops sb fuel i :
  (512 <= fuel + i)%nat ->
  (i <= nameEnd fuel sb i)%nat /\
  ((nameEnd fuel sb i < 512)%nat -> at_ sb (nameEnd fuel sb i) = 0).
Proof.
  revert i. induction fuel as [| fuel IH]; intros i H; simpl.
  - split; [lia |]. intros; lia.
  - destruct (Nat.ltb_spec i 512) as [Hi | Hi]; simpl.
    + destruct (Z.eqb_spec (at_ sb i) 0) as [E | E]; simpl.
      * split; [lia |]. intros _. exact E.
      * destruct (IH (S i)) as [I1 I2]; [lia |]. split; [lia | exact I2].
    + split; [lia |]. intros; lia.
Qed.

Lemma scanPacket_not_malformed K sb fuel i files :
  (512 < fuel + i)%nat ->
  i = 0%nat \/ ((i <= 512)%nat /\ at_ sb (i - 1) = 0) ->
  scanPacket fuel K sb i files <> Malformed (Errorf "ls: malformed packet").
Proof.
  revert i files. induction fuel as [| fuel IH]; intros i files Hf Hi.
  - exfalso. destruct Hi as [-> | [Hle _]]; simpl in Hf; lia.
  - cbn [scanPacket].
    destruct (Nat.ltb_spec i 512) as [Hlt | Hge].
    + destruct (at_ sb i =? 255); [discriminate |].
      destruct (at_ sb i =? 2); [discriminate |].
      cbv zeta.
      destruct (nameEnd_stops sb 512 (S i)) as [N1 N2]; [lia |].
      destruct (Nat.leb_spec 512 (nameEnd 512 sb (S i))) as [Hj | Hj]; [discriminate |].
      apply IH; [lia |]. right. split; [lia |].
      replace (S (nameEnd 512 sb (S i)) - 1)%nat with (nameEnd 512 sb (S i)) by lia.
      apply N2. exact Hj.
    + destruct (Nat.eqb_spec i 512) as [-> | Hne]; [| discriminate].
      destruct Hi as [Hi | [_ Hz]]; [discriminate |].
      rewrite Hz. simpl. discriminate.
Qed.

Lemma recvLoop_not_malformed K sb pkts files tr :
  snd (fst (recvLoop K sb pkts files tr)) <> Some (Errorf "ls: malformed packet").
Proof.
  revert sb files tr.
  induction pkts as [| [e | pkt] pkts IH]; intros sb files tr; cbn [recvLoop].
  - cbn [fst snd]. discriminate.
  - cbn [fst snd]. discriminate.
  - pose proof (scanPacket_not_malformed K (copy sb pkt) 513 0 files) as H.
    destruct (scanPacket 513 K (copy sb pkt) 0 files) as [fs | fs | e]; cbn [fst snd].
    + discriminate.
    + apply IH.
    + intros [= ->]. apply H; [lia | left; reflexivity | reflexivity].
Qed.

(** X14.  [listFiles] never fails with "ls: malformed packet": when the
    scan of a packet stops at its end the byte before is the zero that
    ends the last name.  A packet that the scan cannot read gives "ls:
    invalid response packet format", and every failure of the port is a
    fatal error. *)
Theorem listFiles_never_malformed (K : constants) (path : string) (io : serial) :
  snd (fst (listFiles K path io)) <> Some (Errorf "ls: malformed packet") /\
  (forall e, on_send io = Some e ->
     listFiles K path io = (None, Some (FatalError e), [Send (lsRequest K path)])) /\
  (forall files e tr, listFiles K path io = (files, Some e, tr) ->
     e = Errorf "ls: invalid response packet format" \/
     (exists cause, e = DeviceFatal cause) \/ (exists cause, e = DeviceNonFatal cause)).
Proof.
  split; [| split].
  - unfold listFiles. destruct (on_send io); [discriminate |].
    destruct (incoming io) as [| [e | pkt] rest]; try discriminate.
    destruct (checkHeader K _) as [e |] eqn:H; [| apply recvLoop_not_malformed].
    simpl. revert H. unfold checkHeader.
    repeat (destruct (negb _); [intros [= <-]; discriminate |]). discriminate.
  - intros e H. unfold listFiles. rewrite H. reflexivity.
  - intros files e tr. unfold listFiles.
    destruct (on_send io); [intros [= _ <- _]; right; left; eexists; reflexivity |].
    destruct (incoming io) as [| [e' | pkt] rest];
      try (intros [= _ <- _]; right; left; eexists; reflexivity).
    destruct (checkHeader K _) as [e' |] eqn:H.
    { intros [= _ <- _]. revert H. unfold checkHeader.
      repeat (destruct (negb _);
              [intros [= <-]; right;
               first [left; eexists; reflexivity | right; eexists; reflexivity] |]).
      discriminate. }
    clear H. generalize (copy (lsRequest K path) pkt) as sb.
    generalize (@nil DirEntry) as fs. generalize [Send (lsRequest K path); Recv] as tr0.
    induction rest as [| [e' | pkt'] rest IH]; intros tr0 fs sb; cbn [recvLoop].
    + intros [= _ <- _]. right; left; eexists; reflexivity.
    + intros [= _ <- _]. right; left; eexists; reflexivity.
    + pose proof (scanPacket_not_malformed K (copy sb pkt') 513 0 fs) as N.
      destruct (scanPacket 513 K (copy sb pkt') 0 fs) as [fs' | fs' | e'] eqn:S.
      * discriminate.
      * apply IH.
      * intros [= _ <- _]. left.
        assert (Hm : forall fuel i fs0 e0,
                   scanPacket fuel K (copy sb pkt') i fs0 = Malformed e0 ->
                   e0 = Errorf "ls: malformed packet" \/
                   e0 = Errorf "ls: invalid response packet format").
        { clear. induction fuel as [| fuel IHf]; intros i fs0 e0; cbn [scanPacket].
          - intros [= <-]. left; reflexivity.
          - destruct (i <? 512)%nat.
            + destruct (_ =? 255); [discriminate |].
              destruct (_ =? 2); [discriminate |]. cbv zeta.
              destruct (512 <=? _)%nat; [intros [= <-]; right; reflexivity | apply IHf].
            + destruct (i =? 512)%nat; [| discriminate].
              destruct (negb _); [intros [= <-]; left; reflexivity | discriminate]. }
        destruct (Hm _ _ _ _ S) as [-> | ->]; [| reflexivity].
        exfalso. apply N; [lia | left; reflexivity | reflexivity].
Qed.

(** *** Reading back what the firmware writes *)

Lemma string_of_bytes_of_string s : string_of_bytes (bytes_of_string s) = s.
Proof.
  induction s as [| a s IH]; simpl; [reflexivity |].
  rewrite IH. unfold ascii_of_byte, byte_of_ascii.
  rewrite N2Z.id, ascii_N_embedding. reflexivity.
Qed.

Lemma at_middle (pre post : list Z) (x : Z) : at_ (pre ++ x :: post) (length pre) = x.
Proof.
  unfold at_. rewrite app_nth2 by lia. rewrite Nat.sub_diag. reflexivity.
Qed.

Lemma nameEnd_name (pre name post : list Z) (fuel : nat) :
  Forall (fun b => b <> 0) name ->
  (length name < fuel)%nat ->
  (length pre + length name < 512)%nat ->
  nameEnd fuel (pre ++ name ++ 0 :: post) (length pre) = (length pre + length name)%nat.
Proof.
  intros H. revert pre fuel. induction H as [| b name Hb _ IH]; intros pre fuel Hf Hl.
  - simpl in *. destruct fuel as [| fuel]; [lia |]. simpl.
    destruct (Nat.ltb_spec (length pre) 512); [| lia].
    rewrite at_middle. simpl. lia.
  - simpl in *. destruct fuel as [| fuel]; [lia |]. simpl.
    destruct (Nat.ltb_spec (length pre) 512); [| lia].
    rewrite at_middle. destruct (Z.eqb_spec b 0); [contradiction |]. simpl.
    replace (pre ++ b :: name ++ 0 :: post) with ((pre ++ [b]) ++ name ++ 0 :: post)
      by (rewrite <- app_assoc; reflexivity).
    replace (S (length pre)) with (length (pre ++ [b])) by (rewrite length_app; simpl; lia).
    rewrite IH; rewrite ?length_app; simpl; lia.
Qed.

Lemma slice_middle (pre mid post : list Z) :
  slice (pre ++ mid ++ post) (length pre) (length pre + length mid) = mid.
Proof.
  unfold slice. rewrite drop_app_length.
  replace (length pre + length mid - length pre)%nat with (length mid) by lia.
  apply take_app_length.
Qed.

Lemma length_records_le K es : (length es <= length (records K es))%nat.
Proof.
  induction es as [| e es IH]; simpl; [lia |].
  unfold records in *. simpl. rewrite length_app. simpl. lia.
Qed.

Lemma scanPacket_records K (es : list DirEntry) :
  forall (pre post : list Z) (term : Z) (fuel : nat) (files : list DirEntry),
    Forall (entryOk K) es ->
    (length es < fuel)%nat ->
    (length pre + length (records K es) < 512)%nat ->
    term = 255 \/ term = 2 ->
    scanPacket fuel K (pre ++ records K es ++ term :: post) (length pre) files =
    if term =? 255 then NoMoreData (files ++ es) else NextPacket (files ++ es).
Proof.
  induction es as [| e es IH]; intros pre post term fuel files Hok Hf Hl Ht.
  - destruct fuel as [| fuel]; [simpl in Hf; lia |]. cbn [scanPacket records map concat app].
    simpl in Hl. destruct (Nat.ltb_spec (length pre) 512); [| lia].
    rewrite at_middle, app_nil_r.
    destruct Ht as [-> | ->]; reflexivity.
  - destruct fuel as [| fuel]; [simpl in Hf; lia |].
    inversion Hok as [| ? ? [Hty Hname] Hok']; subst.
    unfold records in *. cbn [map concat] in *. fold (records K es) in *.
    rewrite length_app in Hl. unfold record in Hl at 1. simpl in Hl.
    rewrite length_app in Hl. simpl in Hl.
    set (ty := if de_Type e =? DirEntryType_Directory K then 0 else 1).
    set (name := bytes_of_string (de_Name e)) in *.
    assert (Esb : pre ++ (record K e ++ records K es) ++ term :: post =
                  (pre ++ [ty]) ++ name ++ 0 :: (records K es ++ term :: post)).
    { unfold record. fold ty. fold name. rewrite <- !app_assoc. simpl.
      rewrite <- !app_assoc. reflexivity. }
    cbn [scanPacket].
    destruct (Nat.ltb_spec (length pre) 512); [| lia].
    assert (Hat : at_ (pre ++ (record K e ++ records K es) ++ term :: post) (length pre) = ty).
    { unfold record. fold ty. fold name. simpl. apply at_middle. }
    rewrite Hat.
    assert (Hty' : ty = 0 \/ ty = 1) by (subst ty; destruct (_ =? _); auto).
    destruct (Z.eqb_spec ty 255); [lia |]. destruct (Z.eqb_spec ty 2); [lia |].
    cbv zeta. rewrite Esb.
    replace (S (length pre)) with (length (pre ++ [ty])) by (rewrite length_app; simpl; lia).
    rewrite nameEnd_name; [| exact Hname | lia | rewrite length_app; simpl; lia].
    destruct (Nat.leb_spec 512 (length (pre ++ [ty]) + length name));
      [rewrite length_app in *; simpl in *; lia |].
    change (name ++ 0 :: (records K es ++ term :: post))
      with (name ++ [0] ++ (records K es ++ term :: post)).
    rewrite (slice_middle (pre ++ [ty]) name).
    subst name. rewrite string_of_bytes_of_string.
    assert (Ee : {| de_Name := de_Name e;
                    de_Type := if ty =? 0 then DirEntryType_Directory K
                               else if ty =? 1 then DirEntryType_File K else 0 |} = e).
    { destruct e as [nm t]. simpl in *. f_equal. subst ty.
      destruct (Z.eqb_spec t (DirEntryType_Directory K)) as [-> | Hne]; simpl; [reflexivity |].
      destruct Hty as [-> | ->]; [contradiction | reflexivity]. }
    rewrite Ee.
    replace ((pre ++ [ty]) ++ bytes_of_string (de_Name e) ++ [0] ++ records K es ++ term :: post)
      with ((pre ++ record K e) ++ records K es ++ term :: post)
      by (unfold record; fold ty; rewrite <- !app_assoc; simpl; rewrite <- !app_assoc;
          reflexivity).
    replace (S (length (pre ++ [ty]) + length (bytes_of_string (de_Name e))))
      with (length (pre ++ record K e))
      by (unfold record; rewrite !length_app; simpl; rewrite length_app; simpl; lia).
    rewrite IH; [| exact Hok' | simpl in Hf; lia
                 | unfold record; rewrite !length_app; simpl; rewrite length_app; simpl; lia
                 | exact Ht].
    rewrite <- !app_assoc. reflexivity.
Qed.

Lemma dataPacket_length K es final :
  (length (records K es) < 512)%nat -> length (dataPacket K es final) = 512%nat.
Proof.
  intros H. unfold dataPacket. cbv zeta.
  rewrite length_app, repeat_length, length_app. simpl. lia.
Qed.

Lemma scanPacket_dataPacket K es final files :
  fitsPacket K es ->
  scanPacket 513 K (dataPacket K es final) 0 files =
  if final then NoMoreData (files ++ es) else NextPacket (files ++ es).
Proof.
  intros [Hok Hl]. unfold dataPacket. cbv zeta.
  rewrite <- app_assoc. cbn [app].
  pose proof (scanPacket_records K es [] (repeat 0 (512 - length (records K es
                ++ [if final then 255 else 2]))) (if final then 255 else 2) 513 files
                Hok) as H.
  cbn [app length] in H. rewrite H.
  - destruct final; reflexivity.
  - pose proof (length_records_le K es). lia.
  - exact Hl.
  - destruct final; auto.
Qed.

Lemma recvLoop_packets K (groups : list (list DirEntry)) :
  forall (final : list DirEntry) (rest : list (error + list Z)) (sb : list Z)
         (files : list DirEntry) (tr : list serialcall),
    length sb = 512%nat ->
    Forall (fitsPacket K) groups -> fitsPacket K final ->
    recvLoop K sb
      (map inr (map (fun es => dataPacket K es false) groups ++ [dataPacket K final true])
       ++ rest) files tr =
    (Some (files ++ concat groups ++ final), None,
     tr ++ repeat Recv (S (length groups))).
Proof.
  induction groups as [| es groups IH]; intros final rest sb files tr Hsb Hg Hf.
  - cbn [map app recvLoop]. rewrite FxPakProProofs.copy_full
      by (rewrite Hsb; apply dataPacket_length, Hf).
    rewrite scanPacket_dataPacket by exact Hf. reflexivity.
  - inversion Hg as [| ? ? Hes Hg']; subst. cbn [map app recvLoop].
    rewrite FxPakProProofs.copy_full by (rewrite Hsb; apply dataPacket_length, Hes).
    rewrite scanPacket_dataPacket by exact Hes.
    rewrite IH; [| apply dataPacket_length, Hes | exact Hg' | exact Hf].
    simpl. rewrite <- !app_assoc. reflexivity.
Qed.

(** X15.  [listFiles] reads back what the firmware writes.  After a
    first packet that reports success, data packets that hold the records
    of some entries each, all ending in 2 but the last which ends in 0xFF,
    give exactly these entries, in order and with their types; the port is
    read once for each of these packets and not again. *)
Theorem listFiles_reads_listing (K : constants) (path : string) (io : serial)
    (header : list Z) (groups : list (list DirEntry)) (final : list DirEntry)
    (rest : list (error + list Z)) :
  on_send io = None ->
  incoming io =
    inr header
    :: map inr (map (fun es => dataPacket K es false) groups ++ [dataPacket K final true])
    ++ rest ->
  length header = 512%nat ->
  magicOk header /\ sizeField header = 1 /\ opcodeOk K header /\ at_ header 5 = 0 ->
  Forall (fitsPacket K) groups ->
  fitsPacket K final ->
  listFiles K path io =
    (Some (concat groups ++ final), None,
     Send (lsRequest K path) :: repeat Recv (2 + length groups)).
Proof.
  intros Hs Hi Hl (Hm & Hz & Ho & H5) Hg Hf.
  unfold listFiles. rewrite Hs, Hi.
  rewrite FxPakProProofs.copy_full by (rewrite FxPakProProofs.lsRequest_length; exact Hl).
  assert (Hc : checkHeader K header = None).
  { unfold checkHeader. fold (sizeField header).
    apply FxPakProProofs.magicOk_test in Hm. rewrite Hm, Hz. unfold opcodeOk in Ho.
    rewrite Ho, H5, !Z.eqb_refl. reflexivity. }
  rewrite Hc, recvLoop_packets by assumption. reflexivity.
Qed.

Lemma sample_listing_fits : fitsPacket usb2snes sample_listing.
Proof.
  split; [| vm_compute; lia].
  repeat constructor; simpl; auto; unfold byte_of_ascii; simpl; discriminate.
Defined.

Lemma listFiles_reads_listing_witness :
  listFiles usb2snes "/"
    {| on_send := None;
       incoming := [inr ok_response; inr (dataPacket usb2snes sample_listing true)] |} =
    (Some sample_listing, None, [Send (lsRequest usb2snes "/"); Recv; Recv]).
Proof.
  refine (listFiles_reads_listing usb2snes "/"
            {| on_send := None;
               incoming := [inr ok_response; inr (dataPacket usb2snes sample_listing true)] |}
            ok_response [] sample_listing [] eq_refl eq_refl eq_refl _ _
            sample_listing_fits).
  - repeat split.
  - constructor.
Defined.

End ListFiles.

(** ** Package [fxpakpro]: [openPort] *)

Module OpenPort.

Import Go FxPakPro.

Lemma baudRates_descending : descending baudRates.
Proof. simpl. repeat split; repeat constructor. Qed.

Lemma tryRates_first P rates req baud h :
  descending rates ->
  In baud rates -> baud <= req -> on_Open P baud = inr h ->
  (forall b, In b rates -> baud < b <= req -> exists e, on_Open P b = inl e) ->
  forall f err tr,
    tryRates P rates req f err tr =
    (Some h, None,
     tr ++ map Open (List.filter (fun b => (baud <=? b) && (b <=? req)) rates)).
Proof.
  intros Hd Hin Hle Ho Hf.
  induction rates as [| b rest IH]; [destruct Hin |].
  destruct Hd as [Hlt Hd]. intros f err tr. cbn [tryRates List.filter].
  destruct (Z.gtb_spec b req) as [G | G].
  - replace (b <=? req) with false by (symmetry; apply Z.leb_gt; lia).
    rewrite andb_false_r.
    destruct Hin as [-> | Hin]; [lia |].
    apply IH; [exact Hd | exact Hin |].
    intros b' Hb'. apply Hf. right. exact Hb'.
  - replace (b <=? req) with true by (symmetry; apply Z.leb_le; lia).
    rewrite andb_true_r.
    destruct Hin as [-> | Hin].
    + rewrite Ho, Z.leb_refl.
      replace (List.filter (fun b => (baud <=? b) && (b <=? req)) rest) with (@nil Z);
        [reflexivity |].
      symmetry. clear -Hlt. induction Hlt as [| x rest Hx _ IHl]; simpl; [reflexivity |].
      replace (baud <=? x) with false by (symmetry; apply Z.leb_gt; lia). exact IHl.
    + assert (Hb : baud < b) by (apply (proj1 (List.Forall_forall _ _) Hlt baud Hin)).
      destruct (Hf b (or_introl eq_refl)) as [e He]; [lia |].
      rewrite He. replace (baud <=? b) with true by (symmetry; apply Z.leb_le; lia).
      rewrite IH; [| exact Hd | exact Hin | intros b' Hb'; apply Hf; right; exact Hb'].
      simpl. rewrite <- app_assoc. reflexivity.
Qed.

(** X16.  [openPort] opens the port at the highest listed baud rate that
    is not above the request and at which [serial.Open] succeeds: it
    tries the listed rates between that one and the request from the
    highest down, stops at the first success and sets DTR on the port it
    got; when that fails it closes the port again. *)
Theorem openPort_highest_rate (P : ports) (baudRequest baud f : Z) :
  In baud baudRates ->
  baud <= baudRequest ->
  on_Open P baud = inr f ->
  (forall b, In b baudRates -> baud < b <= baudRequest -> exists e, on_Open P b = inl e) ->
  let tried :=
    map Open (List.filter (fun b => (baud <=? b) && (b <=? baudRequest)) baudRates) in
  openPort P baudRequest =
    match on_SetDTR P f with
    | None => (Opened f, tried ++ [SetDTR f])
    | Some e => (DTRFailed e, tried ++ [SetDTR f; ClosePort f])
    end.
Proof.
  intros Hin Hle Ho Hf tried. unfold openPort.
  rewrite (tryRates_first P baudRates baudRequest baud f baudRates_descending
             Hin Hle Ho Hf).
  destruct (on_SetDTR P f); reflexivity.
Qed.

Lemma openPort_highest_rate_witness :
  openPort slow_ports 921600 =
    (Opened 3, [Open 921600; Open 460800; Open 256000; Open 230400; SetDTR 3]).
Proof.
  refine (openPort_highest_rate slow_ports 921600 230400 3 _ _ eq_refl _).
  - simpl. tauto.
  - lia.
  - intros b _ Hb. simpl. destruct (Z.gtb_spec b 230400); [eexists; reflexivity | lia].
Defined.

Lemma tryRates_none P rates req f err tr :
  Forall (fun b => req < b) rates -> tryRates P rates req f err tr = (f, err, tr).
Proof.
  induction 1 as [| b rest Hb _ IH]; simpl; [reflexivity |].
  destruct (Z.gtb_spec b req); [exact IH | lia].
Qed.

Lemma tryRates_some P rates req :
  forall f err tr,
    (exists b, In b rates /\ b <= req) \/ (f <> None /\ err = None) \/ err <> None ->
    let r := tryRates P rates req f err tr in
    (fst (fst r) <> None /\ snd (fst r) = None) \/ snd (fst r) <> None.
Proof.
  induction rates as [| b rest IH]; intros f err tr H; cbn [tryRates].
  - destruct H as [(b & [] & _) | H]. exact H.
  - destruct (Z.gtb_spec b req) as [G | G].
    + apply IH. destruct H as [(b' & [-> | Hin] & Hle) | H]; [lia | | right; exact H].
      left. exists b'. split; assumption.
    + destruct (on_Open P b) as [e | h].
      * apply IH. right. right. discriminate.
      * left. simpl. split; [discriminate | reflexivity].
Qed.

(** X17.  A request below 9600 baud, the lowest listed rate, makes
    [openPort] panic before any call of the serial library: no rate is
    tried, no error is set, and [SetDTR] is called on the nil port.  With
    a request of 9600 or more it never does. *)
Theorem openPort_below_lowest_rate (P : ports) (baudRequest : Z) :
  (baudRequest < 9600 -> openPort P baudRequest = (NilPanic, [])) /\
  (9600 <= baudRequest -> fst (openPort P baudRequest) <> NilPanic).
Proof.
  split; intros H; unfold openPort.
  - rewrite tryRates_none; [reflexivity |].
    unfold baudRates. repeat constructor; lia.
  - pose proof (tryRates_some P baudRates baudRequest None None []) as T.
    destruct (tryRates P baudRates baudRequest None None []) as [[f err] tr].
    destruct T as [[Tf Te] | Te]; simpl in *.
    + left. exists 9600. split; [unfold baudRates; simpl; tauto | exact H].
    + subst err. destruct f as [h |]; [| contradiction].
      destruct (on_SetDTR P h); simpl; discriminate.
    + destruct err; [simpl; discriminate | contradiction].
Qed.

Lemma tryRates_all_fail P rates req :
  (forall b, In b rates -> b <= req -> exists e, on_Open P b = inl e) ->
  forall f err tr,
    tryRates P rates req f err tr =
    match List.filter (fun b => b <=? req) rates with
    | [] => (f, err, tr)
    | tried => (None, match on_Open P (List.last tried 0) with
                      | inl e => Some e
                      | inr _ => None
                      end, tr ++ map Open tried)
    end.
Proof.
  induction rates as [| b rest IH]; intros Hf f err tr; cbn [tryRates List.filter].
  - reflexivity.
  - destruct (Z.gtb_spec b req) as [G | G].
    + replace (b <=? req) with false by (symmetry; apply Z.leb_gt; lia).
      apply IH. intros b' Hb'. apply Hf. right. exact Hb'.
    + replace (b <=? req) with true by (symmetry; apply Z.leb_le; lia).
      destruct (Hf b (or_introl eq_refl)) as [e He]; [lia |].
      rewrite He, IH by (intros b' Hb'; apply Hf; right; exact Hb').
      destruct (List.filter (fun b0 => b0 <=? req) rest) as [| x tried] eqn:F.
      * simpl. rewrite He. reflexivity.
      * cbn [map]. rewrite <- app_assoc. cbn [List.last]. reflexivity.
Qed.

(** X18.  When [serial.Open] fails at every listed rate that is not
    above the request, [openPort] has tried them all, from the highest to
    9600, and returns the error of the last attempt, the one at 9600
    baud; DTR is not set and nothing is closed. *)
Theorem openPort_all_rates_fail (P : ports) (baudRequest : Z) :
  9600 <= baudRequest ->
  (forall b, In b baudRates -> b <= baudRequest -> exists e, on_Open P b = inl e) ->
  exists e,
    on_Open P 9600 = inl e /\
    openPort P baudRequest =
      (OpenFailed e, map Open (List.filter (fun b => b <=? baudRequest) baudRates)).
Proof.
  intros H Hf. destruct (Hf 9600) as [e He]; [unfold baudRates; simpl; tauto | exact H |].
  exists e. split; [exact He |]. unfold openPort.
  rewrite (tryRates_all_fail P baudRates baudRequest Hf).
  assert (L : exists pre,
             List.filter (fun b => b <=? baudRequest) baudRates = pre ++ [9600]).
  { unfold baudRates.
    change [921600; 460800; 256000; 230400; 153600; 128000; 115200; 76800; 57600;
            38400; 28800; 19200; 14400; 9600]
      with ([921600; 460800; 256000; 230400; 153600; 128000; 115200; 76800; 57600;
             38400; 28800; 19200; 14400] ++ [9600]).
    rewrite List.filter_app. eexists. f_equal. simpl.
    replace (9600 <=? baudRequest) with true by (symmetry; apply Z.leb_le; lia).
    reflexivity. }
  destruct L as [pre L]. rewrite L.
  destruct (pre ++ [9600]) as [| x tried] eqn:E; [destruct pre; discriminate |].
  cbv beta iota zeta. rewrite <- E, List.last_last, He. reflexivity.
Qed.

Lemma openPort_all_rates_fail_witness :
  exists e,
    on_Open {| on_Open := fun _ => inl (Errorf "busy"); on_SetDTR := fun _ => None |} 9600
      = inl e /\
    openPort {| on_Open := fun _ => inl (Errorf "busy"); on_SetDTR := fun _ => None |} 14400 =
      (OpenFailed e, map Open (List.filter (fun b => b <=? 14400) baudRates)).
Proof.
  apply (openPort_all_rates_fail
           {| on_Open := fun _ => inl (Errorf "busy"); on_SetDTR := fun _ => None |} 14400).
  - lia.
  - intros b _ _. eexists. reflexivity.
Defined.

End OpenPort.

(** ** [mapping.TranslateAddress] where no mapping is needed *)

Module MappingIdentity.

Import Mapping.

(** X19.  Between two address spaces that need no mapping, that is when
    the source is raw, the device is raw or both are the same, an address
    is its own translation, whatever its memory mapping and without a
    call of the mapping library. *)
Theorem TranslateAddress_identity (L : Library) (a : AddressTuple) (deviceSpace : AddressSpace) :
  ~ needsMapping (Space a) deviceSpace ->
  TranslateAddress L a deviceSpace = (Address a, None).
Proof.
  intros H. unfold TranslateAddress.
  destruct (Space a) eqn:E, deviceSpace; try reflexivity;
    exfalso; apply H; unfold needsMapping; tauto.
Qed.

Lemma TranslateAddress_identity_witness :
  TranslateAddress shift_library
    {| Address := 0x7E0010; Space := AddressSpace_SnesABus; Mapping := MemoryMapping_Unknown |}
    AddressSpace_Raw = (0x7E0010, None).
Proof.
  apply TranslateAddress_identity. simpl.
  intros [[_ H] | [H _]]; discriminate H.
Defined.

End MappingIdentity.

(** ** Package [emunwa]: commands and replies *)

Module EmuNWAMore.

Import Go EmuNWA.

(** *** Binary blocks *)

Lemma binaryBlock_frame (arg : list Z) :
  Z.of_nat (length arg) < 2 ^ 32 -> isFrame (binaryBlock arg) arg.
Proof.
  intros H. unfold isFrame, binaryBlock, putUint32.
  do 4 eexists. split; [reflexivity |].
  rewrite FxPakProProofs.u32_small by lia.
  apply GoMore.be_uint32_put. lia.
Qed.

(** X20.  The block that [SendCommandBinaryWaitReply] writes after the
    command line has the form of a binary reply: when it comes back on
    the connection, before any other bytes, [parseResponse] returns the
    argument and leaves those other bytes.  The command itself is the
    letter b, the command line and that block in one write. *)
Theorem binary_argument_reads_back (w : world) (cmd : string) (arg unread : list Z)
    (e : error) :
  Z.of_nat (length arg) < 2 ^ 32 ->
  parseResponse (binaryBlock arg ++ unread) e =
    ({| bin := Some arg; ascii := None; err := None |}, unread) /\
  (forall answer rest, script w = inr answer :: rest \/ script w = [] ->
     tx (SendCommandBinaryWaitReply w cmd arg).2 =
       tx w ++ [98 :: bytes_of_string cmd ++ [LF] ++ binaryBlock arg]).
Proof.
  intros H. split.
  - destruct (binaryBlock_frame arg H) as (b0 & b1 & b2 & b3 & E & Hsz).
    rewrite E. simpl. rewrite Hsz, length_app, Nat2Z.id.
    destruct (Z.leb_spec (Z.of_nat (length arg))
                (Z.of_nat (length arg + length unread))); [| lia].
    rewrite take_app_length, drop_app_length. reflexivity.
  - intros answer rest Hs.
    assert (Hb : bytes_of_string (cmd +:+ newline) = bytes_of_string cmd ++ [LF]).
    { clear. induction cmd as [| a cmd IH]; simpl; [reflexivity | rewrite IH; reflexivity]. }
    unfold SendCommandBinaryWaitReply, binaryCommand, writeWithDeadline.
    destruct Hs as [-> | ->];
      match goal with
      | |- context [readResponse ?x] => destruct (readResponse x) as [rp w2] eqn:R
      end;
      assert (T : tx w2 = tx (snd (rp, w2))) by reflexivity; rewrite <- R in T;
      (assert (T' : forall w0, tx (snd (readResponse w0)) = tx w0);
       [intros w0; unfold readResponse;
        destruct (deadlines w0) as [| [e0 |] ds]; try reflexivity;
        destruct (parseResponse (rx w0) (eof w0)); reflexivity |]);
      rewrite T' in T; simpl in T;
      destruct (errorText (ascii rp)); simpl; rewrite T, Hb, <- app_assoc; reflexivity.
Qed.

Lemma binary_argument_reads_back_witness :
  parseResponse (binaryBlock [1; 2; 3] ++ [10]) (NetErr ErrEOF) =
    ({| bin := Some [1; 2; 3]; ascii := None; err := None |}, [10]).
Proof.
  refine (proj1 (binary_argument_reads_back sample_world "CORE_WRITE WRAM;0;3" [1; 2; 3]
                   [10] (NetErr ErrEOF) _)).
  simpl. lia.
Defined.

(** *** Failed reads *)

Lemma parseResponse_error r e :
  err (parseResponse r e).1 <> None -> ascii (parseResponse r e).1 = None.
Proof.
  unfold parseResponse. destruct r as [| d r1]; [reflexivity |].
  destruct (d =? 0).
  - destruct r1 as [| b0 [| b1 [| b2 [| b3 r2]]]]; try reflexivity.
    destruct (_ <=? _); reflexivity.
  - destruct (negb (d =? LF)); [reflexivity |]. simpl. intros H. contradiction.
Qed.

Lemma readResponse_error w :
  err (readResponse w).1 <> None -> ascii (readResponse w).1 = None.
Proof.
  unfold readResponse.
  destruct (deadlines w) as [| [e |] ds]; try reflexivity;
    pose proof (parseResponse_error (rx w) (eof w)) as P;
    destruct (parseResponse (rx w) (eof w)) as [rp unread]; exact P.
Qed.

(** X21.  A read that fails never carries an ASCII reply.  So
    [SendCommandBinaryWaitReply], which looks for an error text in the
    reply even after a failed read, returns from the same connection what
    [SendCommandWaitReply] returns, and leaves the same bytes unread. *)
Theorem senders_agree (w : world) (cmd cmd' : string) (arg : list Z) :
  (err (readResponse w).1 <> None -> ascii (readResponse w).1 = None) /\
  (SendCommandBinaryWaitReply w cmd arg).1 = (SendCommandWaitReply w cmd').1 /\
  rx (SendCommandBinaryWaitReply w cmd arg).2 = rx (SendCommandWaitReply w cmd').2.
Proof.
  split; [apply readResponse_error |].
  unfold SendCommandBinaryWaitReply, SendCommandWaitReply, writeWithDeadline.
  assert (K : forall w1 w1',
             script w1 = script w1' -> deadlines w1 = deadlines w1' ->
             eof w1 = eof w1' -> rx w1 = rx w1' ->
             (readResponse w1).1 = (readResponse w1').1 /\
             rx (readResponse w1).2 = rx (readResponse w1').2).
  { intros w1 w1' _ Hd He Hr. unfold readResponse. rewrite Hd, He, Hr.
    destruct (deadlines w1') as [| [e |] ds]; simpl;
      try (split; reflexivity);
      destruct (parseResponse (rx w1') (eof w1')); split; reflexivity. }
  destruct (script w) as [| [e | answer] rest]; [| split; reflexivity |].
  - set (w1 := {| script := []; deadlines := deadlines w; eof := eof w; rx := rx w;
                  tx := tx w ++ [binaryCommand cmd arg] |}).
    set (w1' := {| script := []; deadlines := deadlines w; eof := eof w; rx := rx w;
                   tx := tx w ++ [bytes_of_string (cmd' +:+ newline)] |}).
    destruct (K w1 w1' eq_refl eq_refl eq_refl eq_refl) as [K1 K2].
    pose proof (readResponse_error w1) as E.
    destruct (readResponse w1) as [rp w2]. destruct (readResponse w1') as [rp' w2'].
    simpl in K1, K2, E. subst rp'.
    destruct (err rp) eqn:Er.
    + rewrite E by discriminate. simpl. split; [reflexivity | exact K2].
    + destruct (errorText (ascii rp)); simpl; split; try reflexivity; exact K2.
  - set (w1 := {| script := rest; deadlines := deadlines w; eof := eof w;
                  rx := rx w ++ answer; tx := tx w ++ [binaryCommand cmd arg] |}).
    set (w1' := {| script := rest; deadlines := deadlines w; eof := eof w;
                   rx := rx w ++ answer;
                   tx := tx w ++ [bytes_of_string (cmd' +:+ newline)] |}).
    destruct (K w1 w1' eq_refl eq_refl eq_refl eq_refl) as [K1 K2].
    pose proof (readResponse_error w1) as E.
    destruct (readResponse w1) as [rp w2]. destruct (readResponse w1') as [rp' w2'].
    simpl in K1, K2, E. subst rp'.
    destruct (err rp) eqn:Er.
    + rewrite E by discriminate. simpl. split; [reflexivity | exact K2].
    + destruct (errorText (ascii rp)); simpl; split; try reflexivity; exact K2.
Qed.

(** *** The items of an ASCII reply *)

Lemma pairs_snoc items item : pairs (items ++ [item]) = (pairs items + size item)%nat.
Proof.
  unfold pairs. rewrite sum_list_with_app. simpl. lia.
Qed.

Lemma scanLine_spec l ascii item :
  let st := scanLine l (ascii, item) in
  (Forall (fun i => i <> ∅) ascii -> Forall (fun i => i <> ∅) st.1) /\
  (pairs st.1 + size st.2 = S (pairs ascii + size item))%nat /\
  st.2 !! keyOf l = Some (valueOf l) /\
  (forall i k v, In i (ascii ++ [item]) -> i !! k = Some v ->
     exists i', In i' (st.1 ++ [st.2]) /\ i' !! k = Some v).
Proof.
  pose proof (EmuNWAProofs.scanLine_item l (ascii, item)) as Hitem.
  unfold scanLine in *. fold (keyOf l) in *. fold (valueOf l) in *.
  destruct (item !! keyOf l) as [old |] eqn:E; simpl in *.
  - split; [| split; [| split]].
    + intros H. apply Forall_app. split; [exact H |].
      constructor; [| constructor]. intros ->. rewrite lookup_empty in E. discriminate.
    + rewrite pairs_snoc, map_size_insert_None by apply lookup_empty.
      rewrite map_size_empty. lia.
    + exact Hitem.
    + intros i k v Hi Hk. exists i. split; [| exact Hk].
      apply in_or_app. left. exact Hi.
  - split; [| split; [| split]].
    + auto.
    + rewrite map_size_insert_None by exact E. lia.
    + exact Hitem.
    + intros i k v Hi Hk. apply in_app_or in Hi as [Hi | [<- | []]].
      * exists i. split; [apply in_or_app; left; exact Hi | exact Hk].
      * exists (<[keyOf l := valueOf l]> item).
        split; [apply in_or_app; right; left; reflexivity |].
        rewrite lookup_insert_ne; [exact Hk |]. intros <-. congruence.
Qed.

Lemma scanLoop_spec lines :
  forall ascii item,
    let st := scanLoop lines (ascii, item) in
    (Forall (fun i => i <> ∅) ascii -> Forall (fun i => i <> ∅) st.1) /\
    (pairs st.1 + size st.2 = pairs ascii + size item + length (untilEmpty lines))%nat /\
    (forall i k v, In i (ascii ++ [item]) -> i !! k = Some v ->
       exists i', In i' (st.1 ++ [st.2]) /\ i' !! k = Some v) /\
    (forall l, In l (untilEmpty lines) ->
       exists i', In i' (st.1 ++ [st.2]) /\ i' !! keyOf l = Some (valueOf l)).
Proof.
  induction lines as [| l lines IH]; intros ascii item; cbn [scanLoop untilEmpty].
  - simpl. repeat split; auto; try lia. intros i k v Hi Hk. exists i. auto.
  - destruct l as [| a l'].
    { simpl. repeat split; auto; try lia. intros i k v Hi Hk. exists i. auto. }
    set (l := String a l') in *.
    destruct (scanLine l (ascii, item)) as [ascii1 item1] eqn:S.
    pose proof (scanLine_spec l ascii item) as (S1 & S2 & S3 & S4).
    rewrite S in S1, S2, S3, S4. simpl in S1, S2, S3, S4.
    destruct (IH ascii1 item1) as (I1 & I2 & I3 & I4).
    split; [| split; [| split]].
    + intros H. apply I1, S1, H.
    + rewrite I2. simpl. lia.
    + intros i k v Hi Hk. destruct (S4 i k v Hi Hk) as (i1 & Hi1 & Hk1).
      apply (I3 i1 k v Hi1 Hk1).
    + intros l0 [<- | Hl0]; [| apply I4, Hl0].
      apply (I3 item1); [apply in_or_app; right; left; reflexivity | exact S3].
Qed.

(** X22.  No line of an ASCII reply is lost: up to the first empty line
    every line adds one pair to one item, so the items together hold as
    many pairs as there are lines, each line's key is found with its value
    in one of them, and no item is empty. *)
Theorem parseAscii_keeps_every_line (body : list Z) :
  Forall (fun item => item <> ∅) (parseAscii body) /\
  pairs (parseAscii body) = length (untilEmpty (Scan body)) /\
  (forall l, In l (untilEmpty (Scan body)) ->
     exists item, In item (parseAscii body) /\ item !! keyOf l = Some (valueOf l)).
Proof.
  unfold parseAscii.
  pose proof (scanLoop_spec (Scan body) [] ∅) as (S1 & S2 & _ & S4).
  destruct (scanLoop (Scan body) ([], ∅)) as [ascii item]. simpl in S1, S2, S4.
  assert (P0 : pairs [] = 0%nat) by reflexivity.
  rewrite ?P0, map_size_empty in S2. simpl in S2.
  destruct (Nat.ltb_spec 0 (size item)) as [Hs | Hs].
  - split; [| split].
    + apply Forall_app. split; [apply S1; constructor |].
      constructor; [| constructor]. intros ->. rewrite map_size_empty in Hs. lia.
    + rewrite pairs_snoc. lia.
    + exact S4.
  - assert (item = ∅) as -> by (apply map_size_empty_inv; lia).
    split; [| split].
    + apply S1. constructor.
    + rewrite map_size_empty in S2. lia.
    + intros l Hl. destruct (S4 l Hl) as (i & Hi & Hk).
      apply in_app_or in Hi as [Hi | [<- | []]].
      * exists i. split; assumption.
      * rewrite lookup_empty in Hk. discriminate.
Qed.

(** *** The commands of [FetchFields] *)

Lemma readResponse_tx w : tx (readResponse w).2 = tx w.
Proof.
  unfold readResponse. destruct (deadlines w) as [| [e |] ds]; try reflexivity;
    destruct (parseResponse (rx w) (eof w)); reflexivity.
Qed.

Lemma SendCommandWaitReply_tx w cmd :
  tx (SendCommandWaitReply w cmd).2 = tx w \/
  tx (SendCommandWaitReply w cmd).2 = tx w ++ [commandLine cmd].
Proof.
  unfold SendCommandWaitReply, writeWithDeadline, commandLine.
  destruct (script w) as [| [e | answer] rest]; [| left; reflexivity |]; right;
    match goal with
    | |- context [readResponse ?x] =>
        pose proof (readResponse_tx x) as T; destruct (readResponse x) as [rp w2]
    end; simpl in T;
    destruct (err rp); [exact T | destruct (errorText (ascii rp)); exact T
                       | exact T | destruct (errorText (ascii rp)); exact T].
Qed.

Lemma request_tx b cmd w :
  exists l, (l = [] \/ l = [cmd]) /\
            tx (request b cmd w).2 = tx w ++ (commandLine <$> l).
Proof.
  unfold request. destruct b.
  - pose proof (SendCommandWaitReply_tx w cmd) as T.
    destruct (SendCommandWaitReply w cmd) as [rp w']. simpl in *.
    destruct T as [T | T]; [exists [] | exists [cmd]]; rewrite T; simpl;
      rewrite ?app_nil_r; auto.
  - exists []. simpl. rewrite app_nil_r. auto.
Qed.

(** X23.  Whatever fields are asked for, and however often, [FetchFields]
    sends nothing but the four info commands, each at most once and in
    the fixed order GAME_INFO, CORE_CURRENT_INFO, EMULATOR_INFO,
    EMULATION_STATUS. *)
Theorem FetchFields_commands (w : world) (fields : list Field) :
  exists cmds,
    sublist cmds infoCommands /\
    tx (FetchFields w fields).2 = tx w ++ (commandLine <$> cmds).
Proof.
  unfold FetchFields, infoCommands.
  set (ws := fold_left want fields _).
  destruct (request_tx (wantGameInfo ws) "GAME_INFO" w) as (l1 & H1 & T1).
  destruct (request (wantGameInfo ws) "GAME_INFO" w) as [[gi e1] w1]. simpl in T1.
  destruct e1 as [e1 |].
  { exists l1. split; [| exact T1].
    destruct H1 as [-> | ->];
      repeat first [apply sublist_nil | apply sublist_skip | apply sublist_cons]. }
  destruct (request_tx (wantCoreInfo ws) "CORE_CURRENT_INFO" w1) as (l2 & H2 & T2).
  destruct (request (wantCoreInfo ws) "CORE_CURRENT_INFO" w1) as [[ci e2] w2]. simpl in T2.
  destruct e2 as [e2 |].
  { exists (l1 ++ l2). split; [| simpl; rewrite T2, T1, fmap_app, app_assoc; reflexivity].
    destruct H1 as [-> | ->], H2 as [-> | ->]; simpl;
      repeat first [apply sublist_nil | apply sublist_skip | apply sublist_cons]. }
  destruct (request_tx (wantEmulatorInfo ws) "EMULATOR_INFO" w2) as (l3 & H3 & T3).
  destruct (request (wantEmulatorInfo ws) "EMULATOR_INFO" w2) as [[ei e3] w3]. simpl in T3.
  destruct e3 as [e3 |].
  { exists (l1 ++ l2 ++ l3). split;
      [| simpl; rewrite T3, T2, T1, !fmap_app, !app_assoc; reflexivity].
    destruct H1 as [-> | ->], H2 as [-> | ->], H3 as [-> | ->]; simpl;
      repeat first [apply sublist_nil | apply sublist_skip | apply sublist_cons]. }
  destruct (request_tx (wantEmulationStatus ws) "EMULATION_STATUS" w3) as (l4 & H4 & T4).
  destruct (request (wantEmulationStatus ws) "EMULATION_STATUS" w3) as [[es e4] w4].
  simpl in T4.
  exists (l1 ++ l2 ++ l3 ++ l4). split.
  - destruct H1 as [-> | ->], H2 as [-> | ->], H3 as [-> | ->], H4 as [-> | ->]; simpl;
      repeat first [apply sublist_nil | apply sublist_skip | apply sublist_cons].
  - destruct e4; simpl; rewrite T4, T3, T2, T1, !fmap_app, !app_assoc; reflexivity.
Qed.

(** *** The address spaces *)

(** X24.  [RequiresMemoryMappingForAddress] and
    [RequiresMemoryMappingForAddressSpace] never fail and agree; they say
    no for the raw and the pak address space only, so they say yes for the
    A-bus and for every other value of the address space.  Among the three
    address spaces that [mapping.TranslateAddress] names they say yes
    exactly for the addresses that it cannot take to the pak address space
    without a memory mapping, and where they say no the translation is the
    address itself under every mapping. *)
Theorem RequiresMemoryMapping_exact (L : Mapping.Library) (a : AddressTuple) :
  RequiresMemoryMappingForAddress a = RequiresMemoryMappingForAddressSpace (at_Space a) /\
  (RequiresMemoryMappingForAddress a).2 = None /\
  ((RequiresMemoryMappingForAddress a).1 = false <->
   at_Space a = Declared Mapping.AddressSpace_Raw \/
   at_Space a = Declared Mapping.AddressSpace_FxPakPro) /\
  (forall s,
     at_Space a = Declared s ->
     ((RequiresMemoryMappingForAddress a).1 = true <->
      (Mapping.TranslateAddress L (mapped a s Mapping.MemoryMapping_Unknown)
         Mapping.AddressSpace_FxPakPro).2 = Some Mapping.ErrUnknownMapping) /\
     ((RequiresMemoryMappingForAddress a).1 = false <->
      forall m,
        Mapping.TranslateAddress L (mapped a s m) Mapping.AddressSpace_FxPakPro
        = (at_Address a, None))).
Proof.
  unfold RequiresMemoryMappingForAddress, RequiresMemoryMappingForAddressSpace.
  destruct a as [address sp m0]; simpl.
  split; [reflexivity |].
  split; [destruct sp as [[] |]; reflexivity |].
  split.
  - destruct sp as [[] |]; simpl; split; auto; try discriminate;
      intros [H | H]; discriminate H.
  - intros s ->. unfold mapped, Mapping.TranslateAddress; simpl.
    destruct s; simpl; repeat split; try discriminate; auto.
    intros H. specialize (H Mapping.MemoryMapping_Unknown). discriminate H.
Qed.

End EmuNWAMore.

(** ** Package [emunwa]: the discovery of the domains *)

Module Discovery.

Import Go EmuNWA.

Lemma fold_platformStep l b :
  b_domains (fold_left platformStep l b) = b_domains b ++ map unexposed l.
Proof.
  revert b. induction l as [| d l IH]; intros b; simpl.
  - rewrite app_nil_r. reflexivity.
  - rewrite IH. simpl. rewrite <- app_assoc. reflexivity.
Qed.

Lemma map_alter_same {A B : Type} (g : A -> B) (f : A -> A) (i : nat) (l : list A) :
  (forall x, g (f x) = g x) -> map g (alter f i l) = map g l.
Proof.
  intros H. revert i. induction l as [| x l IH]; intros [| i]; simpl; try reflexivity.
  - rewrite H. reflexivity.
  - f_equal. apply IH.
Qed.

Lemma Forall_alter_kept {A : Type} (P : A -> Prop) (f : A -> A) (i : nat) (l : list A) :
  (forall x, P x -> P (f x)) -> Forall P l -> Forall P (alter f i l).
Proof.
  intros H F. revert i. induction F as [| x l Hx F IH]; intros [| i]; simpl.
  - constructor.
  - constructor.
  - constructor; [apply H, Hx | exact F].
  - constructor; [exact Hx | apply IH].
Qed.

Lemma expose_settled n access d : settled (expose n access d).
Proof.
  unfold settled, expose; simpl. split; [reflexivity | discriminate].
Qed.

Lemma memoryStep_spec core plat m b b' :
  memoryStep core plat m b = inr b' ->
  (exists extra,
     map (fun d => (Name d, IsCoreSpecific d)) (b_domains b') =
     map (fun d => (Name d, IsCoreSpecific d)) (b_domains b)
     ++ map (fun nm => (nm, true)) extra) /\
  (Forall settled (b_domains b) -> Forall settled (b_domains b')).
Proof.
  unfold memoryStep. cbv zeta.
  destruct (ParseUint _) as [n |]; [| discriminate].
  destruct (CoreToSNIMapping (Define core) !! _) as [sniMemName |]; [| discriminate].
  set (nm := match DomainsByName plat !! cleanLower sniMemName with
             | Some domainConf => conf_Name domainConf
             | None => sniMemName
             end).
  destruct (b_map b !! cleanLower nm) as [i |]; intros [= <-]; simpl.
  - split.
    + exists []. rewrite app_nil_r. apply map_alter_same. reflexivity.
    + apply Forall_alter_kept. intros x _. apply expose_settled.
  - split.
    + exists [nm]. rewrite map_alter_same by reflexivity.
      rewrite List.map_app. reflexivity.
    + intros F. apply Forall_alter_kept; [intros x _; apply expose_settled |].
      apply Forall_app. split; [exact F |].
      constructor; [| constructor]. split; [reflexivity | discriminate].
Qed.

Lemma memoryLoop_spec core plat memories :
  forall b b',
    memoryLoop core plat memories b = inr b' ->
    (exists extra,
       map (fun d => (Name d, IsCoreSpecific d)) (b_domains b') =
       map (fun d => (Name d, IsCoreSpecific d)) (b_domains b)
       ++ map (fun nm => (nm, true)) extra) /\
    (Forall settled (b_domains b) -> Forall settled (b_domains b')).
Proof.
  induction memories as [| m memories IH]; intros b b'; simpl.
  - intros [= <-]. split; [exists []; rewrite app_nil_r; reflexivity | auto].
  - destruct (memoryStep core plat m b) as [e | b1] eqn:S; [discriminate |].
    intros L. destruct (memoryStep_spec _ _ _ _ _ S) as [[x1 E1] F1].
    destruct (IH _ _ L) as [[x2 E2] F2].
    split; [| auto].
    exists (x1 ++ x2). rewrite E2, E1, List.map_app, app_assoc. reflexivity.
Qed.

Lemma findCore_In cores a b c core :
  findCore cores a b c = Some core -> In core cores /\ coreMatches core a b c = true.
Proof.
  induction cores as [| cc cores IH]; simpl; [discriminate |].
  destruct (coreMatches cc a b c) eqn:M.
  - intros [= <-]. split; [left; reflexivity | exact M].
  - intros H. destruct (IH H) as [I1 I2]. split; [right; exact I1 | exact I2].
Qed.

(** A discovery that succeeds leaves a core and a list of domains. *)
Lemma discovery_fills_cache (cfg : Config) (c c' : Client) (w w' : world) :
  currentDomains c = None ->
  determineDomainMapping cfg c w = (c', None, w') ->
  exists core doms, currentCore c' = Some core /\ currentDomains c' = Some doms.
Proof.
  intros Hc. unfold determineDomainMapping. rewrite Hc.
  destruct (currentPlatConfig cfg) as [platConfig |]; [| discriminate].
  destruct (FetchFields w _) as [[fields [e |]] w1]; [discriminate |].
  cbv zeta.
  destruct (findCore _ _ _ _) as [core |]; [| discriminate].
  destruct (platConfig !! _) as [plat |]; [| discriminate].
  destruct (SendCommandWaitReply w1 _) as [rp w2].
  destruct (err rp); [discriminate |].
  destruct (memoryLoop _ _ _ _) as [e | b]; [discriminate |].
  intros [= <- <-]. eexists _, _. split; reflexivity.
Qed.

Lemma coreMatches_accepts cc n v p : coreMatches cc n v p = true <-> accepts cc n v p.
Proof.
  unfold coreMatches, accepts.
  destruct (CoreNameRegex (Matches cc) n); simpl.
  2: { split; [discriminate | intros [H _]; discriminate H]. }
  destruct (CoreVersionRegex (Matches cc)) as [rv |].
  - destruct (rv v) eqn:Ev; simpl.
    2: { split; [discriminate |]. intros (_ & H & _).
         specialize (H rv eq_refl). congruence. }
    destruct (CorePlatformRegex (Matches cc)) as [rp |].
    + destruct (rp p) eqn:Ep; simpl.
      * split; [| reflexivity]. intros _.
        split; [reflexivity |]. split; intros re [= <-]; assumption.
      * split; [discriminate |]. intros (_ & _ & H).
        specialize (H rp eq_refl). congruence.
    + split; [| reflexivity]. intros _.
      split; [reflexivity |]. split; [intros re [= <-]; assumption | discriminate].
  - destruct (CorePlatformRegex (Matches cc)) as [rp |].
    + destruct (rp p) eqn:Ep; simpl.
      * split; [| reflexivity]. intros _.
        split; [reflexivity |]. split; [discriminate | intros re [= <-]; assumption].
      * split; [discriminate |]. intros (_ & _ & H).
        specialize (H rp eq_refl). congruence.
    + split; [| reflexivity]. intros _.
      split; [reflexivity |]. split; discriminate.
Qed.

Lemma findCore_first cores n v p core :
  findCore cores n v p = Some core ->
  exists before after,
    cores = before ++ core :: after /\
    accepts core n v p /\
    Forall (fun cc => ~ accepts cc n v p) before.
Proof.
  induction cores as [| cc cores IH]; simpl; [discriminate |].
  destruct (coreMatches cc n v p) eqn:M.
  - intros [= <-]. exists [], cores.
    split; [reflexivity |]. split; [apply coreMatches_accepts, M | constructor].
  - intros H. destruct (IH H) as (before & after & -> & Ha & Hb).
    exists (cc :: before), after. split; [reflexivity |]. split; [exact Ha |].
    constructor; [| exact Hb]. intros A. apply coreMatches_accepts in A. congruence.
Qed.

(** The three fields of the discovery come from one CORE_CURRENT_INFO. *)
Lemma FetchFields_core (w : world) :
  FetchFields w [Field_CoreName; Field_CoreVersion; Field_CorePlatform] =
  (match err (SendCommandWaitReply w "CORE_CURRENT_INFO").1 with
   | Some _ => None
   | None =>
       Some [ getFirstValue (ascii (SendCommandWaitReply w "CORE_CURRENT_INFO").1) "name";
              getFirstValue (ascii (SendCommandWaitReply w "CORE_CURRENT_INFO").1) "version";
              getFirstValue (ascii (SendCommandWaitReply w "CORE_CURRENT_INFO").1)
                "platform" ]
   end,
   err (SendCommandWaitReply w "CORE_CURRENT_INFO").1,
   (SendCommandWaitReply w "CORE_CURRENT_INFO").2).
Proof.
  unfold FetchFields, request.
  cbn [fold_left want wantGameInfo wantCoreInfo wantEmulatorInfo wantEmulationStatus].
  destruct (SendCommandWaitReply w "CORE_CURRENT_INFO") as [rp w1]. cbn [fst snd].
  destruct (err rp); reflexivity.
Qed.

(** X25.  A discovery that succeeds has asked the emulator for its core
    and caches the first core of the configuration whose regular
    expressions accept the name, the version and the platform of the
    reply, the platform of that core, and a list of domains that starts
    with the domains of the platform, in the order of the configuration
    and none of them core-specific, followed by core-specific domains
    only.  Every core-specific domain is exposed, and a domain that is not
    exposed is neither readable nor writeable.  With this cache a further
    discovery returns at once and sends nothing. *)
Theorem discovery_lists_platform_first (cfg : Config) (c c' : Client) (w w' : world) :
  currentDomains c = None ->
  determineDomainMapping cfg c w = (c', None, w') ->
  exists rp w1 core before after platConfig plat doms extra,
    SendCommandWaitReply w "CORE_CURRENT_INFO" = (rp, w1) /\
    err rp = None /\
    coresConfig cfg = before ++ core :: after /\
    accepts core (nameIn rp) (versionIn rp) (platformIn rp) /\
    Forall (fun cc => ~ accepts cc (nameIn rp) (versionIn rp) (platformIn rp)) before /\
    c' = {| currentCore := Some core; currentPlatform := Some plat;
            currentDomains := Some doms |} /\
    currentPlatConfig cfg = Some platConfig /\
    platConfig !! Platform (Define core) = Some plat /\
    map (fun d => (Name d, IsCoreSpecific d)) doms =
      map (fun d => (conf_Name d, false)) (plat_Domains plat)
      ++ map (fun nm => (nm, true)) extra /\
    Forall settled doms /\
    forall w2, determineDomainMapping cfg c' w2 = (c', None, w2).
Proof.
  intros Hc. unfold determineDomainMapping at 1. rewrite Hc.
  destruct (currentPlatConfig cfg) as [platConfig |] eqn:P; [| discriminate].
  rewrite FetchFields_core.
  destruct (SendCommandWaitReply w "CORE_CURRENT_INFO") as [rp w1] eqn:R. cbn [fst snd].
  destruct (err rp) as [e |] eqn:Er; [discriminate |].
  cbv zeta. cbn [default nth].
  destruct (findCore _ _ _ _) as [core |] eqn:F; [| discriminate].
  destruct (platConfig !! _) as [plat |] eqn:L; [| discriminate].
  destruct (SendCommandWaitReply w1 _) as [rp2 w2].
  destruct (err rp2); [discriminate |].
  destruct (memoryLoop _ _ _ _) as [e | b] eqn:M; [discriminate |].
  intros [= <- <-].
  destruct (memoryLoop_spec _ _ _ _ _ M) as [[extra E] S].
  rewrite fold_platformStep in E, S. simpl in E, S.
  destruct (findCore_first _ _ _ _ _ F) as (before & after & Hcores & Hacc & Hbefore).
  exists rp, w1, core, before, after, platConfig, plat, (b_domains b), extra.
  split; [reflexivity |]. split; [exact Er |].
  split; [exact Hcores |]. split; [exact Hacc |]. split; [exact Hbefore |].
  split; [reflexivity |].
  split; [reflexivity |]. split; [exact L |].
  split; [rewrite E, map_map; reflexivity |].
  split; [| reflexivity].
  apply S. clear. induction (plat_Domains plat) as [| d l IH]; simpl; constructor.
  - split; [discriminate | auto].
  - exact IH.
Qed.

Lemma discovery_lists_platform_first_witness :
  (determineDomainMapping two_cores_config fresh_client bsnes_world).1.1 =
    {| currentCore := Some strict_core; currentPlatform := Some snes_platform;
       currentDomains := Some sample_domains |} /\
  exists rp,
    (SendCommandWaitReply bsnes_world "CORE_CURRENT_INFO").1 = rp /\
    nameIn rp = "bsnes" /\ versionIn rp = "115" /\ platformIn rp = "SNES" /\
    accepts strict_core (nameIn rp) (versionIn rp) (platformIn rp) /\
    ~ accepts snes9x_core (nameIn rp) (versionIn rp) (platformIn rp).
Proof.
  assert (E : (determineDomainMapping two_cores_config fresh_client bsnes_world).1.1 =
              {| currentCore := Some strict_core; currentPlatform := Some snes_platform;
                 currentDomains := Some sample_domains |}) by (vm_compute; reflexivity).
  split; [exact E |].
  destruct (discovery_lists_platform_first two_cores_config fresh_client
              (determineDomainMapping two_cores_config fresh_client bsnes_world).1.1
              bsnes_world
              (determineDomainMapping two_cores_config fresh_client bsnes_world).2
              eq_refl)
    as (rp & w1 & core & before & after & pc & plat & doms & extra
        & Hs & _ & Hcores & Hacc & Hbefore & Hc' & _);
    [vm_compute; reflexivity |].
  rewrite E in Hc'. injection Hc' as <- _ _.
  exists rp. split; [rewrite Hs; reflexivity |].
  assert (Hrp : rp = (SendCommandWaitReply bsnes_world "CORE_CURRENT_INFO").1)
    by (rewrite Hs; reflexivity).
  assert (Hn : nameIn rp = "bsnes") by (rewrite Hrp; vm_compute; reflexivity).
  assert (Hv : versionIn rp = "115") by (rewrite Hrp; vm_compute; reflexivity).
  assert (Hp : platformIn rp = "SNES") by (rewrite Hrp; vm_compute; reflexivity).
  split; [exact Hn |]. split; [exact Hv |]. split; [exact Hp |].
  split; [exact Hacc |].
  destruct before as [| cc before].
  - exfalso.
    apply (f_equal (fun l => match l with
                             | cc :: _ => core_Name cc
                             | [] => EmptyString
                             end)) in Hcores.
    discriminate Hcores.
  - injection Hcores as <- _. inversion Hbefore; assumption.
Defined.

(** X26.  [MemoryDomains] never reads the name of a missing core: it
    returns an error and no response, or a response made of the cache it
    has just filled, with the uri of the request, the name of the cached
    core and one entry for each cached domain. *)
Theorem MemoryDomains_never_panics (cfg : Config) (c : Client) (w : world) (uri : string) :
  exists c' rsp e w',
    MemoryDomains cfg c w uri = Some (c', rsp, e, w') /\
    (e = None <-> rsp <> None) /\
    forall r, rsp = Some r ->
      Uri r = uri /\
      exists core doms,
        currentCore c' = Some core /\ currentDomains c' = Some doms /\
        CoreName r = core_Name core /\ Domains r = map toMemoryDomain doms.
Proof.
  unfold MemoryDomains.
  destruct (determineDomainMapping cfg (resetCache c) w) as [[c1 e] w1] eqn:D.
  destruct e as [e |].
  - exists c1, None, (Some e), w1. split; [reflexivity |].
    split; [split; [discriminate | intros H; contradiction] | discriminate].
  - destruct (discovery_fills_cache cfg (resetCache c) c1 w w1 eq_refl D)
      as (core & doms & Hcore & Hdoms).
    rewrite Hcore. eexists _, _, _, _. split; [reflexivity |].
    split; [split; [discriminate | reflexivity] |].
    intros r [= <-]. simpl. split; [reflexivity |].
    exists core, doms. rewrite Hdoms. repeat split. exact Hcore.
Qed.

End Discovery.

(** ** Package [emunwa]: [MultiDomainRead] *)

Module DomainReads.

Import Go EmuNWA.

Lemma determine_cached cfg c w :
  currentDomains c <> None -> determineDomainMapping cfg c w = (c, None, w).
Proof.
  intros H. unfold determineDomainMapping.
  destruct (currentDomains c); [reflexivity | contradiction].
Qed.

Lemma makeReads_ok reads :
  Forall (fun r => 0 <= os_Size r < 2 ^ 63) reads ->
  makeReads reads = Some (zeroed <$> reads).
Proof.
  induction 1 as [| r reads Hr _ IH]; simpl; [reflexivity |].
  destruct (Z.leb_spec (2 ^ 63) (os_Size r)); [lia |].
  rewrite IH. reflexivity.
Qed.

Lemma world_eq (w w' : world) :
  script w = script w' -> deadlines w = deadlines w' -> eof w = eof w' ->
  rx w = rx w' -> tx w = tx w' -> w = w'.
Proof.
  destruct w, w'; simpl. intros -> -> -> -> ->. reflexivity.
Qed.

Lemma write_answered w answers bytes :
  script w = inr <$> answers ->
  writeWithDeadline w bytes = (afterCommands w answers [bytes], None).
Proof.
  intros H. unfold writeWithDeadline, afterCommands. rewrite H.
  destruct answers as [| a answers]; simpl; rewrite ?app_nil_r; reflexivity.
Qed.

Lemma afterCommands_script w answers cmds :
  script w = inr <$> answers ->
  script (afterCommands w answers cmds) = inr <$> drop (length cmds) answers.
Proof.
  intros H. simpl. rewrite H, fmap_drop. reflexivity.
Qed.

Lemma afterCommands_cons w answers b cmds :
  afterCommands (afterCommands w answers [b]) (drop 1 answers) cmds =
  afterCommands w answers (b :: cmds).
Proof.
  apply world_eq; simpl.
  - rewrite drop_drop. reflexivity.
  - reflexivity.
  - reflexivity.
  - rewrite <- app_assoc, <- concat_app. do 2 f_equal.
    destruct answers as [| a answers]; simpl; [rewrite take_nil; reflexivity |].
    rewrite drop_0. reflexivity.
  - rewrite <- app_assoc. reflexivity.
Qed.

Lemma afterCommands_nil w answers : afterCommands w answers [] = w.
Proof.
  apply world_eq; simpl; rewrite ?app_nil_r; reflexivity.
Qed.

Lemma send_prefix core good tail :
  forall w answers,
    Forall (served core) good ->
    script w = inr <$> answers ->
    sendDomainReads (Some core) (good ++ tail) w =
    match sendDomainReads (Some core) tail
            (afterCommands w answers (commandOf core <$> good)) with
    | None => None
    | Some (mrsp, e, w') => Some ((initial <$> good) ++ mrsp, e, w')
    end.
Proof.
  induction good as [| q good IH]; intros w answers Hg Hs.
  - simpl. rewrite afterCommands_nil.
    destruct (sendDomainReads (Some core) tail w) as [[[mrsp e] w'] |]; reflexivity.
  - inversion Hg as [| ? ? [[memName Hn] Hz] Hg']; subst.
    cbn [app sendDomainReads]. rewrite Hn, (makeReads_ok _ Hz).
    rewrite (write_answered w answers _ Hs).
    rewrite (IH _ (drop 1 answers) Hg'
               (afterCommands_script w answers [_] Hs)).
    rewrite afterCommands_cons.
    assert (Hcmd : commandOf core q = domainRead memName (gq_Reads q))
      by (unfold commandOf; rewrite Hn; reflexivity).
    rewrite !fmap_cons, Hcmd.
    destruct (sendDomainReads (Some core) tail _) as [[[mrsp e] w'] |]; reflexivity.
Qed.

(** The sizes of a request that its reads do not pass. *)
Lemma copyReads_shares bin reads :
  Z.of_nat (length bin) < 2 ^ 63 ->
  forall offset,
    0 <= offset ->
    Forall (fun r => 0 <= os_Size r < 2 ^ 63) reads ->
    offset + foldr (fun r n => os_Size r + n) 0 reads < 2 ^ 64 ->
    copyReads bin offset reads (zeroed <$> reads) = Some (shares bin offset reads).
Proof.
  intros Hb. induction reads as [| r reads IH]; intros offset Ho Hz Hsum.
  - reflexivity.
  - inversion Hz as [| ? ? Hr Hz']; subst. simpl in Hsum.
    assert (Hrest : 0 <= foldr (fun r n => os_Size r + n) 0 reads).
    { clear -Hz'. induction Hz' as [| x l Hx _ IHl]; simpl; lia. }
    cbn [fmap list_fmap copyReads shares]. cbv zeta.
    assert (Hn : u64 (offset + os_Size r) = offset + os_Size r)
      by (unfold u64; apply Z.mod_small; lia).
    rewrite Hn, IH by (try assumption; lia).
    destruct (Z.geb_spec offset (Z.of_nat (length bin))) as [G | G].
    + simpl. do 3 f_equal. unfold zeroed, share. simpl.
      rewrite skipn_all2 by lia. rewrite firstn_nil. simpl.
      rewrite Nat.sub_0_r. reflexivity.
    + assert (Hsz : u64 (Z.of_nat (length bin) - offset) = Z.of_nat (length bin) - offset)
        by (unfold u64; apply Z.mod_small; lia).
      rewrite Hsz.
      destruct (Z.gtb_spec (os_Size r) (Z.of_nat (length bin) - offset)) as [P | P].
      * replace (offset + (Z.of_nat (length bin) - offset)) with (Z.of_nat (length bin))
          by lia.
        assert (Hl : u64 (Z.of_nat (length bin)) = Z.of_nat (length bin))
          by (unfold u64; apply Z.mod_small; lia).
        rewrite Hl.
        destruct (Z.ltb_spec (Z.of_nat (length bin)) offset); [lia |].
        destruct (Z.ltb_spec (Z.of_nat (length bin)) (Z.of_nat (length bin))); [lia |].
        simpl. do 3 f_equal. unfold slice.
        apply ReadMemoryProofs.copy_zeros_share. lia.
      * destruct (Z.ltb_spec (offset + os_Size r) offset); [lia |].
        destruct (Z.ltb_spec (Z.of_nat (length bin)) (offset + os_Size r)); [lia |].
        simpl. do 3 f_equal. unfold slice.
        apply ReadMemoryProofs.copy_zeros_share. lia.
Qed.

Lemma receive_all core requests :
  forall frames bins w,
    deadlines w = [] ->
    rx w = concat frames ->
    Forall2 isFrame frames bins ->
    Forall (fun bin => Z.of_nat (length bin) < 2 ^ 63) bins ->
    length bins = length requests ->
    Forall (served core) requests ->
    Forall (fun q => askedFor q < 2 ^ 64) requests ->
    receiveDomainReads requests (initial <$> requests) w =
    Some (zip_with (fun q bin => {| gr_Name := gq_Name q;
                                    gr_Reads := shares bin 0 (gq_Reads q) |})
                   requests bins,
          None,
          {| script := script w; deadlines := []; eof := eof w; rx := []; tx := tx w |}).
Proof.
  induction requests as [| q requests IH]; intros frames bins w Hd Hr Hf Hb Hl Hs Ha.
  - destruct bins; [| discriminate Hl]. inversion Hf; subst. simpl in *.
    do 2 f_equal. apply world_eq; simpl; auto.
  - destruct bins as [| payload bins]; [discriminate Hl |].
    inversion Hf as [| frame ? frames' ? Hframe Hf']; subst.
    inversion Hb as [| ? ? Hbin Hb']; subst.
    inversion Hs as [| ? ? [_ Hz] Hs']; subst.
    inversion Ha as [| ? ? Hq Ha']; subst.
    simpl in Hr, Hl. cbn [fmap list_fmap receiveDomainReads zip_with].
    rewrite (ReadMemoryProofs.readResponse_frame w frame payload (concat frames')
               Hd Hr Hframe).
    cbn [err ascii bin default initial gr_Reads gr_Name]. unfold id.
    rewrite (copyReads_shares payload (gq_Reads q) Hbin 0 (Z.le_refl 0) Hz)
      by (unfold askedFor in Hq; lia).
    rewrite (IH frames' bins
               {| script := script w; deadlines := []; eof := eof w;
                  rx := concat frames'; tx := tx w |}
               eq_refl eq_refl Hf' Hb' (eq_add_S _ _ Hl) Hs' Ha').
    reflexivity.
Qed.

(** X27.  [MultiDomainRead] checks the names while it sends: a request
    whose domain name the core does not map is refused with a non-fatal
    [InvalidArgument], but only after the commands of all requests before
    it were written.  Their replies are not read: what the emulator
    answers stays on the connection. *)
Theorem MultiDomainRead_rejects_late (cfg : Config) (c : Client) (w : world) (uri : string)
    (core : CoreConfig) (good rest : list GroupedDomainReadRequests)
    (bad : GroupedDomainReadRequests) (answers : list (list Z)) :
  currentDomains c <> None ->
  currentCore c = Some core ->
  Forall (served core) good ->
  SNIToCoreMapping (Define core) !! cleanLower (gq_Name bad) = None ->
  script w = inr <$> answers ->
  MultiDomainRead cfg c w uri (good ++ bad :: rest) =
    DomainReturned c None
      (Some (DeviceNonFatal (Status InvalidArgument "unrecognized domain name")))
      (afterCommands w answers (commandOf core <$> good)).
Proof.
  intros Hd Hc Hg Hb Hs. unfold MultiDomainRead.
  rewrite (determine_cached cfg c w Hd), Hc.
  rewrite (send_prefix core good (bad :: rest) w answers Hg Hs).
  cbn [sendDomainReads]. rewrite Hb. reflexivity.
Qed.

Lemma bsnes_client_core :
  currentDomains bsnes_client <> None /\ currentCore bsnes_client = Some bsnes_core.
Proof. split; [vm_compute; discriminate | vm_compute; reflexivity]. Defined.

Lemma two_requests_served : Forall (served bsnes_core) two_requests.
Proof.
  repeat constructor; try (vm_compute; eexists; reflexivity); simpl; lia.
Defined.

Lemma MultiDomainRead_rejects_late_witness :
  MultiDomainRead bsnes_config bsnes_client answering_world "emunwa://host/"
    (two_requests ++ [ {| gq_Name := "VRAM"; gq_Reads := [] |} ]) =
    DomainReturned bsnes_client None
      (Some (DeviceNonFatal (Status InvalidArgument "unrecognized domain name")))
      (afterCommands answering_world two_answers (commandOf bsnes_core <$> two_requests)).
Proof.
  apply (MultiDomainRead_rejects_late bsnes_config bsnes_client answering_world
           "emunwa://host/" bsnes_core two_requests []
           {| gq_Name := "VRAM"; gq_Reads := [] |} two_answers
           (proj1 bsnes_client_core) (proj2 bsnes_client_core) two_requests_served).
  - vm_compute. reflexivity.
  - reflexivity.
Defined.

(** X28.  When the core maps every name and the emulator answers every
    command with a binary reply, [MultiDomainRead] writes one command for
    each request, in order, then reads the replies in the same order, and
    each read of a request gets the bytes of the reply to that request
    that follow those of the reads before it, with zeros where the reply
    has no bytes left; nothing stays unread. *)
Theorem MultiDomainRead_fills_reads (cfg : Config) (c : Client) (w : world) (uri : string)
    (core : CoreConfig) (requests : list GroupedDomainReadRequests)
    (frames bins : list (list Z)) :
  currentDomains c <> None ->
  currentCore c = Some core ->
  Forall (served core) requests ->
  Forall (fun q => askedFor q < 2 ^ 64) requests ->
  script w = inr <$> frames ->
  rx w = [] ->
  deadlines w = [] ->
  Forall2 isFrame frames bins ->
  Forall (fun bin => Z.of_nat (length bin) < 2 ^ 63) bins ->
  length bins = length requests ->
  MultiDomainRead cfg c w uri requests =
    DomainReturned c
      (Some {| mdr_Uri := uri;
               mdr_Responses :=
                 zip_with (fun q bin => {| gr_Name := gq_Name q;
                                           gr_Reads := shares bin 0 (gq_Reads q) |})
                          requests bins |})
      None
      {| script := []; deadlines := []; eof := eof w; rx := [];
         tx := tx w ++ (commandOf core <$> requests) |}.
Proof.
  intros Hd Hc Hg Ha Hs Hr Hdl Hf Hb Hl. unfold MultiDomainRead.
  rewrite (determine_cached cfg c w Hd), Hc.
  pose proof (send_prefix core requests [] w frames Hg Hs) as S.
  rewrite app_nil_r in S. rewrite S. cbn [sendDomainReads]. rewrite app_nil_r.
  pose proof (Forall2_length _ _ _ Hf) as Hlf.
  assert (Hn : length (commandOf core <$> requests) = length frames)
    by (rewrite length_fmap; lia).
  rewrite (receive_all core requests frames bins
             (afterCommands w frames (commandOf core <$> requests)) Hdl);
    try assumption.
  - do 2 f_equal. simpl. rewrite Hn, Hs, <- fmap_drop, drop_all. reflexivity.
  - simpl. rewrite Hr, Hn, firstn_all. reflexivity.
Qed.

Lemma MultiDomainRead_fills_reads_witness :
  MultiDomainRead bsnes_config bsnes_client answering_world "emunwa://host/" two_requests =
    DomainReturned bsnes_client
      (Some {| mdr_Uri := "emunwa://host/";
               mdr_Responses :=
                 zip_with (fun q bin => {| gr_Name := gq_Name q;
                                           gr_Reads := shares bin 0 (gq_Reads q) |})
                          two_requests [ [17; 34; 51]; [68] ] |})
      None
      {| script := []; deadlines := []; eof := eof answering_world; rx := [];
         tx := tx answering_world ++ (commandOf bsnes_core <$> two_requests) |}.
Proof.
  apply (MultiDomainRead_fills_reads bsnes_config bsnes_client answering_world
           "emunwa://host/" bsnes_core two_requests two_answers [ [17; 34; 51]; [68] ]
           (proj1 bsnes_client_core) (proj2 bsnes_client_core) two_requests_served).
  - repeat constructor; vm_compute; reflexivity.
  - reflexivity.
  - reflexivity.
  - reflexivity.
  - repeat constructor; do 4 eexists; split; reflexivity.
  - repeat constructor; simpl; lia.
  - reflexivity.
Defined.

End DomainReads.

(** ** Package [emunwa]: [MultiDomainWrite] *)

Module DomainWrites.

Import Go EmuNWA.

Lemma totalSize32_from writes :
  forall total,
    0 <= total ->
    total + Z.of_nat (length (concat (od_Data <$> writes))) < 2 ^ 32 ->
    fold_left (fun total write => u32 (total + u32 (Z.of_nat (length (od_Data write)))))
              writes total =
    total + Z.of_nat (length (concat (od_Data <$> writes))).
Proof.
  induction writes as [| x writes IH]; intros total H0 H.
  - simpl. lia.
  - rewrite fmap_cons in H |- *. cbn [fold_left concat] in H |- *.
    rewrite length_app in H |- *.
    rewrite (FxPakProProofs.u32_small (Z.of_nat (length (od_Data x)))) by lia.
    rewrite FxPakProProofs.u32_small by lia.
    rewrite IH by lia. lia.
Qed.

Lemma send_writes_prefix core good tail :
  forall w answers,
    Forall (fun q => is_Some (SNIToCoreMapping (Define core) !! cleanLower (gw_Name q)))
           good ->
    script w = inr <$> answers ->
    sendDomainWrites (Some core) (good ++ tail) w =
    match sendDomainWrites (Some core) tail
            (afterCommands w answers (bufferOf core <$> good)) with
    | None => None
    | Some (mrsp, e, w') => Some ((answerOf <$> good) ++ mrsp, e, w')
    end.
Proof.
  induction good as [| q good IH]; intros w answers Hg Hs.
  - simpl. rewrite DomainReads.afterCommands_nil.
    destruct (sendDomainWrites (Some core) tail w) as [[[mrsp e] w'] |]; reflexivity.
  - inversion Hg as [| ? ? [memName Hn] Hg']; subst.
    cbn [app sendDomainWrites]. rewrite Hn.
    rewrite (DomainReads.write_answered w answers _ Hs).
    rewrite (IH _ (drop 1 answers) Hg'
               (DomainReads.afterCommands_script w answers [_] Hs)).
    rewrite DomainReads.afterCommands_cons.
    assert (Hcmd : bufferOf core q = domainWrite memName (gw_Writes q))
      by (unfold bufferOf; rewrite Hn; reflexivity).
    rewrite !fmap_cons, Hcmd.
    destruct (sendDomainWrites (Some core) tail _) as [[[mrsp e] w'] |]; reflexivity.
Qed.

Lemma receiveDomainWrites_tx reqs :
  forall errs w, tx (receiveDomainWrites reqs errs w).2 = tx w.
Proof.
  induction reqs as [| q reqs IH]; intros errs w; simpl; [reflexivity |].
  pose proof (EmuNWAMore.readResponse_tx w) as T.
  destruct (readResponse w) as [rp w']. simpl in T.
  destruct (err rp); simpl; [exact T |]. rewrite IH. exact T.
Qed.

(** X29.  When the core maps the name of every request and no write
    fails, [MultiDomainWrite] writes one buffer for each request, in
    order, and nothing else; a response, when there is one, repeats each
    write with its offset and the length of its data.  The buffer of a
    request is its command line followed by the data of its writes, one
    after the other, as one binary block: while the data stay below 2^32
    bytes it is the block that [SendCommandBinaryWaitReply] would send for
    them, whose size field is their length. *)
Theorem MultiDomainWrite_sends_blocks (cfg : Config) (c : Client) (w : world) (uri : string)
    (core : CoreConfig) (requests : list GroupedDomainWriteRequests)
    (answers : list (list Z)) :
  currentDomains c <> None ->
  currentCore c = Some core ->
  Forall (fun q => is_Some (SNIToCoreMapping (Define core) !! cleanLower (gw_Name q)))
         requests ->
  script w = inr <$> answers ->
  (exists w',
     worldOf (MultiDomainWrite cfg c w uri requests) = Some w' /\
     tx w' = tx w ++ (bufferOf core <$> requests)) /\
  (forall rsp,
     responseOfWrite (MultiDomainWrite cfg c w uri requests) = Some rsp ->
     rsp = {| mdw_Uri := uri; mdw_Responses := answerOf <$> requests |}) /\
  (forall memName writes,
     Z.of_nat (length (concat (od_Data <$> writes))) < 2 ^ 32 ->
     domainWrite memName writes =
       bytes_of_string ("bCORE_WRITE " +:+ memName +:+ writeArgs writes +:+ newline)
       ++ binaryBlock (concat (od_Data <$> writes))).
Proof.
  intros Hd Hc Hg Hs.
  assert (E : MultiDomainWrite cfg c w uri requests =
              let w1 := afterCommands w answers (bufferOf core <$> requests) in
              match receiveDomainWrites requests EmptyString w1 with
              | (_, Some e, w2) => WriteReturned c None (Some e) w2
              | (errReplies, None, w2) =>
                  if (0 <? String.length errReplies)%nat then
                    WriteReturned c None
                      (Some (NonFatalError (Errorf ("emunwa: error=" +:+ errReplies)))) w2
                  else
                    WriteReturned c
                      (Some {| mdw_Uri := uri; mdw_Responses := answerOf <$> requests |})
                      None w2
              end).
  { unfold MultiDomainWrite.
    rewrite (DomainReads.determine_cached cfg c w Hd), Hc.
    pose proof (send_writes_prefix core requests [] w answers Hg Hs) as S.
    rewrite app_nil_r in S. rewrite S. cbn [sendDomainWrites]. rewrite app_nil_r.
    reflexivity. }
  rewrite E. cbv zeta.
  pose proof (receiveDomainWrites_tx requests EmptyString
                (afterCommands w answers (bufferOf core <$> requests))) as T.
  destruct (receiveDomainWrites requests EmptyString _) as [[errs e] w2].
  simpl in T.
  split; [| split].
  - exists w2. split; [| exact T].
    destruct e; [reflexivity |]. destruct (0 <? String.length errs)%nat; reflexivity.
  - intros rsp. destruct e; [discriminate |].
    destruct (0 <? String.length errs)%nat; [discriminate |].
    intros [= <-]. reflexivity.
  - intros memName writes H. unfold domainWrite, binaryBlock, totalSize32.
    rewrite totalSize32_from by lia.
    rewrite FxPakProProofs.u32_small by lia. reflexivity.
Qed.

Lemma MultiDomainWrite_sends_blocks_witness :
  exists w',
    worldOf (MultiDomainWrite bsnes_config bsnes_client answering_world "emunwa://host/"
               one_write) = Some w' /\
    tx w' = tx answering_world ++ (bufferOf bsnes_core <$> one_write).
Proof.
  refine (proj1 (MultiDomainWrite_sends_blocks bsnes_config bsnes_client answering_world
                   "emunwa://host/" bsnes_core one_write two_answers
                   (proj1 DomainReads.bsnes_client_core)
                   (proj2 DomainReads.bsnes_client_core) _ eq_refl)).
  repeat constructor. vm_compute. eexists. reflexivity.
Defined.

End DomainWrites.

(** ** Package [emunwa]: the items of an ASCII reply *)

Module Replies.

Import Go EmuNWA.

(** *** The lines that the scanner returns *)

Lemma ScanLines_line (l rest : list Z) :
  Forall (fun b => b <> LF) l -> ScanLines (l ++ LF :: rest) = l :: ScanLines rest.
Proof.
  induction 1 as [| b l Hb _ IH]; simpl.
  - reflexivity.
  - destruct (Z.eqb_spec b LF) as [E | _]; [contradiction |].
    rewrite IH. reflexivity.
Qed.

Lemma dropCR_kept (l : list Z) : List.last l 0 <> CR -> dropCR l = l.
Proof.
  induction l as [| b l IH]; [reflexivity |].
  destruct l as [| b' l'].
  - simpl. intros H. destruct (Z.eqb_spec b CR); [contradiction | reflexivity].
  - intros H. change (dropCR (b :: b' :: l')) with (b :: dropCR (b' :: l')).
    rewrite IH; [reflexivity | exact H].
Qed.

Lemma Scan_lines (lines : list string) (rest : list Z) :
  Forall okLine lines -> Scan (linesBody lines ++ rest) = lines ++ Scan rest.
Proof.
  induction 1 as [| l lines (_ & Hn & Hc & Hs) _ IH]; [reflexivity |].
  unfold linesBody in *. rewrite fmap_cons. cbn [concat].
  rewrite <- !app_assoc. cbn [app]. unfold Scan in *.
  rewrite (ScanLines_line _ _ Hn). cbn [fits].
  destruct (Z.ltb_spec (Z.of_nat (length (bytes_of_string l))) MaxScanTokenSize); [| lia].
  cbn [map]. rewrite IH, (dropCR_kept _ Hc), ListFiles.string_of_bytes_of_string.
  reflexivity.
Qed.

Lemma untilEmpty_lines (lines : list string) (rest : list string) :
  Forall (fun l => l <> EmptyString) lines ->
  untilEmpty (lines ++ EmptyString :: rest) = lines.
Proof.
  induction 1 as [| l lines Hl _ IH]; [reflexivity |].
  cbn [app untilEmpty]. destruct l; [contradiction |]. rewrite IH. reflexivity.
Qed.

Lemma Scan_blank (rest : list Z) : exists more, Scan (LF :: rest) = EmptyString :: more.
Proof.
  unfold Scan. simpl. eexists. reflexivity.
Qed.

(** A reply of lines and an empty line: the lines are what the loop of
    [parseResponse] sees, whatever follows the empty line. *)
Lemma Scan_until_blank (lines : list string) (rest : list Z) :
  Forall okLine lines ->
  untilEmpty (Scan (linesBody lines ++ LF :: rest)) = lines.
Proof.
  intros H. rewrite (Scan_lines lines _ H).
  destruct (Scan_blank rest) as [more ->].
  apply untilEmpty_lines.
  eapply List.Forall_impl; [| exact H]. intros l Hl. apply Hl.
Qed.

(** *** The loop as a fold over the lines before the empty line *)

Lemma scanLoop_fold (lines : list string) st :
  scanLoop lines st = fold_left (fun st l => scanLine l st) (untilEmpty lines) st.
Proof.
  revert st. induction lines as [| l lines IH]; intros st; [reflexivity |].
  destruct l as [| a l']; [reflexivity |].
  cbn [scanLoop untilEmpty fold_left]. apply IH.
Qed.

Lemma keys_pairs (g : list string) :
  ((fun l => (keyOf l, valueOf l)) <$> g).*1 = keyOf <$> g.
Proof.
  rewrite <- list_fmap_compose. reflexivity.
Qed.

Lemma itemOf_lookup_None (g : list string) (k : string) :
  itemOf g !! k = None <-> ~ In k (keyOf <$> g).
Proof.
  unfold itemOf. rewrite <- not_elem_of_list_to_map, keys_pairs, list_elem_of_In.
  reflexivity.
Qed.

Lemma itemOf_snoc (g : list string) (l : string) :
  ~ In (keyOf l) (keyOf <$> g) ->
  itemOf (g ++ [l]) = <[keyOf l := valueOf l]> (itemOf g).
Proof.
  intros H. unfold itemOf. rewrite fmap_app. simpl.
  apply list_to_map_snoc. rewrite keys_pairs, list_elem_of_In. exact H.
Qed.

Lemma itemOf_size (g : list string) : NoDup (keyOf <$> g) -> size (itemOf g) = length g.
Proof.
  intros H. unfold itemOf. rewrite map_size_list_to_map, length_fmap; [reflexivity |].
  rewrite keys_pairs. exact H.
Qed.

Lemma splitsAtRepeats_close (gs : list (list string)) (g : list string) (l : string) :
  splitsAtRepeats (gs ++ [g]) -> In (keyOf l) (keyOf <$> g) ->
  splitsAtRepeats ((gs ++ [g]) ++ [[l]]).
Proof.
  intros H Hl. induction gs as [| g0 gs IH].
  - simpl. auto.
  - cbn [app splitsAtRepeats] in *. destruct H as [H0 H1].
    split; [| apply IH, H1].
    destruct gs as [| g1 gs']; [exact H0 |]. exact H0.
Qed.

Lemma splitsAtRepeats_grow (gs : list (list string)) (g : list string) (l : string) :
  splitsAtRepeats (gs ++ [g]) -> (gs <> [] -> g <> []) ->
  splitsAtRepeats (gs ++ [g ++ [l]]).
Proof.
  intros H Hg. induction gs as [| g0 gs IH].
  - simpl. auto.
  - cbn [app splitsAtRepeats] in *. destruct H as [H0 H1].
    destruct gs as [| g1 gs'].
    + cbn [app] in *. split; [| simpl; auto].
      destruct g as [| x g']; [exfalso; apply Hg; [discriminate | reflexivity] |].
      exact H0.
    + split; [exact H0 |]. apply IH; [exact H1 |]. intros _. apply Hg. discriminate.
Qed.

(** The state of the loop after some lines: the items that are closed and
    the current item are the items of consecutive groups of the lines. *)
Lemma fold_groups (lines : list string) :
  exists closed cur,
    concat closed ++ cur = lines /\
    Forall (fun g => g <> [] /\ NoDup (keyOf <$> g)) closed /\
    NoDup (keyOf <$> cur) /\
    (closed <> [] -> cur <> []) /\
    splitsAtRepeats (closed ++ [cur]) /\
    fold_left (fun st l => scanLine l st) lines ([], ∅) = (itemOf <$> closed, itemOf cur).
Proof.
  induction lines as [| l lines IH] using rev_ind.
  - exists [], []. simpl. repeat split; auto; constructor.
  - destruct IH as (closed & cur & Hc & Hf & Hn & He & Hs & Hst).
    rewrite fold_left_app, Hst. cbn [fold_left].
    unfold scanLine. fold (keyOf l). fold (valueOf l).
    destruct (itemOf cur !! keyOf l) as [old |] eqn:E.
    + assert (Hin : In (keyOf l) (keyOf <$> cur)).
      { destruct (in_dec string_dec (keyOf l) (keyOf <$> cur)) as [H | H]; [exact H |].
        apply itemOf_lookup_None in H. congruence. }
      assert (Hne : cur <> []) by (intros ->; destruct Hin).
      exists (closed ++ [cur]), [l].
      split; [rewrite concat_app; simpl; rewrite app_nil_r, Hc; reflexivity |].
      split; [apply Forall_app; split; [exact Hf | repeat constructor; assumption] |].
      split; [simpl; apply NoDup_singleton |].
      split; [discriminate |].
      split; [apply splitsAtRepeats_close; assumption |].
      rewrite fmap_app. reflexivity.
    + assert (Hin : ~ In (keyOf l) (keyOf <$> cur)) by (apply itemOf_lookup_None, E).
      exists closed, (cur ++ [l]).
      split; [rewrite app_assoc, Hc; reflexivity |].
      split; [exact Hf |].
      split.
      { rewrite fmap_app. apply NoDup_app. split; [exact Hn |].
        split; [| apply NoDup_singleton].
        intros x Hx Hx'. apply list_elem_of_In in Hx.
        apply list_elem_of_singleton in Hx'. subst x. contradiction. }
      split; [intros _ F; destruct cur; discriminate F |].
      split; [apply splitsAtRepeats_grow; assumption |].
      rewrite itemOf_snoc by exact Hin. reflexivity.
Qed.

Lemma parseAscii_groups (body : list Z) :
  exists groups,
    concat groups = untilEmpty (Scan body) /\
    Forall (fun g => g <> [] /\ NoDup (keyOf <$> g)) groups /\
    splitsAtRepeats groups /\
    parseAscii body = itemOf <$> groups.
Proof.
  unfold parseAscii. rewrite scanLoop_fold.
  destruct (fold_groups (untilEmpty (Scan body)))
    as (closed & cur & Hc & Hf & Hn & He & Hs & ->).
  rewrite (itemOf_size cur Hn).
  destruct cur as [| l cur].
  - destruct closed as [| g closed]; [| exfalso; apply He; [discriminate | reflexivity]].
    exists []. simpl in *. repeat split; auto.
  - exists (closed ++ [l :: cur]). simpl.
    split; [rewrite concat_app; simpl; rewrite app_nil_r; exact Hc |].
    split; [apply Forall_app; split; [exact Hf |];
            constructor; [split; [discriminate | exact Hn] | constructor] |].
    split; [exact Hs |].
    rewrite fmap_app. reflexivity.
Qed.

(** C1, amended.  For every reply: what follows the first empty line is
    not read; the lines before it fall into consecutive groups, a group
    ending exactly where the next line has a key that the group already
    has; and the items returned are, in order, the maps of the pairs of
    these groups.  So the two items come from the body without an empty
    line between them, and the literal body yields the first item only. *)
Theorem repeated_key_starts_item :
  (forall body eof,
     parseResponse (LF :: body) eof =
       ({| bin := None; ascii := Some (parseAscii body); err := None |}, [])) /\
  (forall lines rest,
     Forall okLine lines ->
     untilEmpty (Scan (linesBody lines ++ LF :: rest)) = lines) /\
  (forall body,
     exists groups,
       concat groups = untilEmpty (Scan body) /\
       Forall (fun g => g <> [] /\ NoDup (keyOf <$> g)) groups /\
       splitsAtRepeats groups /\
       parseAscii body = itemOf <$> groups) /\
  parseAscii two_items_body = [foo_item; bar_item] /\
  parseAscii literal_body = [foo_item].
Proof.
  split; [intros body eof; reflexivity |].
  split; [apply Scan_until_blank |].
  split; [apply parseAscii_groups |].
  split; vm_compute; reflexivity.
Qed.

(** C9.  Every line of a reply, up to the first empty line, is entered in
    one of the items that [parseResponse] returns under the text before
    its first colon, with all the text after that colon as its value: a
    line without a colon is entered whole as the key, with the empty
    string as its value, and of a line [k:v], where [k] has no colon, the
    key is [k] and the value is all of [v], every further colon in it
    included. *)
Theorem line_splits_at_first_colon (body : list Z) (eof : error) (l : string) :
  In l (untilEmpty (Scan body)) ->
  exists items item,
    parseResponse (LF :: body) eof =
      ({| bin := None; ascii := Some items; err := None |}, []) /\
    In item items /\
    item !! keyOf l = Some (valueOf l) /\
    (hasColon l = false ->
     keyOf l = l /\ valueOf l = EmptyString /\ item !! l = Some EmptyString) /\
    (forall k v, hasColon k = false -> l = k +:+ ":" +:+ v ->
     keyOf l = k /\ valueOf l = v /\ item !! k = Some v).
Proof.
  intros Hl. exists (parseAscii body).
  assert (Hi : exists item, In item (parseAscii body) /\
                            item !! keyOf l = Some (valueOf l)).
  { unfold parseAscii.
    pose proof (EmuNWAMore.scanLoop_spec (Scan body) [] ∅) as (_ & _ & _ & S4).
    destruct (scanLoop (Scan body) ([], ∅)) as [ascii item]. simpl in S4.
    destruct (S4 l Hl) as (i & Hin & Hk).
    destruct (Nat.ltb_spec 0 (size item)) as [Hs | Hs]; [exists i; auto |].
    assert (item = ∅) as -> by (apply map_size_empty_inv; lia).
    apply in_app_or in Hin as [Hin | [<- | []]]; [exists i; auto |].
    rewrite lookup_empty in Hk. discriminate. }
  destruct Hi as (item & Hin & Hk). exists item.
  split; [reflexivity |]. split; [exact Hin |]. split; [exact Hk |].
  split.
  - intros H. unfold keyOf, valueOf in *.
    rewrite (EmuNWAProofs.SplitN2_no_colon l H) in *. simpl in *. auto.
  - intros k v H ->. unfold keyOf, valueOf in *.
    rewrite (EmuNWAProofs.SplitN2_first_colon k v H) in *. simpl in *. auto.
Qed.

Lemma line_splits_at_first_colon_witness :
  exists items item,
    parseResponse (LF :: colons_body) (NetErr ErrEOF) =
      ({| bin := None; ascii := Some items; err := None |}, []) /\
    In item items /\
    item !! "a" = Some "b:c".
Proof.
  assert (Hl : In "a:b:c" (untilEmpty (Scan colons_body)))
    by (vm_compute; left; reflexivity).
  destruct (line_splits_at_first_colon colons_body (NetErr ErrEOF) "a:b:c" Hl)
    as (items & item & Hp & Hin & _ & _ & Hkv).
  exists items, item. split; [exact Hp |]. split; [exact Hin |].
  exact (proj2 (proj2 (Hkv "a" "b:c" eq_refl eq_refl))).
Defined.

End Replies.
